(** * sorted-ranges: SortedRangeMap and SortedRangeSet

    A shallow embedding of [src/test/index.ts] (the classes [SortedRangeMap] and
    [SortedRangeSet], together with [assertRange], [cloneEntry] and
    [cloneRange]) and the proofs of its specification.

    Layout:
    - [Js]      numbers, exceptions, [Array.prototype.splice] and [at];
    - [RangeMap] the map, method by method, over an arbitrary value type
                with its strict-equality test;
    - [RangeSet] the set, a wrapper around a map of the placeholder [0];
    - [Store]   a heap of range arrays, for the copying done by [slice];
    - [Stateful] the methods run statement by statement on their receiver,
                for what a call that throws leaves behind;
    - the theorems. *)

From Stdlib Require Import ZArith QArith Qcanon Lia Bool.
From stdpp Require Import base tactics option list sorting.

Local Open Scope Z_scope.

(* ===================================================================== *)
(** ** JavaScript values and arrays *)
(* ===================================================================== *)

Module Js.

(** A JavaScript [number].  Every finite double is a rational; the three
    other values are kept apart.  (Not every rational is a double: the
    model receives more inputs than the program can.) *)
Inductive number : Type :=
  | Finite (q : Q)
  | NaN
  | Infinity
  | NegInfinity.

Definition ofZ (z : Z) : number := Finite (inject_Z z).

(** [Number.MAX_SAFE_INTEGER] is [2 ** 53 - 1]. *)
Definition MAX_SAFE_INTEGER : Z := 2 ^ 53 - 1.

(** [Number.isInteger]: a finite number without fractional part. *)
Definition isInteger (n : number) : bool :=
  match n with
  | Finite q => Pos.eqb (Qden (Qred q)) 1
  | _ => false
  end.

(** The integer an integral number denotes (the numerator of the reduced
    fraction; meaningful when [isInteger] holds). *)
Definition toZ (n : number) : Z :=
  match n with
  | Finite q => Qnum (Qred q)
  | _ => 0
  end.

(** [Number.isSafeInteger]: an integer of magnitude at most
    [MAX_SAFE_INTEGER]. *)
Definition isSafeInteger (n : number) : bool :=
  isInteger n && (Z.abs (toZ n) <=? MAX_SAFE_INTEGER).

(** The relational operator [a > b] on numbers: false as soon as one side
    is [NaN]. *)
Definition gt (a b : number) : bool :=
  match a, b with
  | NaN, _ | _, NaN => false
  | Infinity, Infinity => false
  | Infinity, _ => true
  | _, Infinity => false
  | NegInfinity, _ => false
  | _, NegInfinity => true
  | Finite p, Finite q => negb (Qle_bool p q)
  end.

(** What a method call can throw.  Both are [TypeError]s in the program:
    [InvalidRange] is the one [assertRange] throws, [UndefinedEntry] the one
    raised by destructuring [this.#entries[i]!] when the element is
    [undefined].  [OutOfFuel] is not a JavaScript exception: it is the
    outcome of a loop of the model whose iteration budget is exhausted, and
    is shown never to occur. *)
Inductive error : Type :=
  | InvalidRange
  | UndefinedEntry
  | OutOfFuel.

Inductive result (A : Type) : Type :=
  | Ok (a : A)
  | Throw (e : error).
Arguments Ok {A} a.
Arguments Throw {A} e.

#[export] Instance result_ret : MRet result := fun A a => Ok a.
#[export] Instance result_bind : MBind result := fun A B f m =>
  match m with
  | Ok a => f a
  | Throw e => Throw e
  end.

Definition is_ok {A} (r : result A) : bool :=
  match r with Ok _ => true | Throw _ => false end.

(** [~x] on an integer that fits 32 bits, as the program uses it on
    indices: [-(x + 1)].  The operator first reduces its operand to 32
    bits; the model leaves that out, and so stands for arrays of fewer than
    [2 ** 31] entries. *)
Definition bitnot (x : Z) : Z := Z.lnot x.

(** [x >>> n]: [x] is first reduced to an unsigned 32-bit integer. *)
Definition ushr (x n : Z) : Z := Z.shiftr (x mod 2 ^ 32) (n mod 32).

Section Arrays.
Context {A : Type}.

Definition size (l : list A) : Z := Z.of_nat (length l).

(** [array[i]] for an integer [i]: [undefined] ([None]) out of bounds. *)
Definition index (l : list A) (i : Z) : option A :=
  if i <? 0 then None else l !! Z.to_nat i.

(** [array[i]!] followed by a destructuring of the element. *)
Definition element (l : list A) (i : Z) : result A :=
  match index l i with
  | Some a => Ok a
  | None => Throw UndefinedEntry
  end.

(** [array.at(i)]: negative indices count from the end. *)
Definition at_ (l : list A) (i : Z) : option A :=
  index l (if i <? 0 then size l + i else i).

(** [array.splice(start, deleteCount, ...items)], the array afterwards.
    A negative [start] counts from the end; [start] is clamped to
    [0 .. length] and [deleteCount] to [0 .. length - start]. *)
Definition splice (l : list A) (start deleteCount : Z) (items : list A)
  : list A :=
  let len := size l in
  let actualStart :=
    if start <? 0 then Z.max (len + start) 0 else Z.min start len in
  let actualDeleteCount :=
    Z.min (Z.max deleteCount 0) (len - actualStart) in
  take (Z.to_nat actualStart) l ++ items
    ++ drop (Z.to_nat (actualStart + actualDeleteCount)) l.

(** [array[i] = x] for an index inside the array, which is the only way
    the program writes (always to an element it has just read). *)
Definition store (l : list A) (i : Z) (x : A) : list A :=
  if i <? 0 then l else <[Z.to_nat i := x]> l.
End Arrays.

End Js.
Import Js.

(* ===================================================================== *)
(** ** Ranges and entries *)
(* ===================================================================== *)

(** [ReadonlyRange] as a caller supplies it: two numbers. *)
Abbreviation ReadonlyRange := (number * number)%type.

(** [Range] once [assertRange] has accepted it.  Both endpoints are safe
    integers, held as [Z]; the program only adds or subtracts [1] to an
    endpoint that stays between two stored endpoints, which is exact on
    doubles. *)
Abbreviation Range := (Z * Z)%type.

Definition toReadonly (r : Range) : ReadonlyRange := (ofZ r.1, ofZ r.2).

(** [assertRange]. *)
Definition assertRange (range : ReadonlyRange) : result Range :=
  let '(start, end_) := range in
  if negb (isSafeInteger start) || negb (isSafeInteger end_) || gt start end_
  then Throw InvalidRange
  else Ok (toZ start, toZ end_).

(** The ranges the specification calls invalid: an endpoint that is not a
    safe integer, or [start > end]. *)
Definition invalid (range : ReadonlyRange) : Prop :=
  isSafeInteger range.1 = false \/ isSafeInteger range.2 = false
  \/ gt range.1 range.2 = true.

(** [cloneRange]: a new array with the same two numbers. *)
Definition cloneRange (r : Range) : Range := let '(start, end_) := r in (start, end_).

(* ===================================================================== *)
(** ** SortedRangeMap *)
(* ===================================================================== *)

Module RangeMap.
Section Methods.
Context {Value : Type}.

(** [previousValue === value] on the values of the map. *)
Variable strictEq : Value -> Value -> bool.

Local Abbreviation RangeEntry := (Range * Value)%type.
Local Abbreviation ReadonlyEntry := (ReadonlyRange * Value)%type.

(** A [SortedRangeMap] is its private field [#entries]; a method takes
    it first and, when it mutates, returns the field afterwards. *)
Local Abbreviation SortedRangeMap := (list RangeEntry).

Definition cloneEntry (entry : RangeEntry) : RangeEntry :=
  let '(range, value) := entry in (cloneRange range, value).

(** The [while (low <= high)] loop of [indexOf]; one unit of [fuel] per
    iteration. *)
Fixpoint search (fuel : nat) (this : SortedRangeMap) (key low high : Z)
  : result Z :=
  if low <=? high then
    match fuel with
    | O => Throw OutOfFuel
    | S fuel' =>
        let middle := low + ushr (high - low) 1 in
        '((start, end_), _) ← element this middle;
        if key >? end_ then search fuel' this key (middle + 1) high
        else if key <? start then search fuel' this key low (middle - 1)
        else Ok middle
    end
  else Ok (bitnot low).

Definition indexOf (this : SortedRangeMap) (key : Z) : result Z :=
  search (length this) this key 0 (size this - 1).

(** [#indicesOf]: [None] is [undefined]. *)
Definition indicesOf (this : SortedRangeMap) (range : Range)
  : result (option (Z * Z)) :=
  let '(start, end_) := range in
  firstIndex ← indexOf this start;
  lastIndex ← (if start =? end_ then Ok firstIndex else indexOf this end_);
  if (firstIndex <? 0) && (firstIndex =? lastIndex) then Ok None
  else
    let firstIndex :=
      if firstIndex <? 0 then bitnot firstIndex else firstIndex in
    let lastIndex :=
      if lastIndex <? 0 then bitnot lastIndex - 1 else lastIndex in
    Ok (Some (firstIndex, lastIndex)).

(** [#deleteFromSingleRange]. *)
Definition deleteFromSingleRange (this : SortedRangeMap) (targetIndex : Z)
  (range : Range) : result SortedRangeMap :=
  let '(deleteStart, deleteEnd) := range in
  '((targetStart, targetEnd), value) ← element this targetIndex;
  if deleteStart <=? targetStart then
    if deleteEnd >=? targetEnd then
      Ok (splice this targetIndex 1 [])
    else
      Ok (store this targetIndex ((deleteEnd + 1, targetEnd), value))
  else if deleteEnd >=? targetEnd then
    Ok (store this targetIndex ((targetStart, deleteStart - 1), value))
  else
    let rangeAfterDelete := (deleteEnd + 1, targetEnd) in
    let this := store this targetIndex ((targetStart, deleteStart - 1), value) in
    Ok (splice this (targetIndex + 1) 0 [(rangeAfterDelete, value)]).

(** [#delete]: the returned boolean and the entries afterwards. *)
Definition delete_ (this : SortedRangeMap) (range : Range)
  : result (bool * SortedRangeMap) :=
  indices ← indicesOf this range;
  match indices with
  | None => Ok (false, this)
  | Some (firstIndex, lastIndex) =>
      this ← deleteFromSingleRange this lastIndex range;
      let fullyContainedStartIndex := firstIndex + 1 in
      let deleteCount := lastIndex - fullyContainedStartIndex in
      let this := splice this fullyContainedStartIndex deleteCount [] in
      this ← (if negb (firstIndex =? lastIndex)
              then deleteFromSingleRange this firstIndex range
              else Ok this);
      Ok (true, this)
  end.

Definition delete (this : SortedRangeMap) (range : ReadonlyRange)
  : result (bool * SortedRangeMap) :=
  range ← assertRange range;
  delete_ this range.

(** [#maybeMergeWithPreviousEntry]. *)
Definition maybeMergeWithPreviousEntry (this : SortedRangeMap) (index : Z)
  : result SortedRangeMap :=
  if index =? 0 then Ok this
  else
    '((start, end_), value) ← element this index;
    '((previousStart, previousEnd), previousValue) ← element this (index - 1);
    let isMergeable :=
      (previousEnd + 1 =? start) && strictEq previousValue value in
    if negb isMergeable then Ok this
    else
      let this := splice this index 1 [] in
      Ok (store this (index - 1) ((previousStart, end_), previousValue)).

(** [set]; the method returns [this], here the entries afterwards. *)
Definition set (this : SortedRangeMap) (range : ReadonlyRange)
  (value : Value) : result SortedRangeMap :=
  range ← assertRange range;
  '(_, this) ← delete_ this range;
  found ← indexOf this range.1;
  let insertIndex := bitnot found in
  let this := splice this insertIndex 0 [(range, value)] in
  let nextIndex := insertIndex + 1 in
  this ← (if nextIndex <? size this
          then maybeMergeWithPreviousEntry this nextIndex
          else Ok this);
  maybeMergeWithPreviousEntry this insertIndex.

(** The [for ... of entries] loop of the constructor. *)
Fixpoint setEach (this : SortedRangeMap) (entries : list ReadonlyEntry)
  : result SortedRangeMap :=
  match entries with
  | [] => Ok this
  | (range, value) :: rest =>
      this ← set this range value;
      setEach this rest
  end.

(** [new SortedRangeMap(entries)]; [None] is [undefined] or [null]. *)
Definition constructor (entries : option (list ReadonlyEntry))
  : result SortedRangeMap :=
  match entries with
  | None => Ok []
  | Some entries => setEach [] entries
  end.

Definition clear (this : SortedRangeMap) : SortedRangeMap := [].

(** [Array.from({ length }, (_, index) => f(index))]: the callback is
    called on [0], [1], ... in turn; a negative [length] counts as [0]. *)
Fixpoint fromIndices {A} (f : Z -> result A) (indices : list Z)
  : result (list A) :=
  match indices with
  | [] => Ok []
  | index :: rest => a ← f index; l ← fromIndices f rest; Ok (a :: l)
  end.

Definition arrayFrom {A} (length : Z) (f : Z -> result A) : result (list A) :=
  fromIndices f (seqZ 0 length).

(** [slice]: the entries of the new map. *)
Definition slice (this : SortedRangeMap) (range : ReadonlyRange)
  : result SortedRangeMap :=
  range ← assertRange range;
  let copy : SortedRangeMap := [] in
  indices ← indicesOf this range;
  match indices with
  | None => Ok copy
  | Some (firstIndex, lastIndex) =>
      entriesCopy ←
        arrayFrom (lastIndex - firstIndex + 1)
          (fun index => entry ← element this (firstIndex + index);
                        Ok (cloneEntry entry));
      let '(start, end_) := range in
      '((firstStart, firstEnd), firstValue) ← element entriesCopy 0;
      let entriesCopy :=
        store entriesCopy 0 ((Z.max start firstStart, firstEnd), firstValue) in
      '((lastStart, lastEnd), lastValue) ←
        (match at_ entriesCopy (-1) with
         | Some entry => Ok entry
         | None => Throw UndefinedEntry
         end);
      let entriesCopy :=
        store entriesCopy (size entriesCopy - 1)
          ((lastStart, Z.min end_ lastEnd), lastValue) in
      Ok entriesCopy
  end.

Definition has (this : SortedRangeMap) (key : Z) : result bool :=
  found ← indexOf this key;
  Ok (found >=? 0).

(** The [for] loop of [hasAll], from [index] on. *)
Fixpoint gapless (fuel : nat) (this : SortedRangeMap) (index lastIndex : Z)
  : result bool :=
  if index <=? lastIndex then
    match fuel with
    | O => Throw OutOfFuel
    | S fuel' =>
        '((_, previousEnd), _) ← element this (index - 1);
        '((currentStart, _), _) ← element this index;
        if negb (previousEnd + 1 =? currentStart) then Ok false
        else gapless fuel' this (index + 1) lastIndex
    end
  else Ok true.

Definition hasAll (this : SortedRangeMap) (range : ReadonlyRange)
  : result bool :=
  '(start, end_) ← assertRange range;
  firstIndex ← indexOf this start;
  if firstIndex <? 0 then Ok false
  else
    lastIndex ← (if start =? end_ then Ok firstIndex else indexOf this end_);
    if lastIndex <? 0 then Ok false
    else gapless (length this) this (firstIndex + 1) lastIndex.

Definition hasAny (this : SortedRangeMap) (range : ReadonlyRange)
  : result bool :=
  '(start, end_) ← assertRange range;
  firstIndex ← indexOf this start;
  if firstIndex >=? 0 then Ok true
  else
    lastIndex ← (if start =? end_ then Ok firstIndex else indexOf this end_);
    if lastIndex >=? 0 then Ok true
    else Ok (negb (firstIndex =? lastIndex)).

Definition at_ (this : SortedRangeMap) (index : Z) : option RangeEntry :=
  cloneEntry <$> Js.at_ this index.

Definition get (this : SortedRangeMap) (key : Z)
  : result (option RangeEntry) :=
  found ← indexOf this key;
  if found >=? 0 then
    entry ← element this found;
    Ok (Some (cloneEntry entry))
  else Ok None.

Definition entries (this : SortedRangeMap) : list RangeEntry :=
  cloneEntry <$> this.

Definition keys (this : SortedRangeMap) : list Z :=
  this ≫= (fun '((start, end_), _) => seqZ start (end_ - start + 1)).

Definition ranges (this : SortedRangeMap) : list Range :=
  (fun entry : RangeEntry => cloneRange entry.1) <$> this.

Definition values (this : SortedRangeMap) : list Value :=
  snd <$> this.

(* --------------------------------------------------------------------- *)
(** *** What the methods are specified against *)
(* --------------------------------------------------------------------- *)

Definition startOf (entry : RangeEntry) : Z := entry.1.1.
Definition endOf (entry : RangeEntry) : Z := entry.1.2.
Definition valueOf (entry : RangeEntry) : Value := entry.2.

(** The keys of an inclusive range. *)
Definition inRange (range : Range) (key : Z) : Prop :=
  range.1 <= key <= range.2.

(** One range is inside another. *)
Definition encloses (outer inner : Range) : Prop :=
  outer.1 <= inner.1 /\ inner.2 <= outer.2.

Definition covers (entry : RangeEntry) (key : Z) : Prop :=
  inRange entry.1 key.

(** The entry shares a key with the range. *)
Definition meets (range : Range) (entry : RangeEntry) : Prop :=
  range.1 <= endOf entry /\ startOf entry <= range.2.

(** The entry lies entirely below, or entirely above, a key. *)
Definition endsBefore (key : Z) (entry : RangeEntry) : Prop :=
  endOf entry < key.

Definition startsAfter (key : Z) (entry : RangeEntry) : Prop :=
  key < startOf entry.

#[global] Instance inRange_dec range key : Decision (inRange range key).
Proof. unfold inRange. apply _. Defined.

#[global] Instance covers_dec entry key : Decision (covers entry key).
Proof. unfold covers. apply _. Defined.

#[global] Instance meets_dec range entry : Decision (meets range entry).
Proof. unfold meets. apply _. Defined.

#[global] Instance endsBefore_dec key entry : Decision (endsBefore key entry).
Proof. unfold endsBefore. apply _. Defined.

#[global] Instance startsAfter_dec key entry : Decision (startsAfter key entry).
Proof. unfold startsAfter. apply _. Defined.

(** Two consecutive entries as the class allows them: apart, and not both
    touching and of values that [===] equates. *)
Definition apart (previous next : RangeEntry) : Prop :=
  endOf previous < startOf next /\
  ~ (endOf previous + 1 = startOf next /\
     strictEq (valueOf previous) (valueOf next) = true).

(** The class invariant: every range has [start <= end]; consecutive
    entries are disjoint, in increasing order, and minimal. *)
Definition invariant (this : SortedRangeMap) : Prop :=
  (forall entry, entry ∈ this -> startOf entry <= endOf entry) /\
  (forall (i : nat) previous next,
      this !! i = Some previous -> this !! S i = Some next ->
      apart previous next).

(** The same, by recursion on the list. *)
Fixpoint chained (this : SortedRangeMap) : Prop :=
  match this with
  | [] => True
  | previous :: rest =>
      startOf previous <= endOf previous /\
      match rest with
      | [] => True
      | next :: _ => apart previous next
      end /\
      chained rest
  end.

(** The entry that covers a key, as a scan from the left finds it. *)
Definition covering (this : SortedRangeMap) (key : Z) : option RangeEntry :=
  head (filter (fun entry => covers entry key) this).

(** The value a key is associated with. *)
Definition valueAt (this : SortedRangeMap) (key : Z) : option Value :=
  valueOf <$> covering this key.

Definition covered (this : SortedRangeMap) (key : Z) : Prop :=
  exists entry, entry ∈ this /\ covers entry key.

(** How many entries lie entirely below a key. *)
Definition below (this : SortedRangeMap) (key : Z) : Z :=
  size (filter (endsBefore key) this).

(** The answer of [indexOf] by counting: the number of entries below the
    key, complemented when no entry covers it. *)
Definition locate (this : SortedRangeMap) (key : Z) : Z :=
  if decide (filter (fun entry => covers entry key) this = [])
  then bitnot (below this key)
  else below this key.

(** What is left of an entry once the keys of a range are removed. *)
Definition minus (range : Range) (entry : RangeEntry) : list RangeEntry :=
  let '((start, end_), value) := entry in
  if decide (meets range entry) then
    (if decide (start < range.1) then [((start, range.1 - 1), value)] else [])
    ++ (if decide (range.2 < end_) then [((range.2 + 1, end_), value)] else [])
  else [entry].

(** What is left of an entry strictly below a key, and strictly above. *)
Definition keepBelow (key : Z) (entry : RangeEntry) : list RangeEntry :=
  let '((start, end_), value) := entry in
  if decide (end_ < key) then [entry]
  else if decide (start < key) then [((start, key - 1), value)]
  else [].

Definition keepAbove (key : Z) (entry : RangeEntry) : list RangeEntry :=
  let '((start, end_), value) := entry in
  if decide (key < start) then [entry]
  else if decide (key < end_) then [((key + 1, end_), value)]
  else [].

(** The test of [#maybeMergeWithPreviousEntry], and the entry it leaves. *)
Definition mergeable (previous next : RangeEntry) : bool :=
  (endOf previous + 1 =? startOf next)
  && strictEq (valueOf previous) (valueOf next).

Definition merged (previous next : RangeEntry) : RangeEntry :=
  ((startOf previous, endOf next), valueOf previous).

(** An entry and the entries after it, once the first of these has been
    merged into it where it can be. *)
Definition mergeNext (entry : RangeEntry) (after : list RangeEntry)
  : list RangeEntry :=
  match after with
  | next :: rest =>
      if mergeable entry next then merged entry next :: rest
      else entry :: after
  | [] => [entry]
  end.

(** The entries before, followed by others whose first is merged into the
    last of the entries before where it can be. *)
Definition mergePrevious (before from : list RangeEntry) : list RangeEntry :=
  match last before, from with
  | Some previous, entry :: rest =>
      if mergeable previous entry
      then take (length before - 1) before ++ merged previous entry :: rest
      else before ++ from
  | _, _ => before ++ from
  end.

(** The entries [set] leaves: the new entry between what the map holds
    below the range and what it holds above, merged with its neighbours. *)
Definition inserted (this : SortedRangeMap) (range : Range) (value : Value)
  : SortedRangeMap :=
  mergePrevious (this ≫= keepBelow range.1)
    (mergeNext (range, value) (this ≫= keepAbove range.2)).

(** Two associations of a key agree: they are the same, or both are values
    and [===] equates the first with the second. *)
Definition sameValue (new old : option Value) : Prop :=
  new = old \/
  exists v w, new = Some v /\ old = Some w /\ strictEq v w = true.

(** No key is missing between an entry and the next, all along. *)
Fixpoint contiguous (entries : list RangeEntry) : bool :=
  match entries with
  | previous :: rest =>
      match rest with
      | next :: _ => (endOf previous + 1 =? startOf next) && contiguous rest
      | [] => true
      end
  | [] => true
  end.

(** An entry lies strictly inside a range, short of both ends. *)
Definition strictlyInside (range : Range) (entry : RangeEntry) : Prop :=
  range.1 < startOf entry /\ endOf entry < range.2.

(** The part of an entry inside a range. *)
Definition clip (range : Range) (entry : RangeEntry) : RangeEntry :=
  let '((start, end_), value) := entry in
  ((Z.max range.1 start, Z.min range.2 end_), value).

(** The mutating operations of the class, and the state after each of a
    sequence of them.  A call that throws leaves the map as it was; the
    test suite replaces the map by its slice, and so does [Slice]. *)
Inductive operation : Type :=
  | Set_ (range : ReadonlyRange) (value : Value)
  | Delete (range : ReadonlyRange)
  | Clear
  | Slice (range : ReadonlyRange).

Definition perform (this : SortedRangeMap) (op : operation) : SortedRangeMap :=
  match op with
  | Set_ range value =>
      match set this range value with Ok this' => this' | Throw _ => this end
  | Delete range =>
      match delete this range with Ok (_, this') => this' | Throw _ => this end
  | Clear => clear this
  | Slice range =>
      match slice this range with Ok copy => copy | Throw _ => this end
  end.

Definition run (this : SortedRangeMap) (ops : list operation) : SortedRangeMap :=
  foldl perform this ops.

(** The map before the first operation and after each one. *)
Fixpoint states (this : SortedRangeMap) (ops : list operation)
  : list SortedRangeMap :=
  this :: match ops with
          | [] => []
          | op :: rest => states (perform this op) rest
          end.

End Methods.

Abbreviation RangeEntry Value := (Range * Value)%type.
Abbreviation ReadonlyEntry Value := (ReadonlyRange * Value)%type.
Abbreviation SortedRangeMap Value := (list (RangeEntry Value)).

End RangeMap.

(* ===================================================================== *)
(** ** SortedRangeSet *)
(* ===================================================================== *)

Module RangeSet.

(** The type [0] of [SortedRangeMap<0>]: its only value is the number
    [0], and [0 === 0] holds. *)
Inductive Zero : Type := zero.

Definition zeroEq (_ _ : Zero) : bool := true.

(** A [SortedRangeSet] holds one private field, [#map]. *)
Record SortedRangeSet : Type := { map : RangeMap.SortedRangeMap Zero }.

Definition add (this : SortedRangeSet) (range : ReadonlyRange)
  : result SortedRangeSet :=
  map' ← RangeMap.set zeroEq (map this) range zero;
  Ok {| map := map' |}.

(** The [for ... of ranges] loop of the constructor. *)
Fixpoint addEach (this : SortedRangeSet) (ranges : list ReadonlyRange)
  : result SortedRangeSet :=
  match ranges with
  | [] => Ok this
  | range :: rest => this ← add this range; addEach this rest
  end.

(** [new SortedRangeSet(ranges)]; [None] is [undefined] or [null]. *)
Definition constructor (ranges : option (list ReadonlyRange))
  : result SortedRangeSet :=
  map' ← RangeMap.constructor zeroEq None;
  match ranges with
  | None => Ok {| map := map' |}
  | Some ranges => addEach {| map := map' |} ranges
  end.

Definition delete (this : SortedRangeSet) (range : ReadonlyRange)
  : result (bool * SortedRangeSet) :=
  '(deleted, map') ← RangeMap.delete (map this) range;
  Ok (deleted, {| map := map' |}).

Definition clear (this : SortedRangeSet) : SortedRangeSet :=
  {| map := RangeMap.clear (map this) |}.

Definition slice (this : SortedRangeSet) (range : ReadonlyRange)
  : result SortedRangeSet :=
  copy ← constructor None;
  map' ← RangeMap.slice (map this) range;
  Ok {| map := map' |}.

Definition has (this : SortedRangeSet) (key : Z) : result bool :=
  RangeMap.has (map this) key.

Definition hasAll (this : SortedRangeSet) (range : ReadonlyRange)
  : result bool :=
  RangeMap.hasAll (map this) range.

Definition hasAny (this : SortedRangeSet) (range : ReadonlyRange)
  : result bool :=
  RangeMap.hasAny (map this) range.

(** [this.#map.at(index)?.[0]]. *)
Definition at_ (this : SortedRangeSet) (index : Z) : option Range :=
  fst <$> RangeMap.at_ (map this) index.

(** [this.#map.get(key)?.[0]]. *)
Definition get (this : SortedRangeSet) (key : Z) : result (option Range) :=
  RangeMap.get (map this) key
    ≫= fun entry : option (Range * Zero) => Ok (fst <$> entry).

Definition indexOf (this : SortedRangeSet) (key : Z) : result Z :=
  RangeMap.indexOf (map this) key.

Definition size (this : SortedRangeSet) : Z := Js.size (map this).

(** [[Symbol.iterator]()]. *)
Definition iterator (this : SortedRangeSet) : list Range :=
  RangeMap.ranges (map this).

Definition keys (this : SortedRangeSet) : list Z :=
  RangeMap.keys (map this).

(* --------------------------------------------------------------------- *)
(** *** What the set is specified against *)
(* --------------------------------------------------------------------- *)

(** A key lies in one of the ranges. *)
Definition contains (ranges : list Range) (key : Z) : Prop :=
  exists range, range ∈ ranges /\ RangeMap.inRange range key.

(** The class invariant on the ranges of the set: every range has
    [start <= end], and consecutive ranges are in increasing order and
    never adjacent. *)
Definition invariant (ranges : list Range) : Prop :=
  (forall range, range ∈ ranges -> range.1 <= range.2) /\
  (forall (i : nat) previous next,
      ranges !! i = Some previous -> ranges !! S i = Some next ->
      previous.2 + 1 < next.1).

(** The calls a client of either class can make, and what it observes of
    each: a returned value or a thrown error.  [slice] returns a new object;
    as in the test suite, the client goes on with it. *)
Inductive call : Type :=
  | Add (range : ReadonlyRange)
  | Delete (range : ReadonlyRange)
  | Clear
  | Slice (range : ReadonlyRange)
  | Has (key : Z)
  | HasAll (range : ReadonlyRange)
  | HasAny (range : ReadonlyRange)
  | At (index : Z)
  | Get (key : Z)
  | IndexOf (key : Z)
  | Size
  | Iterate
  | Keys.

Inductive observation : Type :=
  | This
  | Undefined
  | Copy
  | Boolean (b : bool)
  | Number (n : Z)
  | RangeOrUndefined (range : option Range)
  | Ranges (ranges : list Range)
  | Numbers (keys : list Z)
  | Thrown (e : error).

Definition observe {A} (wrap : A -> observation) (outcome : result A)
  : observation :=
  match outcome with
  | Ok a => wrap a
  | Throw e => Thrown e
  end.

(** One call on the set of the source. *)
Definition perform (this : SortedRangeSet) (c : call)
  : observation * SortedRangeSet :=
  match c with
  | Add range =>
      match add this range with
      | Ok this' => (This, this')
      | Throw e => (Thrown e, this)
      end
  | Delete range =>
      match delete this range with
      | Ok (deleted, this') => (Boolean deleted, this')
      | Throw e => (Thrown e, this)
      end
  | Clear => (Undefined, clear this)
  | Slice range =>
      match slice this range with
      | Ok copy => (Copy, copy)
      | Throw e => (Thrown e, this)
      end
  | Has key => (observe Boolean (has this key), this)
  | HasAll range => (observe Boolean (hasAll this range), this)
  | HasAny range => (observe Boolean (hasAny this range), this)
  | At index => (RangeOrUndefined (at_ this index), this)
  | Get key => (observe RangeOrUndefined (get this key), this)
  | IndexOf key => (observe Number (indexOf this key), this)
  | Size => (Number (size this), this)
  | Iterate => (Ranges (iterator this), this)
  | Keys => (Numbers (keys this), this)
  end.

(** The same call as the specification words it: made on a map whose
    values are all the placeholder, the value component stripped from what
    the map returns. *)
Definition strip (entry : RangeMap.RangeEntry Zero) : Range := entry.1.

Definition specified (delegate : RangeMap.SortedRangeMap Zero) (c : call)
  : observation * RangeMap.SortedRangeMap Zero :=
  match c with
  | Add range =>
      match RangeMap.set zeroEq delegate range zero with
      | Ok delegate' => (This, delegate')
      | Throw e => (Thrown e, delegate)
      end
  | Delete range =>
      match RangeMap.delete delegate range with
      | Ok (deleted, delegate') => (Boolean deleted, delegate')
      | Throw e => (Thrown e, delegate)
      end
  | Clear => (Undefined, RangeMap.clear delegate)
  | Slice range =>
      match RangeMap.slice delegate range with
      | Ok copy => (Copy, copy)
      | Throw e => (Thrown e, delegate)
      end
  | Has key => (observe Boolean (RangeMap.has delegate key), delegate)
  | HasAll range => (observe Boolean (RangeMap.hasAll delegate range), delegate)
  | HasAny range => (observe Boolean (RangeMap.hasAny delegate range), delegate)
  | At index => (RangeOrUndefined (strip <$> RangeMap.at_ delegate index), delegate)
  | Get key =>
      (observe RangeOrUndefined
         (RangeMap.get delegate key
            ≫= fun entry : option (Range * Zero) => Ok (strip <$> entry)),
       delegate)
  | IndexOf key => (observe Number (RangeMap.indexOf delegate key), delegate)
  | Size => (Number (Js.size delegate), delegate)
  | Iterate => (Ranges (strip <$> RangeMap.entries delegate), delegate)
  | Keys => (Numbers (RangeMap.keys delegate), delegate)
  end.

(** What a client observes of a sequence of calls. *)
Fixpoint trace {S} (step : S -> call -> observation * S) (state : S)
  (calls : list call) : list observation :=
  match calls with
  | [] => []
  | c :: rest =>
      let '(seen, state') := step state c in
      seen :: trace step state' rest
  end.

(** The set after a sequence of calls, and before the first call and
    after each one. *)
Definition run (this : SortedRangeSet) (calls : list call) : SortedRangeSet :=
  foldl (fun this c => (perform this c).2) this calls.

Fixpoint states (this : SortedRangeSet) (calls : list call)
  : list SortedRangeSet :=
  this :: match calls with
          | [] => []
          | c :: rest => states (perform this c).2 rest
          end.

End RangeSet.

(* ===================================================================== *)
(** ** Objects: instances and range arrays *)
(* ===================================================================== *)

(** A map of the model above is a value.  In the program it is an object,
    and a range is a two-element array that [#deleteFromSingleRange],
    [#maybeMergeWithPreviousEntry] and [slice] write in place.  Two things
    depend on which object is which: [set] returns the instance it was
    called on, and [slice] must not write to a range the original map
    still holds.  They are modelled here. *)
Module Store.
Section Objects.
Context {Value : Type}.
Variable strictEq : Value -> Value -> bool.

(** Instances of [SortedRangeMap], each with its entries; a reference is a
    position in the store. *)
Local Abbreviation instances := (list (RangeMap.SortedRangeMap Value)).

(** [this.set(range, value)]: the reference returned and the store
    afterwards. *)
Definition set (store : instances) (this : nat) (range : ReadonlyRange)
  (value : Value) : result (nat * instances) :=
  match store !! this with
  | None => Throw UndefinedEntry
  | Some entries =>
      entries ← RangeMap.set strictEq entries range value;
      Ok (this, <[this := entries]> store)
  end.

(** [this.slice(range)]: [new SortedRangeMap()] is a new instance. *)
Definition sliceInstance (store : instances) (this : nat)
  (range : ReadonlyRange) : result (nat * instances) :=
  match store !! this with
  | None => Throw UndefinedEntry
  | Some entries =>
      entriesCopy ← RangeMap.slice entries range;
      Ok (length store, store ++ [entriesCopy])
  end.

(** Range arrays: an address is a position in the heap, an entry of a map
    holds the address of its range. *)
Local Abbreviation heap := (list Range).
Local Abbreviation HeapEntry := (nat * Value)%type.

Definition read (h : heap) (address : nat) : result Range :=
  match h !! address with
  | Some range => Ok range
  | None => Throw UndefinedEntry
  end.

(** [array[0] = x] or [array[1] = x] on the range at an address. *)
Definition write (h : heap) (address : nat) (range : Range) : heap :=
  <[address := range]> h.

(** A new array literal [[start, end]]. *)
Definition allocate (h : heap) (range : Range) : nat * heap :=
  (length h, h ++ [range]).

(** The entries of a map as the program reads them through the heap. *)
Fixpoint resolve (h : heap) (entries : list HeapEntry)
  : result (RangeMap.SortedRangeMap Value) :=
  match entries with
  | [] => Ok []
  | (address, value) :: rest =>
      range ← read h address;
      resolved ← resolve h rest;
      Ok ((range, value) :: resolved)
  end.

(** An entry on the heap and the entry it reads as. *)
Definition pointsTo (h : heap) (entry : HeapEntry)
  (resolved : RangeMap.RangeEntry Value) : Prop :=
  h !! entry.1 = Some resolved.1 /\ entry.2 = resolved.2.

(** [cloneRange] and [cloneEntry]: the clone is a new array. *)
Definition cloneRange (h : heap) (address : nat) : result (nat * heap) :=
  '(start, end_) ← read h address;
  Ok (allocate h (start, end_)).

Definition cloneEntry (h : heap) (entry : HeapEntry)
  : result (HeapEntry * heap) :=
  let '(range, value) := entry in
  '(range', h) ← cloneRange h range;
  Ok ((range', value), h).

(** [Array.from({ length }, (_, index) =>
      cloneEntry(this.#entries[firstIndex + index]!))]. *)
Fixpoint copyEntries (h : heap) (this : list HeapEntry) (firstIndex : Z)
  (indices : list Z) : result (list HeapEntry * heap) :=
  match indices with
  | [] => Ok ([], h)
  | index :: rest =>
      entry ← element this (firstIndex + index);
      '(copy, h) ← cloneEntry h entry;
      '(copies, h) ← copyEntries h this firstIndex rest;
      Ok (copy :: copies, h)
  end.

(** [slice], with the writes to the ranges of the copy. *)
Definition slice (h : heap) (this : list HeapEntry) (range : ReadonlyRange)
  : result (list HeapEntry * heap) :=
  range ← assertRange range;
  entries ← resolve h this;
  indices ← RangeMap.indicesOf entries range;
  match indices with
  | None => Ok ([], h)
  | Some (firstIndex, lastIndex) =>
      '(entriesCopy, h) ←
        copyEntries h this firstIndex (seqZ 0 (lastIndex - firstIndex + 1));
      let '(start, end_) := range in
      '(firstRange, _) ← element entriesCopy 0;
      '(firstStart, firstEnd) ← read h firstRange;
      let h := write h firstRange (Z.max start firstStart, firstEnd) in
      '(lastRange, _) ←
        (match Js.at_ entriesCopy (-1) with
         | Some entry => Ok entry
         | None => Throw UndefinedEntry
         end);
      '(lastStart, lastEnd) ← read h lastRange;
      let h := write h lastRange (lastStart, Z.min end_ lastEnd) in
      Ok (entriesCopy, h)
  end.

(** [at]: [entry && cloneEntry(entry)]. *)
Definition at_ (h : heap) (this : list HeapEntry) (index : Z)
  : result (option HeapEntry * heap) :=
  match Js.at_ this index with
  | None => Ok (None, h)
  | Some entry => '(clone, h) ← cloneEntry h entry; Ok (Some clone, h)
  end.

(** [get]: [index >= 0 ? cloneEntry(this.#entries[index]!) : undefined]. *)
Definition get (h : heap) (this : list HeapEntry) (key : Z)
  : result (option HeapEntry * heap) :=
  entries ← resolve h this;
  found ← RangeMap.indexOf entries key;
  if found >=? 0 then
    entry ← element this found;
    '(clone, h) ← cloneEntry h entry;
    Ok (Some clone, h)
  else Ok (None, h).

(** [entries()], consumed to its end: every entry is yielded as a clone. *)
Fixpoint entries (h : heap) (this : list HeapEntry)
  : result (list HeapEntry * heap) :=
  match this with
  | [] => Ok ([], h)
  | entry :: rest =>
      '(clone, h) ← cloneEntry h entry;
      '(clones, h) ← entries h rest;
      Ok (clone :: clones, h)
  end.

End Objects.
End Store.

(* ===================================================================== *)
(** ** Method calls as runs on the receiver *)
(* ===================================================================== *)

(** The methods above return the entries a call leaves and return nothing
    of them when the call throws.  Here a method is run on the state of its
    receiver, statement by statement in the order of the source, and its
    outcome comes with the state the run has reached, also when it ends by
    a throw: what a client that catches the error finds in the object. *)
Module Stateful.

Definition method (S A : Type) : Type := S -> result A * S.

#[export] Instance method_ret {S} : MRet (method S) :=
  fun A a s => (Ok a, s).

#[export] Instance method_bind {S} : MBind (method S) :=
  fun A B f m s =>
    match m s with
    | (Ok a, s') => f a s'
    | (Throw e, s') => (Throw e, s')
    end.

(** The state as it is. *)
Definition read {S} : method S S := fun s => (Ok s, s).

(** An assignment to the state. *)
Definition write {S} (s' : S) : method S unit := fun _ => (Ok tt, s').

(** An update in place. *)
Definition modify {S} (f : S -> S) : method S unit := fun s => (Ok tt, f s).

(** A computation that reads and writes nothing of the state; it may
    throw. *)
Definition lift {S A} (r : result A) : method S A := fun s => (r, s).

(** The outcome of a run and the state it leaves. *)
Definition outcome {S A} (run : result A * S) : result A := run.1.
Definition stateAfter {S A} (run : result A * S) : S := run.2.

(* --------------------------------------------------------------------- *)
(** *** SortedRangeMap: the state is [this.#entries] *)
(* --------------------------------------------------------------------- *)

Section MapMethods.
Context {Value : Type}.
Variable strictEq : Value -> Value -> bool.

Local Abbreviation RangeEntry := (Range * Value)%type.
Local Abbreviation ReadonlyEntry := (ReadonlyRange * Value)%type.
Local Abbreviation entries := (list RangeEntry).

Definition size : method entries Z :=
  this ← read; mret (Js.size this).

(** [indexOf] and [#indicesOf] only read [this.#entries]. *)
Definition indexOf (key : Z) : method entries Z :=
  this ← read; lift (RangeMap.indexOf this key).

Definition indicesOf (range : Range) : method entries (option (Z * Z)) :=
  this ← read; lift (RangeMap.indicesOf this range).

(** [this.#entries[i]!], destructured. *)
Definition entryAt (i : Z) : method entries RangeEntry :=
  this ← read; lift (element this i).

(** [#deleteFromSingleRange]: [targetRange[0] = ...], [targetRange[1] = ...]
    and [this.#entries.splice(...)] are updates in place. *)
Definition deleteFromSingleRange (targetIndex : Z) (range : Range)
  : method entries unit :=
  let '(deleteStart, deleteEnd) := range in
  '((targetStart, targetEnd), value) ← entryAt targetIndex;
  if deleteStart <=? targetStart then
    if deleteEnd >=? targetEnd then
      modify (fun this => splice this targetIndex 1 [])
    else
      modify (fun this =>
                store this targetIndex ((deleteEnd + 1, targetEnd), value))
  else if deleteEnd >=? targetEnd then
    modify (fun this =>
              store this targetIndex ((targetStart, deleteStart - 1), value))
  else
    let rangeAfterDelete := (deleteEnd + 1, targetEnd) in
    modify (fun this =>
              store this targetIndex ((targetStart, deleteStart - 1), value));;
    modify (fun this =>
              splice this (targetIndex + 1) 0 [(rangeAfterDelete, value)]).

(** [#delete]. *)
Definition delete_ (range : Range) : method entries bool :=
  indices ← indicesOf range;
  match indices with
  | None => mret false
  | Some (firstIndex, lastIndex) =>
      deleteFromSingleRange lastIndex range;;
      let fullyContainedStartIndex := firstIndex + 1 in
      let deleteCount := lastIndex - fullyContainedStartIndex in
      modify (fun this => splice this fullyContainedStartIndex deleteCount []);;
      (if negb (firstIndex =? lastIndex)
       then deleteFromSingleRange firstIndex range
       else mret tt);;
      mret true
  end.

(** [delete]: [this.#delete(assertRange(range))]. *)
Definition delete (range : ReadonlyRange) : method entries bool :=
  range ← lift (assertRange range);
  delete_ range.

(** [#maybeMergeWithPreviousEntry]. *)
Definition maybeMergeWithPreviousEntry (index : Z) : method entries unit :=
  if index =? 0 then mret tt
  else
    '((start, end_), value) ← entryAt index;
    '((previousStart, previousEnd), previousValue) ← entryAt (index - 1);
    let isMergeable :=
      (previousEnd + 1 =? start) && strictEq previousValue value in
    if negb isMergeable then mret tt
    else
      modify (fun this => splice this index 1 []);;
      modify (fun this =>
                store this (index - 1) ((previousStart, end_), previousValue)).

(** [set]; the reference it returns is [this]. *)
Definition set (range : ReadonlyRange) (value : Value) : method entries unit :=
  range ← lift (assertRange range);
  delete_ range;;
  found ← indexOf range.1;
  let insertIndex := bitnot found in
  modify (fun this => splice this insertIndex 0 [(range, value)]);;
  let nextIndex := insertIndex + 1 in
  size ← size;
  (if nextIndex <? size
   then maybeMergeWithPreviousEntry nextIndex
   else mret tt);;
  maybeMergeWithPreviousEntry insertIndex.

(** The loop of the constructor, on the instance under construction. *)
Fixpoint setEach (given : list ReadonlyEntry) : method entries unit :=
  match given with
  | [] => mret tt
  | (range, value) :: rest => set range value;; setEach rest
  end.

(** [clear]: [this.#entries = []]. *)
Definition clear : method entries unit := write [].

(** What [slice] does once the range is accepted: it reads
    [this.#entries] and builds the entries of the copy. *)
Definition copyWithin (this : entries) (range : Range) : result entries :=
  indices ← RangeMap.indicesOf this range;
  match indices with
  | None => Ok []
  | Some (firstIndex, lastIndex) =>
      entriesCopy ←
        RangeMap.arrayFrom (lastIndex - firstIndex + 1)
          (fun index => entry ← element this (firstIndex + index);
                        Ok (RangeMap.cloneEntry entry));
      let '(start, end_) := range in
      '((firstStart, firstEnd), firstValue) ← element entriesCopy 0;
      let entriesCopy :=
        store entriesCopy 0 ((Z.max start firstStart, firstEnd), firstValue) in
      '((lastStart, lastEnd), lastValue) ←
        (match at_ entriesCopy (-1) with
         | Some entry => Ok entry
         | None => Throw UndefinedEntry
         end);
      let entriesCopy :=
        store entriesCopy (Js.size entriesCopy - 1)
          ((lastStart, Z.min end_ lastEnd), lastValue) in
      Ok entriesCopy
  end.

(** [slice]: the entries of the map it returns.  Nothing of [this] is
    written. *)
Definition slice (range : ReadonlyRange) : method entries entries :=
  range ← lift (assertRange range);
  this ← read;
  lift (copyWithin this range).

(** [hasAll] and [hasAny] read [this.#entries] and write nothing. *)
Definition hasAll (range : ReadonlyRange) : method entries bool :=
  this ← read; lift (RangeMap.hasAll this range).

Definition hasAny (range : ReadonlyRange) : method entries bool :=
  this ← read; lift (RangeMap.hasAny this range).

End MapMethods.

(* --------------------------------------------------------------------- *)
(** *** Instances *)
(* --------------------------------------------------------------------- *)

(** The objects of a class, each with its state; a reference is a position.
    [new] adds an object and never changes one that exists. *)
Section Instances.
Context {S : Type}.

(** [this.m(...)]: the method runs on the state of the object [this]
    refers to, and what it leaves is the state of that object. *)
Definition on {A} (this : nat) (m : method S A) : method (list S) A :=
  fun objects =>
    match objects !! this with
    | None => (Throw UndefinedEntry, objects)
    | Some state =>
        let '(result, state') := m state in
        (result, <[this := state']> objects)
    end.

(** A new object with the given state; the reference to it. *)
Definition allocate (state : S) : method (list S) nat :=
  fun objects => (Ok (length objects), objects ++ [state]).

End Instances.

Section MapInstances.
Context {Value : Type}.
Variable strictEq : Value -> Value -> bool.

Local Abbreviation instances := (list (list (Range * Value))).

(** [new SortedRangeMap(entries)]: [this.#entries = []], then the loop. *)
Definition newMap (given : option (list (ReadonlyRange * Value)))
  : method instances nat :=
  this ← allocate [];
  match given with
  | None => mret this
  | Some given => on this (setEach strictEq given);; mret this
  end.

(** [map.set(range, value)] returns [map]. *)
Definition setOn (this : nat) (range : ReadonlyRange) (value : Value)
  : method instances nat :=
  on this (set strictEq range value);; mret this.

Definition deleteOn (this : nat) (range : ReadonlyRange)
  : method instances bool :=
  on this (delete range).

(** [map.slice(range)]: the range is checked, then the copy is created,
    then the entries are read and copied, then [copy.#entries] is
    assigned (when no entry meets the range the source returns the copy as
    it was created, with no entry, which is what the assignment leaves). *)
Definition sliceOn (this : nat) (range : ReadonlyRange)
  : method instances nat :=
  range ← lift (assertRange range);
  copy ← newMap None;
  entriesCopy ← on this (entries ← read; lift (copyWithin entries range));
  on copy (write entriesCopy);;
  mret copy.

Definition hasAllOn (this : nat) (range : ReadonlyRange)
  : method instances bool :=
  on this (hasAll range).

Definition hasAnyOn (this : nat) (range : ReadonlyRange)
  : method instances bool :=
  on this (hasAny range).

End MapInstances.

(* --------------------------------------------------------------------- *)
(** *** SortedRangeSet: the state is the map [this.#map] owns *)
(* --------------------------------------------------------------------- *)

(** [this.#map.m(...)]: the set keeps its map to itself, so the state of
    the map is part of the state of the set. *)
Definition onMap {A} (m : method (list (Range * RangeSet.Zero)) A)
  : method RangeSet.SortedRangeSet A :=
  fun this =>
    let '(result, map') := m (RangeSet.map this) in
    (result, {| RangeSet.map := map' |}).

Definition add (range : ReadonlyRange) : method RangeSet.SortedRangeSet unit :=
  onMap (set RangeSet.zeroEq range RangeSet.zero).

Definition deleteRange (range : ReadonlyRange)
  : method RangeSet.SortedRangeSet bool :=
  onMap (delete range).

Definition sliceRange (range : ReadonlyRange)
  : method RangeSet.SortedRangeSet (list (Range * RangeSet.Zero)) :=
  onMap (slice range).

Definition hasAllRange (range : ReadonlyRange)
  : method RangeSet.SortedRangeSet bool :=
  onMap (hasAll range).

Definition hasAnyRange (range : ReadonlyRange)
  : method RangeSet.SortedRangeSet bool :=
  onMap (hasAny range).

Fixpoint addEach (given : list ReadonlyRange)
  : method RangeSet.SortedRangeSet unit :=
  match given with
  | [] => mret tt
  | range :: rest => add range;; addEach rest
  end.

(** [new SortedRangeSet(ranges)]: [this.#map = new SortedRangeMap()], then
    the loop. *)
Definition newSet (given : option (list ReadonlyRange))
  : method (list RangeSet.SortedRangeSet) nat :=
  this ← allocate {| RangeSet.map := [] |};
  match given with
  | None => mret this
  | Some given => on this (addEach given);; mret this
  end.

(** [set.add(range)] returns [set]. *)
Definition addOn (this : nat) (range : ReadonlyRange)
  : method (list RangeSet.SortedRangeSet) nat :=
  on this (add range);; mret this.

Definition deleteRangeOn (this : nat) (range : ReadonlyRange)
  : method (list RangeSet.SortedRangeSet) bool :=
  on this (deleteRange range).

(** [set.slice(range)]: the copy is created first, then
    [copy.#map = this.#map.slice(range)]. *)
Definition sliceRangeOn (this : nat) (range : ReadonlyRange)
  : method (list RangeSet.SortedRangeSet) nat :=
  copy ← newSet None;
  map' ← on this (sliceRange range);
  on copy (write {| RangeSet.map := map' |});;
  mret copy.

Definition hasAllRangeOn (this : nat) (range : ReadonlyRange)
  : method (list RangeSet.SortedRangeSet) bool :=
  on this (hasAllRange range).

Definition hasAnyRangeOn (this : nat) (range : ReadonlyRange)
  : method (list RangeSet.SortedRangeSet) bool :=
  on this (hasAnyRange range).

End Stateful.

(* ===================================================================== *)
(** ** Values that [===] equates without their being the same *)
(* ===================================================================== *)

(** The two zeros of the JavaScript numbers: [0 === -0] holds, and
    [Object.is(0, -0)] does not. *)
Module SignedZero.

Inductive zero : Type :=
  | PositiveZero
  | NegativeZero.

Definition strictEq (_ _ : zero) : bool := true.

End SignedZero.

(* ===================================================================== *)
(** ** The examples of the README *)
(* ===================================================================== *)

Module Readme.

Definition range (start end_ : Z) : ReadonlyRange := (ofZ start, ofZ end_).

(** [rangeMap] after its four calls of [set]. *)
Definition rangeMap : RangeMap.SortedRangeMap Z :=
  [((-4, -2), 8); ((1, 2), 42); ((3, 7), 3)].

(** [rangeSet] after its four calls of [add]. *)
Definition rangeSet : RangeSet.SortedRangeSet :=
  {| RangeSet.map := [((-4, -2), RangeSet.zero); ((1, 7), RangeSet.zero)] |}.

End Readme.



(** Unfolds the predicates on entries down to comparisons of integers. *)
Ltac entry_arith :=
  unfold RangeMap.merged in *;
  unfold RangeMap.covers, RangeMap.inRange, RangeMap.encloses, RangeMap.meets,
    RangeMap.endsBefore, RangeMap.startsAfter, RangeMap.startOf,
    RangeMap.endOf, RangeMap.valueOf in *;
  simpl in *; try lia.

(** Splits on every comparison of integers the goal branches on. *)
Ltac compare_cases :=
  repeat (match goal with
          | |- context [Z.ltb ?a ?b] => destruct (Z.ltb_spec a b)
          | |- context [Z.leb ?a ?b] => destruct (Z.leb_spec a b)
          | |- context [Z.eqb ?a ?b] => destruct (Z.eqb_spec a b)
          | |- context [Z.gtb ?a ?b] => destruct (Z.gtb_spec a b)
          | |- context [Z.geb ?a ?b] => destruct (Z.geb_spec a b)
          end; cbn [andb orb negb]).

(* ===================================================================== *)
(** ** Facts about arrays *)
(* ===================================================================== *)

Section ArrayFacts.
Context {A : Type}.
Implicit Types (l front back items : list A) (x y : A).

Lemma size_nil : size (@nil A) = 0.
Proof. reflexivity. Qed.

Lemma size_cons x l : size (x :: l) = size l + 1.
Proof. unfold size. simpl. lia. Qed.

Lemma size_app front back : size (front ++ back) = size front + size back.
Proof. unfold size. rewrite length_app. lia. Qed.

Lemma size_nonneg l : 0 <= size l.
Proof. unfold size. lia. Qed.

Lemma size_zero l : size l = 0 -> l = [].
Proof. unfold size. destruct l; simpl; [done | lia]. Qed.

Lemma index_Some l i x :
  index l i = Some x <-> 0 <= i /\ l !! Z.to_nat i = Some x.
Proof.
  unfold index. destruct (Z.ltb_spec i 0).
  - split; [done | intros [? _]; lia].
  - split; [intros; split; [lia | done] | by intros [_ ?]].
Qed.

Lemma index_bounds l i x : index l i = Some x -> 0 <= i < size l.
Proof.
  rewrite index_Some. intros [Hi Hl]. apply lookup_lt_Some in Hl.
  unfold size. lia.
Qed.

Lemma index_in_bounds l i : 0 <= i < size l -> is_Some (index l i).
Proof.
  intros Hi. unfold index. destruct (Z.ltb_spec i 0); [lia |].
  apply lookup_lt_is_Some. unfold size in Hi. lia.
Qed.

Lemma index_of_nat l (n : nat) : index l (Z.of_nat n) = l !! n.
Proof.
  unfold index. destruct (Z.ltb_spec (Z.of_nat n) 0); [lia |].
  by rewrite Nat2Z.id.
Qed.

Lemma index_middle front x back : index (front ++ x :: back) (size front) = Some x.
Proof. unfold size. rewrite index_of_nat. apply list_lookup_middle. done. Qed.

Lemma index_elem_of l i x : index l i = Some x -> x ∈ l.
Proof. rewrite index_Some. intros [_ H]. eapply list_elem_of_lookup_2, H. Qed.

Lemma element_Ok l i x : element l i = Ok x <-> index l i = Some x.
Proof. unfold element. destruct (index l i); split; congruence. Qed.

Lemma element_middle front x back :
  element (front ++ x :: back) (size front) = Ok x.
Proof. apply element_Ok, index_middle. Qed.

Lemma element_middle' l front x back i :
  l = front ++ x :: back -> i = size front -> element l i = Ok x.
Proof. intros -> ->. apply element_middle. Qed.

(** Splitting an array at a position it has. *)
Lemma index_split l i x :
  index l i = Some x ->
  exists front back, l = front ++ x :: back /\ size front = i.
Proof.
  rewrite index_Some. intros [Hi Hl].
  exists (take (Z.to_nat i) l), (drop (S (Z.to_nat i)) l). split.
  - by rewrite take_drop_middle.
  - unfold size. rewrite length_take. apply lookup_lt_Some in Hl. lia.
Qed.

(** [splice] replaces the middle of a three-part array. *)
Lemma splice_middle front gone back items i n :
  i = size front -> n = size gone ->
  splice (front ++ gone ++ back) i n items = front ++ items ++ back.
Proof.
  intros -> ->. unfold splice. cbv zeta.
  pose proof (size_nonneg front). pose proof (size_nonneg gone).
  pose proof (size_nonneg back).
  rewrite !size_app.
  destruct (Z.ltb_spec (size front) 0); [lia |].
  rewrite Z.min_l by lia. rewrite Z.max_l by lia. rewrite Z.min_l by lia.
  unfold size. rewrite Nat2Z.id, <- Nat2Z.inj_add, Nat2Z.id.
  rewrite take_app_length.
  rewrite drop_app_ge by lia.
  replace (length front + length gone - length front)%nat
    with (length gone) by lia.
  by rewrite drop_app_length.
Qed.

Lemma splice_insert front back items i :
  i = size front -> splice (front ++ back) i 0 items = front ++ items ++ back.
Proof. intros ->. by apply (splice_middle front [] back). Qed.

Lemma splice_after front x back items i :
  i = size front + 1 ->
  splice (front ++ x :: back) i 0 items = front ++ x :: items ++ back.
Proof.
  intros ->. rewrite (cons_middle x front back), app_assoc.
  rewrite (splice_insert (front ++ [x]) back items).
  - by rewrite <- app_assoc.
  - rewrite size_app, size_cons, size_nil. lia.
Qed.

Lemma splice_remove front x back i :
  i = size front -> splice (front ++ x :: back) i 1 [] = front ++ back.
Proof. intros ->. by apply (splice_middle front [x] back). Qed.

(** A [deleteCount] that is not positive deletes nothing. *)
Lemma splice_nothing l i n : n <= 0 -> splice l i n [] = l.
Proof.
  intros Hn. unfold splice. cbv zeta. rewrite (Z.max_r n 0) by lia.
  pose proof (size_nonneg l).
  set (s := if i <? 0 then _ else _).
  assert (0 <= s <= size l) as Hs.
  { subst s. destruct (Z.ltb_spec i 0); lia. }
  rewrite Z.min_l by lia. rewrite Z.add_0_r. apply take_drop.
Qed.

Lemma store_middle front x y back i :
  i = size front -> store (front ++ x :: back) i y = front ++ y :: back.
Proof.
  intros ->. unfold store. pose proof (size_nonneg front).
  destruct (Z.ltb_spec (size front) 0); [lia |].
  unfold size. rewrite Nat2Z.id.
  rewrite insert_app_r_alt by lia. by rewrite Nat.sub_diag.
Qed.

Lemma element_head x l : element (x :: l) 0 = Ok x.
Proof. done. Qed.

Lemma store_head x y l : store (x :: l) 0 y = y :: l.
Proof. done. Qed.

Lemma at_last front x : at_ (front ++ [x]) (-1) = Some x.
Proof.
  unfold at_. simpl. rewrite size_app, size_cons, size_nil.
  replace (size front + (0 + 1) + -1) with (size front) by lia.
  apply index_middle.
Qed.

End ArrayFacts.

Import RangeMap.



Section FilterFacts.
Context {A : Type} (P : A -> Prop) `{!forall x, Decision (P x)}.

Lemma filter_all (l : list A) : Forall P l -> filter P l = l.
Proof.
  induction 1 as [| x l Hx _ IH]; [done |].
  by rewrite filter_cons_True, IH.
Qed.

Lemma filter_none (l : list A) : Forall (fun x => ~ P x) l -> filter P l = [].
Proof.
  induction 1 as [| x l Hx _ IH]; [done |].
  by rewrite filter_cons_False.
Qed.

Lemma filter_nil_Forall (l : list A) : filter P l = [] -> Forall (fun x => ~ P x) l.
Proof.
  intros Hnil. apply Forall_forall. intros x Hin Hx.
  by apply (filter_nil_not_elem_of P l x).
Qed.

End FilterFacts.

(* ===================================================================== *)
(** ** The class invariant *)
(* ===================================================================== *)

Section InvariantFacts.
Context {Value : Type}.
Variable strictEq : Value -> Value -> bool.
Local Abbreviation entry := (RangeEntry Value).
Local Abbreviation entries := (list entry).
Implicit Types (this front back rest : entries) (a b x y : entry) (key : Z).

Lemma chained_cons a rest :
  chained strictEq (a :: rest) <->
  startOf a <= endOf a /\
  (forall b, head rest = Some b -> apart strictEq a b) /\
  chained strictEq rest.
Proof.
  destruct rest as [| b rest']; cbn [chained head].
  - split; [intros (? & _ & _) | intros (? & _ & _)]; split_and!; done.
  - split.
    + intros (? & ? & ?). split; [done |]. split; [by intros ? [= <-] | done].
    + intros (? & Hhead & ?). split; [done |]. split; [by apply Hhead | done].
Qed.

Lemma chained_tail a rest : chained strictEq (a :: rest) -> chained strictEq rest.
Proof. rewrite chained_cons. tauto. Qed.

Lemma chained_ordered this :
  chained strictEq this -> Forall (fun x => startOf x <= endOf x) this.
Proof.
  induction this as [| a rest IH]; [constructor |].
  rewrite chained_cons. intros (? & _ & ?). constructor; auto.
Qed.

(** Every later entry starts after an earlier one ends. *)
Lemma chained_above a rest :
  chained strictEq (a :: rest) -> Forall (fun b => endOf a < startOf b) rest.
Proof.
  revert a. induction rest as [| b rest IH]; intros a; [constructor |].
  rewrite chained_cons. intros (Ha & Hab & Hrest).
  destruct (Hab b eq_refl) as [Hlt _].
  constructor; [done |].
  pose proof Hrest as Hb. apply chained_cons in Hb as [Hb _].
  eapply Forall_impl; [apply (IH b Hrest) |]. simpl. intros; lia.
Qed.

Lemma chained_app front back :
  chained strictEq (front ++ back) <->
  chained strictEq front /\ chained strictEq back /\
  (forall a b, last front = Some a -> head back = Some b -> apart strictEq a b).
Proof.
  induction front as [| a front IH].
  - simpl. split; [intros ?; split_and!; done | tauto].
  - rewrite <- app_comm_cons, !chained_cons, IH. split.
    + intros (Ha & Hhead & Hfront & Hback & Hjoin). split_and!; try done.
      * intros b Hb. apply Hhead. destruct front; [done | exact Hb].
      * intros x b Hx Hb. destruct front as [| a' front'].
        -- simpl in Hx. injection Hx as <-. by apply Hhead.
        -- apply Hjoin; [| done]. by rewrite last_cons_cons in Hx.
    + intros ((Ha & Hhead & Hfront) & Hback & Hjoin). split_and!; try done.
      * intros b Hb. destruct front as [| a' front'].
        -- by apply Hjoin.
        -- by apply Hhead.
      * intros x b Hx Hb. apply Hjoin; [| done].
        destruct front; [done |]. by rewrite last_cons_cons.
Qed.

Lemma chained_app_l front back : chained strictEq (front ++ back) -> chained strictEq front.
Proof. rewrite chained_app. tauto. Qed.

Lemma chained_app_r front back : chained strictEq (front ++ back) -> chained strictEq back.
Proof. rewrite chained_app. tauto. Qed.

(** Every earlier entry ends before a later one starts. *)
Lemma chained_before front x back :
  chained strictEq (front ++ x :: back) ->
  Forall (fun a => endOf a < startOf x) front.
Proof.
  induction front as [| a front IH]; [constructor |].
  rewrite <- app_comm_cons. intros H. constructor.
  - apply chained_above in H. rewrite Forall_app, Forall_cons in H. tauto.
  - apply IH. by eapply chained_tail.
Qed.

Lemma chained_after front x back :
  chained strictEq (front ++ x :: back) ->
  Forall (fun b => endOf x < startOf b) back.
Proof. intros H. by apply chained_above, chained_app_r with front. Qed.

(** The invariant as the class documents it is the recursive one. *)
Lemma invariant_chained this : invariant strictEq this <-> chained strictEq this.
Proof.
  unfold invariant. induction this as [| a rest IH].
  - simpl. split; [done |]. intros _. split; [by intros ? ?%elem_of_nil | done].
  - rewrite chained_cons, <- IH. split.
    + intros [Hord Hadj]. split_and!.
      * apply Hord. left.
      * intros b Hb. apply (Hadj 0%nat); [done |]. simpl. by rewrite <- head_lookup.
      * intros x Hx. apply Hord. by right.
      * intros i p n Hp Hn. by apply (Hadj (S i)).
    + intros (Ha & Hhead & Hord & Hadj). split.
      * intros x [-> | Hx]%elem_of_cons; auto.
      * intros [| i] p n Hp Hn.
        -- simpl in Hp, Hn. injection Hp as <-. apply Hhead.
           by rewrite head_lookup.
        -- by apply (Hadj i).
Qed.

End InvariantFacts.



(* ===================================================================== *)
(** ** indexOf *)
(* ===================================================================== *)

Lemma ushr_half x : 0 <= x -> 0 <= ushr x 1 <= x.
Proof.
  intros Hx. unfold ushr. change (1 mod 32) with 1.
  rewrite Z.shiftr_div_pow2 by lia. change (2 ^ 1) with 2.
  pose proof (Z.mod_pos_bound x (2 ^ 32) ltac:(lia)).
  pose proof (Z.mod_le x (2 ^ 32) Hx ltac:(lia)).
  split; [apply Z.div_pos; lia |].
  apply Z.le_trans with (x mod 2 ^ 32); [| done].
  apply Z.div_le_upper_bound; lia.
Qed.

Lemma bitnot_spec x : bitnot x = - (x + 1).
Proof. unfold bitnot, Z.lnot. lia. Qed.

Lemma bitnot_involutive x : bitnot (bitnot x) = x.
Proof. rewrite !bitnot_spec. lia. Qed.

Section IndexOfFacts.
Context {Value : Type}.
Variable strictEq : Value -> Value -> bool.
Local Abbreviation entry := (RangeEntry Value).
Local Abbreviation entries := (list entry).
Implicit Types (this front back rest : entries) (a b x y : entry) (key : Z).

Lemma chained_index_ordered this i a :
  chained strictEq this -> index this i = Some a -> startOf a <= endOf a.
Proof.
  intros Hch Hi. apply chained_ordered in Hch.
  rewrite Forall_forall in Hch. by eapply Hch, index_elem_of.
Qed.

Lemma chained_index_lt this i j a b :
  chained strictEq this -> index this i = Some a -> index this j = Some b ->
  i < j -> endOf a < startOf b.
Proof.
  intros Hch Hi Hj Hlt.
  destruct (index_split _ _ _ Hi) as (front & back & -> & Hsize).
  apply chained_after in Hch. rewrite Forall_forall in Hch. apply Hch.
  apply index_Some in Hj as [Hj0 Hj].
  unfold size in Hsize.
  rewrite lookup_app_r in Hj by lia.
  destruct (Z.to_nat j - length front)%nat as [| n] eqn:Hn; [lia |].
  simpl in Hj. by eapply list_elem_of_lookup_2.
Qed.

(** The loop of [indexOf], with its invariant: everything before [low] is
    below the key and everything after [high] is above it. *)
Lemma search_spec this key (fuel : nat) : forall low high,
  chained strictEq this ->
  0 <= low -> high < size this -> low <= high + 1 ->
  high - low + 1 <= Z.of_nat fuel ->
  (forall j x, index this j = Some x -> j < low -> endOf x < key) ->
  (forall j x, index this j = Some x -> high < j -> key < startOf x) ->
  exists found,
    search fuel this key low high = Ok found /\
    ((exists x, index this found = Some x /\ covers x key) \/
     (exists i, found = bitnot i /\ 0 <= i <= size this /\
        (forall j x, index this j = Some x -> j < i -> endOf x < key) /\
        (forall j x, index this j = Some x -> i <= j -> key < startOf x))).
Proof.
  induction fuel as [| fuel IH]; intros low high Hch Hlow Hhigh Hle Hfuel Hbelow Habove.
  - assert (high = low - 1) as -> by lia.
    exists (bitnot low). cbn [search].
    destruct (Z.leb_spec low (low - 1)); [lia |].
    split; [done |]. right. exists low. split_and!; try done; try lia.
    intros j x Hj ?. apply (Habove j x Hj). lia.
  - cbn [search]. destruct (Z.leb_spec low high) as [Hlh | Hlh].
    + pose proof (ushr_half (high - low) ltac:(lia)) as Hhalf.
      set (middle := low + ushr (high - low) 1) in *.
      assert (low <= middle <= high) as Hmid by (subst middle; lia).
      destruct (index_in_bounds this middle ltac:(lia)) as [[[start end_] value] Hm].
      unfold element. rewrite Hm. cbn.
      destruct (Z.gtb_spec key end_) as [Hgt | Hngt].
      * apply IH; try done; try lia.
        intros j x Hj Hjlt. destruct (decide (j = middle)) as [-> | Hne].
        -- rewrite Hm in Hj. injection Hj as <-. unfold endOf. simpl. lia.
        -- destruct (decide (j < low)); [by eapply Hbelow |].
           pose proof (chained_index_lt this j middle x _ Hch Hj Hm ltac:(lia)) as Hlt.
           pose proof (chained_index_ordered this _ _ Hch Hm).
           unfold startOf, endOf in *. simpl in *. lia.
      * destruct (Z.ltb_spec key start) as [Hlt | Hnlt].
        -- apply IH; try done; try lia.
           intros j x Hj Hjgt. destruct (decide (j = middle)) as [-> | Hne].
           ++ rewrite Hm in Hj. injection Hj as <-. unfold startOf. simpl. lia.
           ++ destruct (decide (high < j)); [by eapply Habove |].
              pose proof (chained_index_lt this middle j _ x Hch Hm Hj ltac:(lia)) as Hlt'.
              pose proof (chained_index_ordered this _ _ Hch Hm).
              unfold startOf, endOf in *. simpl in *. lia.
        -- exists middle. split; [done |]. left.
           exists ((start, end_), value). split; [done |].
           unfold covers, inRange. simpl. lia.
    + exists (bitnot low). split; [done |]. right. exists low.
      split_and!; try done; try lia.
      intros j x Hj ?. apply (Habove j x Hj). lia.
Qed.

End IndexOfFacts.



Section LocateFacts.
Context {Value : Type}.
Variable strictEq : Value -> Value -> bool.
Local Abbreviation entry := (RangeEntry Value).
Local Abbreviation entries := (list entry).
Implicit Types (this front back rest : entries) (a b x y : entry) (key : Z).
Implicit Types (range : Range).

(** A sorted list of entries falls into three consecutive parts: the
    entries below a range, those that meet it and those above it. *)
Lemma partition this range :
  chained strictEq this -> range.1 <= range.2 ->
  this = filter (endsBefore range.1) this
         ++ filter (meets range) this
         ++ filter (startsAfter range.2) this.
Proof.
  intros Hch Hr. induction this as [| a rest IH]; [done |].
  pose proof (chained_above _ _ _ Hch) as Habove.
  apply chained_cons in Hch as (Ha & _ & Hrest).
  specialize (IH Hrest).
  unfold endsBefore, startsAfter in Habove.
  destruct (decide (endsBefore range.1 a)) as [Hlow | Hlow]; unfold endsBefore in Hlow.
  - rewrite (filter_cons_True (endsBefore _) a) by done.
    rewrite (filter_cons_False (meets range) a) by (unfold meets; lia).
    rewrite (filter_cons_False (startsAfter _) a) by (unfold startsAfter; lia).
    rewrite <- app_comm_cons. by f_equal.
  - rewrite (filter_cons_False (endsBefore _) a) by done.
    assert (filter (endsBefore range.1) rest = []) as Hnone.
    { apply filter_none. pose proof (chained_ordered _ _ Hrest) as Hord.
      rewrite Forall_forall in Hord. rewrite Forall_forall in Habove |- *.
      intros x Hx. specialize (Hord x Hx). specialize (Habove x Hx).
      unfold endsBefore. simpl in *. lia. }
    rewrite Hnone in IH |- *. simpl in IH |- *.
    destruct (decide (range.2 < startOf a)) as [Hhigh | Hhigh].
    + rewrite (filter_cons_False (meets range) a) by (unfold meets; lia).
      rewrite (filter_cons_True (startsAfter _) a) by done.
      assert (filter (meets range) rest = []) as Hmeet.
      { apply filter_none. rewrite Forall_forall in Habove |- *.
        intros x Hx. specialize (Habove x Hx). unfold meets, startsAfter in *.
        simpl in *. lia. }
      rewrite Hmeet in IH |- *. simpl in IH |- *. by f_equal.
    + rewrite (filter_cons_True (meets range) a) by (unfold meets; lia).
      rewrite (filter_cons_False (startsAfter _) a) by done.
      rewrite <- app_comm_cons. by f_equal.
Qed.

(** At most one entry covers a key. *)
Lemma covering_unique this key :
  chained strictEq this -> size (filter (fun x => covers x key) this) <= 1.
Proof.
  induction this as [| a rest IH]; intros Hch; [done |].
  pose proof (chained_above _ _ _ Hch) as Habove.
  destruct (decide (covers a key)) as [Hcov | Hcov].
  - rewrite filter_cons_True by done.
    rewrite filter_none; [done |].
    rewrite Forall_forall in Habove |- *. intros x Hx.
    specialize (Habove x Hx). entry_arith.
  - rewrite filter_cons_False by done. apply IH. by eapply chained_tail.
Qed.

Lemma meets_point key x : meets (key, key) x <-> covers x key.
Proof. unfold meets, covers, inRange, startOf, endOf. simpl. lia. Qed.

Lemma filter_meets_point this key :
  filter (meets (key, key)) this = filter (fun x => covers x key) this.
Proof. apply list_filter_iff. intros x. apply meets_point. Qed.

(** The number of entries below a key, from what is known of each
    position. *)
Lemma below_prefix this key i :
  0 <= i <= size this ->
  (forall j x, index this j = Some x -> j < i -> endsBefore key x) ->
  (forall j x, index this j = Some x -> i <= j -> ~ endsBefore key x) ->
  below this key = i.
Proof.
  intros Hi Hlow Hhigh. unfold below.
  rewrite <- (take_drop (Z.to_nat i) this) at 1.
  rewrite filter_app, filter_all, filter_none.
  - rewrite app_nil_r. unfold size in *. rewrite length_take. lia.
  - apply Forall_lookup. intros n x Hn. rewrite lookup_drop in Hn.
    apply (Hhigh (Z.of_nat (Z.to_nat i + n))); [| lia].
    by rewrite index_of_nat.
  - apply Forall_lookup. intros n x Hn. rewrite lookup_take in Hn.
    case_decide; [| done].
    apply (Hlow (Z.of_nat n)); [| lia]. by rewrite index_of_nat.
Qed.

(** [indexOf] never fails on a map of the class and computes [locate]. *)
Lemma indexOf_locate this key :
  chained strictEq this -> indexOf this key = Ok (locate this key).
Proof.
  intros Hch. unfold indexOf.
  pose proof (size_nonneg this) as Hsize.
  destruct (search_spec strictEq this key (length this) 0 (size this - 1))
    as (found & -> & Hfound); try done; try lia.
  { unfold size. lia. }
  { intros j x Hj ?. apply index_bounds in Hj. lia. }
  { intros j x Hj ?. apply index_bounds in Hj. lia. }
  f_equal. unfold locate.
  destruct Hfound as [(x & Hx & Hcov) | (i & -> & Hi & Hlow & Hhigh)].
  - rewrite decide_False.
    + symmetry. apply below_prefix.
      * apply index_bounds in Hx. lia.
      * intros j y Hj Hlt.
        pose proof (chained_index_lt _ _ _ _ _ _ Hch Hj Hx Hlt).
        entry_arith.
      * intros j y Hj Hle.
        destruct (decide (j = found)) as [-> | Hne].
        -- rewrite Hx in Hj. injection Hj as <-.
           entry_arith.
        -- pose proof (chained_index_lt _ _ _ _ _ _ Hch Hx Hj ltac:(lia)).
           pose proof (chained_index_ordered _ _ _ _ Hch Hj).
           entry_arith.
    + intros Hnil. apply filter_nil_Forall in Hnil.
      rewrite Forall_forall in Hnil.
      apply (Hnil x); [by eapply index_elem_of | done].
  - rewrite decide_True.
    + f_equal. symmetry. apply below_prefix; [done | by apply Hlow |].
      intros j y Hj Hle Hend. specialize (Hhigh j y Hj Hle).
      pose proof (chained_index_ordered _ _ _ _ Hch Hj). entry_arith.
    + apply filter_none. apply Forall_lookup. intros n x Hn.
      rewrite <- index_of_nat in Hn.
      destruct (decide (Z.of_nat n < i)).
      * specialize (Hlow _ _ Hn ltac:(lia)).
        entry_arith.
      * specialize (Hhigh _ _ Hn ltac:(lia)).
        entry_arith.
Qed.

Lemma locate_found this key :
  0 <= locate this key <-> filter (fun x => covers x key) this <> [].
Proof.
  unfold locate. pose proof (size_nonneg (filter (endsBefore key) this)).
  unfold below. case_decide; rewrite ?bitnot_spec; split; intros; try done; lia.
Qed.

Lemma locate_absent this key :
  locate this key < 0 <-> filter (fun x => covers x key) this = [].
Proof.
  unfold locate. pose proof (size_nonneg (filter (endsBefore key) this)).
  unfold below. case_decide; rewrite ?bitnot_spec; split; intros; try done; lia.
Qed.

End LocateFacts.



(* ===================================================================== *)
(** ** #indicesOf and #delete *)
(* ===================================================================== *)

Section DeleteFacts.
Context {Value : Type}.
Variable strictEq : Value -> Value -> bool.
Local Abbreviation entry := (RangeEntry Value).
Local Abbreviation entries := (list entry).
Implicit Types (this front back rest mid : entries) (a b x y : entry) (key : Z).
Implicit Types (range : Range).

(** Counting the entries that start at or before the end of a range in
    two ways. *)
Lemma count_upto this range :
  chained strictEq this -> range.1 <= range.2 ->
  below this range.2 + size (filter (fun x => covers x range.2) this)
  = below this range.1 + size (filter (meets range) this).
Proof.
  intros Hch Hr.
  pose proof (partition strictEq this range Hch Hr) as H1.
  pose proof (partition strictEq this (range.2, range.2) Hch ltac:(simpl; lia)) as H2.
  rewrite filter_meets_point in H2. simpl in H2.
  apply (f_equal size) in H1, H2. rewrite !size_app in H1, H2.
  unfold below. lia.
Qed.

Lemma covers_meets range x :
  range.1 <= range.2 -> covers x range.1 \/ covers x range.2 -> meets range x.
Proof. entry_arith. Qed.

Lemma filter_covers_meets this range key :
  range.1 <= range.2 -> key = range.1 \/ key = range.2 ->
  filter (meets range) this = [] -> filter (fun x => covers x key) this = [].
Proof.
  intros Hr Hkey Hnil. apply filter_none. apply filter_nil_Forall in Hnil.
  eapply Forall_impl; [exact Hnil |]. intros x Hx Hcov. apply Hx.
  apply covers_meets; [done |]. destruct Hkey as [-> | ->]; auto.
Qed.

(** [#indicesOf]: nothing when no entry meets the range, otherwise the
    positions of the first and of the last entry that meet it. *)
Lemma indicesOf_spec this range :
  chained strictEq this -> range.1 <= range.2 ->
  indicesOf this range =
    Ok (if decide (filter (meets range) this = []) then None
        else Some (below this range.1,
                   below this range.1 + size (filter (meets range) this) - 1)).
Proof.
  intros Hch Hr. destruct range as [start end_]. simpl in Hr.
  unfold indicesOf. rewrite !(indexOf_locate strictEq) by done. cbn.
  assert ((if start =? end_ then Ok (locate this start) else Ok (locate this end_))
          = Ok (locate this end_)) as ->.
  { by destruct (Z.eqb_spec start end_) as [-> | _]. }
  cbn.
  pose proof (count_upto this (start, end_) Hch Hr) as Hcount. simpl in Hcount.
  pose proof (covering_unique strictEq this end_ Hch) as Hone.
  pose proof (size_nonneg (filter (fun x => covers x end_) this)) as Hc0.
  pose proof (size_nonneg (filter (meets (start, end_)) this)) as Hm0.
  assert (0 <= below this start /\ 0 <= below this end_) as [Hb1 Hb2].
  { unfold below. split; apply size_nonneg. }
  pose proof (filter_covers_meets this (start, end_) start Hr (or_introl eq_refl)) as Hs.
  pose proof (filter_covers_meets this (start, end_) end_ Hr (or_intror eq_refl)) as He.
  unfold locate.
  destruct (decide (filter (meets (start, end_)) this = [])) as [Hnil | Hsome].
  - rewrite !decide_True by auto. rewrite Hnil, (He Hnil) in Hcount.
    rewrite size_nil in Hcount. unfold bitnot, Z.lnot.
    compare_cases; try done; lia.
  - assert (size (filter (meets (start, end_)) this) <> 0) as Hpos.
    { by intros ?%size_zero. }
    destruct (decide (filter (fun x => covers x end_) this = [])) as [He' | He'].
    + rewrite He', size_nil in Hcount.
      case_decide; unfold bitnot, Z.lnot; compare_cases; try lia;
        do 3 f_equal; lia.
    + assert (size (filter (fun x => covers x end_) this) <> 0)
        by (by intros ?%size_zero).
      case_decide; unfold bitnot, Z.lnot; compare_cases; try lia;
        do 3 f_equal; lia.
Qed.

(** What [minus] leaves of an entry that does not meet the range, and of
    one inside it. *)
Lemma minus_apart range x : ~ meets range x -> minus range x = [x].
Proof.
  destruct x as [[start end_] value]. intros Hx. unfold minus.
  by rewrite decide_False.
Qed.

Lemma minus_inside range x :
  range.1 <= startOf x -> endOf x <= range.2 -> startOf x <= endOf x ->
  minus range x = [].
Proof.
  destruct x as [[start end_] value]. intros H1 H2 H3. unfold minus.
  rewrite decide_True by entry_arith.
  rewrite !decide_False by entry_arith. done.
Qed.

Lemma bind_minus_apart range this :
  Forall (fun x => ~ meets range x) this -> this ≫= minus range = this.
Proof.
  induction 1 as [| x rest Hx _ IH]; [done |].
  by rewrite bind_cons, IH, minus_apart.
Qed.

Lemma bind_minus_inside range this :
  Forall (fun x => range.1 <= startOf x /\ endOf x <= range.2
                   /\ startOf x <= endOf x) this ->
  this ≫= minus range = [].
Proof.
  induction 1 as [| x rest (? & ? & ?) _ IH]; [done |].
  by rewrite bind_cons, IH, minus_inside.
Qed.

(** [#deleteFromSingleRange] on an entry that meets the range. *)
Lemma deleteFromSingleRange_spec this front x back range i :
  this = front ++ x :: back -> i = size front -> meets range x ->
  deleteFromSingleRange this i range = Ok (front ++ minus range x ++ back).
Proof.
  intros -> -> Hmeet. destruct range as [deleteStart deleteEnd].
  destruct x as [[targetStart targetEnd] value].
  unfold deleteFromSingleRange. rewrite element_middle. cbn.
  unfold minus. rewrite decide_True by done. cbn [fst snd].
  destruct (Z.leb_spec deleteStart targetStart);
    destruct (Z.geb_spec deleteEnd targetEnd);
    repeat case_decide; try lia; cbn [app]; f_equal.
  - by apply splice_remove.
  - by apply store_middle.
  - by apply store_middle.
  - rewrite (store_middle front _ _ back) by done.
    by rewrite splice_after.
Qed.

End DeleteFacts.



Section DeleteSpec.
Context {Value : Type}.
Variable strictEq : Value -> Value -> bool.
Local Abbreviation entry := (RangeEntry Value).
Local Abbreviation entries := (list entry).
Implicit Types (this front back rest mid : entries) (a b x y : entry) (key : Z).
Implicit Types (range : Range).

Lemma filter_Forall (P : entry -> Prop) `{!forall x, Decision (P x)} this :
  Forall P (filter P this).
Proof. apply Forall_forall. intros x Hx. by apply list_elem_of_filter in Hx as [? _]. Qed.

(** Removing the keys of a range entry by entry, on the three parts of the
    map. *)
Lemma bind_minus_parts this range :
  chained strictEq this -> range.1 <= range.2 ->
  this ≫= minus range =
    filter (endsBefore range.1) this
    ++ (filter (meets range) this ≫= minus range)
    ++ filter (startsAfter range.2) this.
Proof.
  intros Hch Hr.
  rewrite (partition strictEq this range Hch Hr) at 1.
  rewrite !bind_app. f_equal; [| f_equal].
  - apply bind_minus_apart. eapply Forall_impl; [apply filter_Forall |].
    intros x Hx. entry_arith.
  - apply bind_minus_apart. eapply Forall_impl; [apply filter_Forall |].
    intros x Hx. entry_arith.
Qed.

(** [#delete] removes the keys of the range from every entry, and tells
    whether an entry met the range. *)
Lemma delete__spec this range :
  chained strictEq this -> range.1 <= range.2 ->
  delete_ this range =
    Ok (bool_decide (filter (meets range) this <> []), this ≫= minus range).
Proof.
  intros Hch Hr. unfold delete_.
  rewrite (indicesOf_spec strictEq) by done. cbn.
  rewrite (bind_minus_parts this range Hch Hr).
  pose proof (partition strictEq this range Hch Hr) as Hpart.
  pose proof (filter_Forall (meets range) this) as Hmeets.
  unfold below.
  set (A := filter (endsBefore range.1) this) in *.
  set (M := filter (meets range) this) in *.
  set (B := filter (startsAfter range.2) this) in *.
  assert (chained strictEq M) as HchM.
  { rewrite Hpart in Hch. by apply chained_app_r, chained_app_l in Hch. }
  destruct (decide (M = [])) as [Hnil | Hsome].
  - rewrite bool_decide_eq_false_2 by auto. rewrite Hnil in Hpart |- *.
    cbn in Hpart |- *. by rewrite <- Hpart.
  - rewrite bool_decide_eq_true_2 by done.
    destruct (proj2 (last_is_Some M) Hsome) as [l Hl].
    apply last_Some in Hl as [M' HM]. rewrite HM in *. clear Hsome.
    apply Forall_app in Hmeets as [HmeetsM' Hmeetl].
    rewrite Forall_singleton in Hmeetl.
    rewrite (deleteFromSingleRange_spec this (A ++ M') l B range); cycle 1.
    { by rewrite Hpart, <- !app_assoc. }
    { rewrite !size_app, size_cons, size_nil. lia. }
    { done. }
    cbn. destruct M' as [| f mid].
    + rewrite splice_nothing by (rewrite !size_app, size_cons, !size_nil; lia).
      match goal with
      | |- context [Z.eqb ?a ?b] => destruct (Z.eqb_spec a b) as [_ | Hne]
      end; [| simpl in Hne; rewrite size_cons, size_nil in Hne; lia].
      cbn. by rewrite !app_nil_r.
    + apply Forall_cons in HmeetsM' as [Hmeetf _].
      replace ((A ++ f :: mid) ++ minus range l ++ B)
        with ((A ++ [f]) ++ mid ++ (minus range l ++ B))
        by (by rewrite <- !app_assoc).
      rewrite (splice_middle (A ++ [f]) mid); cycle 1.
      { rewrite size_app, size_cons, size_nil. lia. }
      { rewrite !size_app, !size_cons, size_nil. lia. }
      pose proof (size_nonneg mid).
      destruct (Z.eqb_spec (size A) (size A + size ((f :: mid) ++ [l]) - 1)) as [Heq | _].
      { rewrite !size_app, !size_cons, size_nil in Heq. lia. }
      cbn.
      rewrite (deleteFromSingleRange_spec _ A f (minus range l ++ B) range);
        [| by rewrite <- app_assoc | done | done].
      cbn. do 3 f_equal. rewrite bind_app, bind_singleton.
      rewrite (bind_minus_inside range mid); [by rewrite <- app_assoc |].
      pose proof (chained_above _ _ _ (chained_app_l _ _ _ HchM)) as Hafter.
      pose proof (chained_before _ (f :: mid) l [] HchM) as Hbefore.
      apply Forall_cons in Hbefore as [_ Hbefore].
      pose proof (chained_ordered _ _ (chained_tail _ _ _ (chained_app_l _ _ _ HchM))) as Hord.
      rewrite Forall_forall in Hafter, Hbefore, Hord |- *.
      intros x Hx. specialize (Hafter x Hx). specialize (Hbefore x Hx).
      specialize (Hord x Hx). entry_arith.
Qed.

End DeleteSpec.



(* ===================================================================== *)
(** ** The map below and above a range *)
(* ===================================================================== *)

Section HalvesFacts.
Context {Value : Type}.
Variable strictEq : Value -> Value -> bool.
Local Abbreviation entry := (RangeEntry Value).
Local Abbreviation entries := (list entry).
Implicit Types (this front back rest mid : entries) (a b x y : entry) (key : Z).
Implicit Types (range : Range).

Lemma keepBelow_none key this :
  Forall (fun x => key <= startOf x /\ startOf x <= endOf x) this ->
  this ≫= keepBelow key = [].
Proof.
  induction 1 as [| [[start end_] value] rest Hx _ IH]; [done |].
  rewrite bind_cons, IH. unfold keepBelow.
  rewrite !decide_False by entry_arith. done.
Qed.

Lemma keepAbove_all key this :
  Forall (startsAfter key) this -> this ≫= keepAbove key = this.
Proof.
  induction 1 as [| [[start end_] value] rest Hx _ IH]; [done |].
  rewrite bind_cons, IH. unfold keepAbove.
  rewrite decide_True by entry_arith. done.
Qed.

(** The entries after one that reaches a key all start above the key. *)
Lemma chained_rest_above a rest key :
  chained strictEq (a :: rest) -> key <= endOf a ->
  Forall (fun x => key <= startOf x /\ startOf x <= endOf x) rest
  /\ Forall (startsAfter key) rest.
Proof.
  intros Hch Ha. pose proof (chained_above _ _ _ Hch) as Habove.
  pose proof (chained_ordered _ _ (chained_tail _ _ _ Hch)) as Hord.
  rewrite !Forall_forall in *. split; intros x Hx;
    specialize (Habove x Hx); specialize (Hord x Hx); entry_arith.
Qed.

(** Removing a range leaves what is below it followed by what is above. *)
Lemma minus_halves this range :
  chained strictEq this -> range.1 <= range.2 ->
  this ≫= minus range
  = (this ≫= keepBelow range.1) ++ (this ≫= keepAbove range.2).
Proof.
  intros Hch Hr. induction this as [| a rest IH]; [done |].
  rewrite !bind_cons, IH by (by eapply chained_tail).
  pose proof Hch as Ha. apply chained_cons in Ha as [Ha _].
  destruct (decide (endOf a < range.1)) as [Hlow | Hlow].
  - destruct a as [[start end_] value]. unfold minus, keepBelow, keepAbove.
    rewrite (decide_False (P := meets _ _)) by entry_arith.
    rewrite (decide_True (P := end_ < _)) by entry_arith.
    rewrite !decide_False by entry_arith. by rewrite <- app_assoc.
  - destruct (chained_rest_above a rest range.1 Hch ltac:(lia)) as [Hnone _].
    rewrite (keepBelow_none _ rest Hnone), app_nil_r. cbn [app].
    rewrite app_assoc. f_equal.
    destruct a as [[start end_] value]. unfold minus, keepBelow, keepAbove.
    destruct (decide (range.2 < start)).
    + rewrite (decide_False (P := meets _ _)) by entry_arith.
      rewrite !decide_False by entry_arith. done.
    + rewrite (decide_True (P := meets _ _)) by entry_arith.
      rewrite (decide_False (P := end_ < _)) by entry_arith.
      cbn [fst snd]. repeat case_decide; entry_arith; done.
Qed.

Lemma keepBelow_endsBefore key this :
  Forall (endsBefore key) (this ≫= keepBelow key).
Proof.
  induction this as [| [[start end_] value] rest IH]; [constructor |].
  rewrite bind_cons. apply Forall_app. split; [| done].
  unfold keepBelow. repeat case_decide; repeat constructor; entry_arith.
Qed.

Lemma keepAbove_startsAfter key this :
  Forall (startsAfter key) (this ≫= keepAbove key).
Proof.
  induction this as [| [[start end_] value] rest IH]; [constructor |].
  rewrite bind_cons. apply Forall_app. split; [| done].
  unfold keepAbove. repeat case_decide; repeat constructor; entry_arith.
Qed.

(** The first entry kept below a key is the first entry of the map, up to
    its end. *)
Lemma keepBelow_head key this b' :
  chained strictEq this ->
  head (this ≫= keepBelow key) = Some b' ->
  exists b, head this = Some b /\ startOf b' = startOf b /\ valueOf b' = valueOf b.
Proof.
  destruct this as [| b rest]; [done |]. intros Hch. rewrite bind_cons.
  destruct (decide (endOf b < key)) as [Hlow | Hlow].
  - destruct b as [[start end_] value]. unfold keepBelow.
    rewrite decide_True by entry_arith. cbn. intros [= <-]. eauto.
  - destruct (chained_rest_above b rest key Hch ltac:(lia)) as [Hnone _].
    rewrite (keepBelow_none _ rest Hnone), app_nil_r.
    destruct b as [[start end_] value]. unfold keepBelow.
    rewrite decide_False by entry_arith.
    case_decide; [| done]. cbn. intros [= <-]. eauto.
Qed.

Lemma apart_shrink a b a' b' :
  apart strictEq a b ->
  endOf a' = endOf a -> valueOf a' = valueOf a ->
  startOf b' = startOf b -> valueOf b' = valueOf b ->
  apart strictEq a' b'.
Proof. unfold apart. intros H -> -> -> ->. done. Qed.

Lemma chained_keepBelow key this :
  chained strictEq this -> chained strictEq (this ≫= keepBelow key).
Proof.
  induction this as [| a rest IH]; [done |]. intros Hch.
  rewrite bind_cons.
  pose proof Hch as Hc. apply chained_cons in Hc as (Ha & Hhead & Hrest).
  destruct (decide (endOf a < key)) as [Hlow | Hlow].
  - destruct a as [[start end_] value]. unfold keepBelow.
    rewrite decide_True by entry_arith. cbn [app].
    apply chained_cons. split; [done |]. split; [| by apply IH].
    intros b' Hb'.
    destruct (keepBelow_head key rest b' Hrest Hb') as (b & Hb & Hs & Hv).
    eapply apart_shrink; [by apply Hhead | done..].
  - destruct (chained_rest_above a rest key Hch ltac:(lia)) as [Hnone _].
    rewrite (keepBelow_none _ rest Hnone), app_nil_r.
    destruct a as [[start end_] value]. unfold keepBelow.
    repeat case_decide; cbn; entry_arith; done.
Qed.

Lemma chained_keepAbove key this :
  chained strictEq this -> chained strictEq (this ≫= keepAbove key).
Proof.
  induction this as [| a rest IH]; [done |]. intros Hch.
  rewrite bind_cons.
  pose proof Hch as Hc. apply chained_cons in Hc as (Ha & Hhead & Hrest).
  destruct (decide (key < endOf a)) as [Hhigh | Hhigh].
  - destruct (chained_rest_above a rest (key + 1) Hch ltac:(lia)) as [_ Hall].
    rewrite (keepAbove_all key rest).
    2:{ eapply Forall_impl; [exact Hall |]. intros x. entry_arith. }
    destruct a as [[start end_] value]. unfold keepAbove.
    case_decide; [done |]. rewrite decide_True by entry_arith. cbn [app].
    apply chained_cons. split; [entry_arith |]. split; [| done].
    intros b Hb. eapply apart_shrink; [by apply Hhead | done..].
  - destruct a as [[start end_] value]. unfold keepAbove.
    rewrite !decide_False by entry_arith. by apply IH.
Qed.

(** Two sorted lists on either side of a non-empty range can be joined. *)
Lemma chained_join front back range :
  chained strictEq front -> chained strictEq back ->
  Forall (endsBefore range.1) front -> Forall (startsAfter range.2) back ->
  range.1 <= range.2 ->
  chained strictEq (front ++ back).
Proof.
  intros Hf Hb Hlow Hhigh Hr. apply chained_app. split; [done |]. split; [done |].
  intros a b Ha Hb'. rewrite Forall_forall in Hlow, Hhigh.
  specialize (Hlow a (last_Some_elem_of _ _ Ha)).
  specialize (Hhigh b (head_Some_elem_of _ _ Hb')).
  unfold apart. entry_arith.
Qed.

(** [#delete] keeps the class invariant. *)
Lemma chained_minus this range :
  chained strictEq this -> range.1 <= range.2 ->
  chained strictEq (this ≫= minus range).
Proof.
  intros Hch Hr. rewrite (minus_halves this range Hch Hr).
  apply (chained_join _ _ range);
    auto using chained_keepBelow, chained_keepAbove,
      keepBelow_endsBefore, keepAbove_startsAfter.
Qed.

End HalvesFacts.



(* ===================================================================== *)
(** ** set *)
(* ===================================================================== *)

Section SetSpec.
Context {Value : Type}.
Variable strictEq : Value -> Value -> bool.
Local Abbreviation entry := (RangeEntry Value).
Local Abbreviation entries := (list entry).
Implicit Types (this front back rest mid : entries) (a b x y : entry) (key : Z).
Implicit Types (range : Range) (value : Value).

Lemma maybeMerge_first this :
  maybeMergeWithPreviousEntry strictEq this 0 = Ok this.
Proof. done. Qed.

Lemma maybeMerge_spec front a x back i :
  i = size front + 1 ->
  maybeMergeWithPreviousEntry strictEq (front ++ a :: x :: back) i =
    Ok (if mergeable strictEq a x
        then front ++ merged a x :: back
        else front ++ a :: x :: back).
Proof.
  intros ->. pose proof (size_nonneg front).
  unfold maybeMergeWithPreviousEntry.
  destruct (Z.eqb_spec (size front + 1) 0); [lia |].
  rewrite (element_middle' (front ++ a :: x :: back) (front ++ [a]) x back
             (size front + 1));
    [| by rewrite <- app_assoc | rewrite size_app, size_cons, size_nil; lia].
  replace (size front + 1 - 1) with (size front) by lia.
  rewrite element_middle.
  destruct x as [[start end_] value], a as [[previousStart previousEnd] previousValue].
  cbn. unfold mergeable, merged. cbn.
  destruct ((previousEnd + 1 =? start) && strictEq previousValue value); [| done].
  cbn. f_equal.
  rewrite (cons_middle _ front), app_assoc.
  rewrite splice_remove by (rewrite size_app, size_cons, size_nil; lia).
  rewrite <- app_assoc. by apply store_middle.
Qed.

Lemma mergeNext_cons x back :
  exists m rest, mergeNext strictEq x back = m :: rest.
Proof.
  destruct back as [| b back']; cbn; [eauto |].
  destruct (mergeable strictEq x b); eauto.
Qed.

(** Where the new entry goes once the range has been deleted. *)
Lemma locate_between front back range :
  range.1 <= range.2 ->
  Forall (fun x => startOf x <= endOf x) back ->
  Forall (endsBefore range.1) front -> Forall (startsAfter range.2) back ->
  locate (front ++ back) range.1 = bitnot (size front).
Proof.
  intros Hr Hord Hlow Hhigh. unfold locate, below.
  rewrite !filter_app.
  rewrite (filter_all (endsBefore range.1) front) by done.
  rewrite (filter_none (endsBefore range.1) back).
  2:{ rewrite Forall_forall in Hord, Hhigh |- *. intros x Hx.
      specialize (Hord x Hx). specialize (Hhigh x Hx). entry_arith. }
  rewrite (filter_none _ front).
  2:{ eapply Forall_impl; [exact Hlow |]. intros [[??]?]. entry_arith. }
  rewrite (filter_none _ back).
  2:{ eapply Forall_impl; [exact Hhigh |]. intros [[??]?]. entry_arith. }
  rewrite decide_True by done. by rewrite app_nil_r.
Qed.

(** [set] computes [inserted]. *)
Lemma set_spec this raw range value :
  chained strictEq this -> assertRange raw = Ok range -> range.1 <= range.2 ->
  set strictEq this raw value = Ok (inserted strictEq this range value).
Proof.
  intros Hch Hraw Hr. unfold set, inserted. rewrite Hraw. cbn.
  rewrite (delete__spec strictEq) by done. cbn.
  rewrite (indexOf_locate strictEq) by (by apply chained_minus).
  rewrite (minus_halves strictEq this range Hch Hr).
  pose proof (keepBelow_endsBefore range.1 this) as Hlow.
  pose proof (keepAbove_startsAfter range.2 this) as Hhigh.
  set (L := this ≫= keepBelow range.1) in *.
  set (U := this ≫= keepAbove range.2) in *.
  rewrite (locate_between L U range);
    [| done | by apply (chained_ordered strictEq), chained_keepAbove | done..].
  cbn.
  rewrite bitnot_involutive.
  rewrite splice_insert by done.
  pose proof (size_nonneg L). pose proof (size_nonneg U).
  match goal with
  | |- ?next ≫= _ = _ =>
      assert (next = Ok (L ++ mergeNext strictEq (range, value) U)) as ->
  end.
  { rewrite !size_app, size_cons, size_nil. destruct U as [| b U'].
    - change (size (@nil entry)) with 0. compare_cases; [lia | done].
    - rewrite size_cons in *. pose proof (size_nonneg U').
      compare_cases; [| lia].
      cbn [app]. rewrite maybeMerge_spec by done. cbn [mergeNext].
      by destruct (mergeable strictEq (range, value) b). }
  cbn.
  destruct (mergeNext_cons (range, value) U) as (m & R & ->).
  unfold mergePrevious.
  destruct (last L) as [a |] eqn:Hlast.
  - apply last_Some in Hlast as [L' ->].
    rewrite <- app_assoc. cbn [app].
    rewrite maybeMerge_spec by (rewrite size_app, size_cons, size_nil; lia).
    rewrite length_app. cbn [length].
    replace (length L' + 1 - 1)%nat with (length L') by lia.
    rewrite take_app_length.
    by destruct (mergeable strictEq a m).
  - apply last_None in Hlast as ->. done.
Qed.

End SetSpec.



(* ===================================================================== *)
(** ** The association of a key *)
(* ===================================================================== *)

Section LookupFacts.
Context {Value : Type}.
Variable strictEq : Value -> Value -> bool.
Local Abbreviation entry := (RangeEntry Value).
Local Abbreviation entries := (list entry).
Implicit Types (this front back rest mid : entries) (a b x y : entry) (key : Z).
Implicit Types (range : Range) (value : Value).

Lemma covering_cons x rest key :
  covering (x :: rest) key =
    if decide (covers x key) then Some x else covering rest key.
Proof. unfold covering. rewrite filter_cons. by case_decide. Qed.

Lemma covering_app front back key :
  covering (front ++ back) key =
    match covering front key with
    | Some x => Some x
    | None => covering back key
    end.
Proof.
  unfold covering. rewrite filter_app.
  by destruct (filter (fun x => covers x key) front).
Qed.

Lemma covering_none this key :
  Forall (fun x => ~ covers x key) this -> covering this key = None.
Proof. intros H. unfold covering. by rewrite filter_none. Qed.

Lemma covering_Some this key x :
  covering this key = Some x -> x ∈ this /\ covers x key.
Proof.
  unfold covering. intros H. apply head_Some_elem_of in H.
  apply list_elem_of_filter in H. tauto.
Qed.

Lemma covering_None this key :
  covering this key = None <-> ~ covered this key.
Proof.
  unfold covering, covered. rewrite head_None. split.
  - intros Hnil (x & Hx & Hcov). apply filter_nil_Forall in Hnil.
    rewrite Forall_forall in Hnil. by apply (Hnil x).
  - intros Hnone. apply filter_none, Forall_forall. intros x Hx Hcov.
    apply Hnone. eauto.
Qed.

Lemma covering_is_Some this key :
  is_Some (covering this key) <-> covered this key.
Proof.
  split.
  - intros [x Hx]. apply covering_Some in Hx. exists x. tauto.
  - intros Hcov. apply not_eq_None_Some. rewrite covering_None. tauto.
Qed.

Lemma valueAt_cons x rest key :
  valueAt (x :: rest) key =
    if decide (covers x key) then Some (valueOf x) else valueAt rest key.
Proof. unfold valueAt. rewrite covering_cons. by case_decide. Qed.

Lemma valueAt_app front back key :
  valueAt (front ++ back) key =
    match valueAt front key with
    | Some v => Some v
    | None => valueAt back key
    end.
Proof. unfold valueAt. rewrite covering_app. by destruct (covering front key). Qed.

Lemma valueAt_none this key :
  Forall (fun x => ~ covers x key) this -> valueAt this key = None.
Proof. intros H. unfold valueAt. by rewrite covering_none. Qed.

(** In a sorted map the entry that covers a key is found past everything
    before it. *)
Lemma covering_middle front x back key :
  Forall (endsBefore (startOf x)) front -> covers x key ->
  covering (front ++ x :: back) key = Some x.
Proof.
  intros Hfront Hcov. rewrite covering_app, covering_none, covering_cons.
  - by rewrite decide_True.
  - eapply Forall_impl; [exact Hfront |]. intros a Ha. entry_arith.
Qed.

(** The keys of an entry less a range keep the value of the entry. *)
Lemma valueAt_minus_entry range x key :
  range.1 <= range.2 ->
  valueAt (minus range x) key =
    if decide (covers x key /\ ~ inRange range key) then Some (valueOf x)
    else None.
Proof.
  intros Hr. destruct x as [[start end_] value]. unfold minus.
  case_decide as Hmeet.
  - repeat case_decide; cbn [app]; rewrite ?valueAt_cons;
      repeat case_decide; try done; entry_arith.
  - rewrite valueAt_cons. repeat case_decide; try done; entry_arith.
Qed.

(** [#delete] removes the keys of the range and no other. *)
Lemma valueAt_minus range this key :
  range.1 <= range.2 ->
  valueAt (this ≫= minus range) key =
    if decide (inRange range key) then None else valueAt this key.
Proof.
  intros Hr. induction this as [| x rest IH].
  - by case_decide.
  - rewrite bind_cons, valueAt_app, valueAt_minus_entry, IH, valueAt_cons by done.
    repeat case_decide; try done; tauto.
Qed.

Lemma sameValue_refl (o : option Value) : sameValue strictEq o o.
Proof. by left. Qed.

Lemma sameValue_trans (o1 o2 o3 : option Value) :
  (forall u v w, strictEq u v = true -> strictEq v w = true -> strictEq u w = true) ->
  sameValue strictEq o1 o2 -> sameValue strictEq o2 o3 -> sameValue strictEq o1 o3.
Proof.
  intros Htrans [-> | (u & v & -> & -> & Huv)]; [done |].
  intros [<- | (v' & w & [= <-] & -> & Hvw)].
  - right. eauto.
  - right. exists u, w. eauto.
Qed.

(** Merging two adjacent entries changes no association, up to [===]. *)
Lemma valueAt_merged front a x back key :
  startOf a <= endOf a -> startOf x <= endOf x ->
  mergeable strictEq a x = true ->
  sameValue strictEq (valueAt (front ++ merged a x :: back) key)
    (valueAt (front ++ a :: x :: back) key).
Proof.
  intros Ha Hx Hm. unfold mergeable in Hm.
  apply andb_true_iff in Hm as [Hadj Heq]. apply Z.eqb_eq in Hadj.
  rewrite !valueAt_app. destruct (valueAt front key); [by left |].
  rewrite !valueAt_cons. destruct a as [[sa ea] va], x as [[sx ex] vx].
  unfold merged. repeat case_decide; try (by left); entry_arith.
  right. eauto.
Qed.

End LookupFacts.



(* ===================================================================== *)
(** ** What set leaves *)
(* ===================================================================== *)

Section InsertedFacts.
Context {Value : Type}.
Variable strictEq : Value -> Value -> bool.
Local Abbreviation entry := (RangeEntry Value).
Local Abbreviation entries := (list entry).
Implicit Types (this front back rest mid : entries) (a b x y m : entry) (key : Z).
Implicit Types (range : Range) (value : Value).

(** [===] is symmetric and transitive on every JavaScript value (it is not
    reflexive on [NaN], and does not tell [+0] from [-0]). *)
Hypothesis strictEq_sym :
  forall u v, strictEq u v = true -> strictEq v u = true.
Hypothesis strictEq_trans :
  forall u v w, strictEq u v = true -> strictEq v w = true -> strictEq u w = true.

Lemma mergeable_true a x :
  mergeable strictEq a x = true <->
  endOf a + 1 = startOf x /\ strictEq (valueOf a) (valueOf x) = true.
Proof. unfold mergeable. by rewrite andb_true_iff, Z.eqb_eq. Qed.

Lemma apart_unmergeable a x :
  endOf a < startOf x -> mergeable strictEq a x = false -> apart strictEq a x.
Proof.
  intros Hlt Hm. unfold apart. split; [done |].
  rewrite <- mergeable_true, Hm. done.
Qed.

(** The entry a merge leaves is apart from what followed the merged
    entry. *)
Lemma apart_merged a x c :
  mergeable strictEq a x = true -> apart strictEq x c ->
  apart strictEq (merged a x) c.
Proof.
  intros [Hadj Heq]%mergeable_true [Hlt Hmin].
  split; [entry_arith |]. intros [Hadj' Heq']. apply Hmin.
  split; [entry_arith |].
  unfold merged, valueOf in *. simpl in *. eauto.
Qed.

Lemma chained_mergeNext x back :
  startOf x <= endOf x ->
  chained strictEq back -> Forall (startsAfter (endOf x)) back ->
  chained strictEq (mergeNext strictEq x back).
Proof.
  intros Hx Hch Hhigh. destruct back as [| b rest]; cbn [mergeNext].
  - by apply chained_cons.
  - apply Forall_cons in Hhigh as [Hb _].
    pose proof Hch as Hc. apply chained_cons in Hc as (Hordb & Hhead & Hrest).
    destruct (mergeable strictEq x b) eqn:Hm.
    + apply chained_cons. split_and!; [| | done].
      * apply mergeable_true in Hm as [? _]. entry_arith.
      * intros c Hc. apply apart_merged; auto.
    + apply chained_cons. split_and!; [done | | done].
      intros ? [= <-]. by apply apart_unmergeable.
Qed.

Lemma chained_mergePrevious front m rest :
  chained strictEq front -> chained strictEq (m :: rest) ->
  Forall (endsBefore (startOf m)) front ->
  chained strictEq (mergePrevious strictEq front (m :: rest)).
Proof.
  intros Hfront Hrest Hlow. unfold mergePrevious.
  destruct (last front) as [a |] eqn:Hlast.
  - apply last_Some in Hlast as [front' ->].
    apply Forall_app in Hlow as [_ Ha]. rewrite Forall_singleton in Ha.
    pose proof Hrest as Hc. apply chained_cons in Hc as (Hm & Hhead & Hrest').
    pose proof Hfront as Hf. apply chained_app in Hf as (Hfront' & Hcha & Hjoin).
    apply chained_cons in Hcha as (Horda & _ & _).
    destruct (mergeable strictEq a m) eqn:Hmerge.
    + rewrite length_app. cbn [length].
      replace (length front' + 1 - 1)%nat with (length front') by lia.
      rewrite take_app_length.
      apply chained_app. split_and!; [done | |].
      * apply chained_cons. split_and!; [| | done].
        -- apply mergeable_true in Hmerge as [? _]. entry_arith.
        -- intros c Hc. apply apart_merged; auto.
      * intros p c Hp [= <-].
        eapply apart_shrink; [by apply (Hjoin p a) | done..].
    + apply chained_app. split_and!; [done | done |].
      intros p c Hp [= <-]. rewrite last_snoc in Hp. injection Hp as <-.
      by apply apart_unmergeable.
  - apply last_None in Hlast as ->. done.
Qed.

(** [set] keeps the class invariant. *)
Lemma chained_inserted this range value :
  chained strictEq this -> range.1 <= range.2 ->
  chained strictEq (inserted strictEq this range value).
Proof.
  intros Hch Hr. unfold inserted.
  pose proof (keepBelow_endsBefore range.1 this) as Hlow.
  pose proof (keepAbove_startsAfter range.2 this) as Hhigh.
  pose proof (chained_keepBelow strictEq range.1 this Hch) as HL.
  pose proof (chained_keepAbove strictEq range.2 this Hch) as HU.
  pose proof (chained_mergeNext (range, value) _ Hr HU Hhigh) as Hnext.
  set (L := this ≫= keepBelow range.1) in *.
  set (U := this ≫= keepAbove range.2) in *.
  assert (exists m rest, mergeNext strictEq (range, value) U = m :: rest
                         /\ startOf m = range.1) as (m & rest & Hm & Hstart).
  { destruct U as [| b U']; cbn [mergeNext]; [by eauto |].
    destruct (mergeable strictEq (range, value) b); eauto. }
  rewrite Hm in *. apply chained_mergePrevious; [done | done |].
  by rewrite Hstart.
Qed.

(** The shape of what [set] leaves: one entry that encloses the range,
    with a value that is the new one or that [===] equates with it,
    after entries that end before it starts. *)
Lemma inserted_shape this range value :
  chained strictEq this -> range.1 <= range.2 ->
  exists front m back,
    inserted strictEq this range value = front ++ m :: back /\
    Forall (endsBefore (startOf m)) front /\
    encloses m.1 range /\
    (valueOf m = value \/ strictEq (valueOf m) value = true).
Proof.
  intros Hch Hr. unfold inserted.
  pose proof (keepBelow_endsBefore range.1 this) as Hlow.
  pose proof (keepAbove_startsAfter range.2 this) as Hhigh.
  pose proof (chained_keepBelow strictEq range.1 this Hch) as HL.
  pose proof (chained_ordered _ _ (chained_keepAbove strictEq range.2 this Hch)) as HU.
  set (L := this ≫= keepBelow range.1) in *.
  set (U := this ≫= keepAbove range.2) in *.
  assert (exists m rest, mergeNext strictEq (range, value) U = m :: rest
                         /\ startOf m = range.1 /\ range.2 <= endOf m
                         /\ valueOf m = value)
    as (m & rest & -> & Hstart & Hend & Hvalue).
  { assert (forall back, exists m rest,
              (range, value) :: back = m :: rest /\ startOf m = range.1
              /\ range.2 <= endOf m /\ valueOf m = value) as Hsame.
    { intros back. exists (range, value), back. entry_arith. split_and!; (done || lia). }
    destruct U as [| b U']; cbn [mergeNext]; [done |].
    destruct (mergeable strictEq (range, value) b) eqn:Hm; [| done].
    apply mergeable_true in Hm as [Hadj _].
    apply Forall_cons in HU as [Hb _].
    eexists _, _. split; [done |]. entry_arith. split_and!; (done || lia). }
  unfold mergePrevious.
  destruct (last L) as [a |] eqn:Hlast.
  - apply last_Some in Hlast as [L' HL'].
    destruct (mergeable strictEq a m) eqn:Hmerge.
    + rewrite HL' in *. rewrite length_app. cbn [length].
      replace (length L' + 1 - 1)%nat with (length L') by lia.
      rewrite take_app_length.
      exists L', (merged a m), rest. split; [done |].
      apply mergeable_true in Hmerge as [Hadj Heq].
      pose proof (chained_before _ _ _ _ HL) as Hbefore.
      apply chained_app_r, chained_cons in HL as [Horda _].
      split_and!; [done | entry_arith | right; entry_arith; congruence].
    + exists L, m, rest. rewrite Hstart. split_and!; [done | done | | by left].
      entry_arith.
  - exists L, m, rest. rewrite Hstart. split_and!; [done | done | | by left].
    entry_arith.
Qed.

(** After [set], every key of the range is covered by one entry that
    encloses the range and holds the value. *)
Lemma covering_inserted this range value key :
  chained strictEq this -> range.1 <= range.2 -> inRange range key ->
  exists m,
    covering (inserted strictEq this range value) key = Some m /\
    encloses m.1 range /\
    (valueOf m = value \/ strictEq (valueOf m) value = true).
Proof.
  intros Hch Hr Hkey.
  destruct (inserted_shape this range value Hch Hr)
    as (front & m & back & -> & Hfront & Henc & Hval).
  exists m. split_and!; [| done | done].
  apply covering_middle; [done |]. entry_arith.
Qed.

(** After [set], a key outside the range is associated as before. *)
Lemma valueAt_inserted this range value key :
  chained strictEq this -> range.1 <= range.2 -> ~ inRange range key ->
  sameValue strictEq (valueAt (inserted strictEq this range value) key)
    (valueAt this key).
Proof.
  intros Hch Hr Hkey. unfold inserted.
  pose proof (minus_halves strictEq this range Hch Hr) as Hhalves.
  pose proof (valueAt_minus range this key Hr) as Hminus.
  rewrite decide_False in Hminus by done. rewrite <- Hminus, Hhalves.
  pose proof (chained_ordered _ _ (chained_keepBelow strictEq range.1 this Hch)) as HL.
  pose proof (chained_ordered _ _ (chained_keepAbove strictEq range.2 this Hch)) as HU.
  set (L := this ≫= keepBelow range.1) in *.
  set (U := this ≫= keepAbove range.2) in *.
  apply sameValue_trans with (valueAt (L ++ mergeNext strictEq (range, value) U) key);
    [done | |].
  - destruct (mergeNext_cons strictEq (range, value) U) as (m & rest & Hm).
    assert (startOf m <= endOf m) as Hordm.
    { destruct U as [| b U']; cbn [mergeNext] in Hm; [injection Hm as <- <-; done |].
      apply Forall_cons in HU as [Hb _].
      destruct (mergeable strictEq (range, value) b) eqn:Hmerge;
        injection Hm as <- <-; [| done].
      apply mergeable_true in Hmerge as [? _]. entry_arith. }
    rewrite Hm. unfold mergePrevious.
    destruct (last L) as [a |] eqn:Hlast; [| by left].
    apply last_Some in Hlast as [L' ->].
    destruct (mergeable strictEq a m) eqn:Hmerge; [| by left].
    rewrite length_app. cbn [length].
    replace (length L' + 1 - 1)%nat with (length L') by lia.
    rewrite take_app_length, <- (app_assoc L' [a]). cbn [app].
    apply valueAt_merged; [| done | done].
    apply Forall_app in HL as [_ Ha]. by rewrite Forall_singleton in Ha.
  - apply sameValue_trans with (valueAt (L ++ (range, value) :: U) key); [done | |].
    + destruct U as [| b U']; cbn [mergeNext]; [by left |].
      destruct (mergeable strictEq (range, value) b) eqn:Hmerge; [| by left].
      apply valueAt_merged; [done | | done].
      by apply Forall_cons in HU as [Hb _].
    + left. rewrite !valueAt_app, valueAt_cons.
      by rewrite (decide_False (P := covers _ _)) by entry_arith.
Qed.

End InsertedFacts.



(* ===================================================================== *)
(** ** get and slice *)
(* ===================================================================== *)

Section SliceFacts.
Context {Value : Type}.
Variable strictEq : Value -> Value -> bool.
Local Abbreviation entry := (RangeEntry Value).
Local Abbreviation entries := (list entry).
Implicit Types (this front back rest mid : entries) (a b x y m : entry) (key : Z).
Implicit Types (range : Range) (value : Value).

Lemma cloneEntry_id x : cloneEntry x = x.
Proof. by destruct x as [[start end_] value]. Qed.

(** The entry at the position [indexOf] returns is the covering one. *)
Lemma index_locate this key :
  chained strictEq this -> 0 <= locate this key ->
  index this (locate this key) = covering this key.
Proof.
  intros Hch Hfound. apply locate_found in Hfound.
  pose proof (partition strictEq this (key, key) Hch ltac:(simpl; lia)) as Hpart.
  rewrite filter_meets_point in Hpart. simpl in Hpart.
  unfold locate, covering, below. rewrite decide_False by done.
  destruct (filter (fun x => covers x key) this) as [| x rest] eqn:Hc; [done |].
  rewrite Hpart at 1. cbn [app head]. apply index_middle.
Qed.

Lemma get_spec this key :
  chained strictEq this -> get this key = Ok (covering this key).
Proof.
  intros Hch. unfold get. rewrite (indexOf_locate strictEq) by done. cbn.
  destruct (Z.geb_spec (locate this key) 0) as [Hfound | Habsent].
  - pose proof (index_locate this key Hch Hfound) as Hindex.
    unfold element. rewrite Hindex.
    destruct (covering this key) as [x |] eqn:Hx.
    + cbn. by rewrite cloneEntry_id.
    + apply locate_found in Hfound. unfold covering in Hx.
      by apply head_None in Hx.
  - apply locate_absent in Habsent. unfold covering. by rewrite Habsent.
Qed.

(** [Array.from] over a run of consecutive entries copies the run. *)
Lemma fromIndices_copy this mid : forall front back first j,
  this = front ++ mid ++ back -> first + j = size front ->
  fromIndices (fun index => entry ← element this (first + index);
                            Ok (cloneEntry entry))
    (seqZ j (size mid)) = Ok mid.
Proof.
  induction mid as [| x mid IH]; intros front back first j Hthis Hj.
  - done.
  - pose proof (size_nonneg mid). rewrite size_cons.
    rewrite seqZ_cons by lia. cbn [fromIndices].
    rewrite (element_middle' this front x (mid ++ back)) by done.
    cbn. rewrite cloneEntry_id.
    replace (Z.pred (size mid + 1)) with (size mid) by lia.
    rewrite (IH (front ++ [x]) back first (Z.succ j)).
    + done.
    + by rewrite Hthis, <- app_assoc.
    + rewrite size_app, size_cons, size_nil. lia.
Qed.

(** Entries inside a range are their own clip. *)
Lemma clip_inside range x :
  range.1 <= startOf x -> endOf x <= range.2 -> clip range x = x.
Proof.
  destruct x as [[start end_] value]. intros H1 H2. unfold clip.
  entry_arith. by rewrite Z.max_r, Z.min_r by lia.
Qed.

Lemma fmap_clip_inside range mid :
  Forall (fun x => range.1 <= startOf x /\ endOf x <= range.2) mid ->
  clip range <$> mid = mid.
Proof.
  induction 1 as [| x mid [??] _ IH]; [done |].
  by rewrite fmap_cons, IH, clip_inside.
Qed.

(** [slice] clips the entries that meet the range. *)
Lemma slice_spec this raw range :
  chained strictEq this -> assertRange raw = Ok range -> range.1 <= range.2 ->
  slice this raw = Ok (clip range <$> filter (meets range) this).
Proof.
  intros Hch Hraw Hr. unfold slice. rewrite Hraw. cbn.
  rewrite (indicesOf_spec strictEq) by done. cbn.
  pose proof (partition strictEq this range Hch Hr) as Hpart.
  pose proof (filter_Forall (meets range) this) as Hmeets.
  unfold below.
  set (A := filter (endsBefore range.1) this) in *.
  set (M := filter (meets range) this) in *.
  set (B := filter (startsAfter range.2) this) in *.
  assert (chained strictEq M) as HchM.
  { rewrite Hpart in Hch. by apply chained_app_r, chained_app_l in Hch. }
  destruct (decide (M = [])) as [-> | Hsome]; [done |].
  replace (size A + size M - 1 - size A + 1) with (size M) by lia.
  unfold arrayFrom.
  rewrite (fromIndices_copy this M A B (size A) 0) by (done || lia).
  cbn [mbind result_bind]. destruct range as [start end_]. cbn [fst snd] in *.
  destruct M as [| f rest]; [done |]. clear Hsome.
  destruct f as [[firstStart firstEnd] firstValue].
  rewrite element_head. cbn [mbind result_bind].
  change (Z.to_nat 0) with 0%nat. simpl (<[0%nat:=_]> _).
  destruct (proj2 (last_is_Some (((Z.max start firstStart, firstEnd), firstValue) :: rest))
              ltac:(done)) as [l Hl].
  apply last_Some in Hl as [pre Hpre].
  rewrite Hpre, at_last. cbn [mbind result_bind].
  destruct l as [[lastStart lastEnd] lastValue]. cbn.
  rewrite size_app, size_cons, size_nil.
  replace (size pre + (0 + 1) - 1) with (size pre) by lia.
  rewrite store_middle by done. f_equal.
  apply Forall_cons in Hmeets as [Hmeetf Hmeetrest].
  pose proof (chained_above _ _ _ HchM) as Hafter.
  destruct pre as [| f' mid].
  - injection Hpre as ? ? ? ?. subst lastStart lastEnd lastValue rest. cbn. done.
  - injection Hpre as ? ?. subst f' rest.
    apply Forall_app in Hafter as [Hmid Hl]. rewrite Forall_singleton in Hl.
    apply Forall_app in Hmeetrest as [_ Hml]. rewrite Forall_singleton in Hml.
    pose proof (chained_before _ (((firstStart, firstEnd), firstValue) :: mid)
                  ((lastStart, lastEnd), lastValue) [] HchM) as Hbefore.
    apply Forall_cons in Hbefore as [_ Hbefore].
    pose proof (chained_ordered _ _
                  (chained_tail _ _ _
                     (chained_app_l _ (((firstStart, firstEnd), firstValue) :: mid)
                        [((lastStart, lastEnd), lastValue)] HchM)))
      as Hord.
    rewrite fmap_app, fmap_clip_inside.
    + cbn. entry_arith. do 3 f_equal; [lia |]. do 4 f_equal. lia.
    + rewrite Forall_forall in Hmid, Hbefore, Hord |- *. intros x Hx.
      specialize (Hmid x Hx). specialize (Hbefore x Hx). specialize (Hord x Hx).
      entry_arith.
Qed.

(** The slice holds the keys of the range, associated as in the map. *)
Lemma valueAt_clip range this key :
  valueAt (clip range <$> this) key =
    if decide (inRange range key) then valueAt this key else None.
Proof.
  induction this as [| [[start end_] value] rest IH].
  - by case_decide.
  - rewrite fmap_cons, !valueAt_cons, IH. unfold clip.
    repeat case_decide; try done; entry_arith.
Qed.

Lemma valueAt_filter_meets range this key :
  inRange range key -> valueAt (filter (meets range) this) key = valueAt this key.
Proof.
  intros Hkey. induction this as [| x rest IH]; [done |].
  rewrite filter_cons, valueAt_cons.
  case_decide as Hmeet.
  - by rewrite valueAt_cons, IH.
  - rewrite IH. rewrite decide_False; [done |]. entry_arith.
Qed.

End SliceFacts.



(* ===================================================================== *)
(** ** hasAny and hasAll *)
(* ===================================================================== *)

Section HasFacts.
Context {Value : Type}.
Variable strictEq : Value -> Value -> bool.
Local Abbreviation entry := (RangeEntry Value).
Local Abbreviation entries := (list entry).
Implicit Types (this front back rest mid : entries) (a b x y m : entry) (key : Z).
Implicit Types (range : Range) (value : Value).

Lemma covered_filter this key :
  covered this key <-> filter (fun x => covers x key) this <> [].
Proof.
  rewrite <- covering_is_Some. unfold covering. by rewrite head_is_Some.
Qed.

(** The entries that meet a range are those that cover one of its keys. *)
Lemma meets_covered this range :
  chained strictEq this -> range.1 <= range.2 ->
  filter (meets range) this <> [] <->
  exists key, inRange range key /\ covered this key.
Proof.
  intros Hch Hr. split.
  - intros Hsome. destruct (filter (meets range) this) as [| x rest] eqn:HM; [done |].
    assert (x ∈ filter (meets range) this) as Hx by (rewrite HM; left).
    apply list_elem_of_filter in Hx as [Hmeet Hin].
    pose proof (chained_ordered _ _ Hch) as Hord. rewrite Forall_forall in Hord.
    specialize (Hord x Hin).
    exists (Z.max range.1 (startOf x)). split; [entry_arith |].
    exists x. split; [done |]. entry_arith.
  - intros (key & Hkey & x & Hin & Hcov) Hnil.
    apply filter_nil_Forall in Hnil. rewrite Forall_forall in Hnil.
    apply (Hnil x Hin). entry_arith.
Qed.

Lemma hasAny_spec this raw range :
  chained strictEq this -> assertRange raw = Ok range -> range.1 <= range.2 ->
  hasAny this raw = Ok (bool_decide (filter (meets range) this <> [])).
Proof.
  intros Hch Hraw Hr. unfold hasAny. rewrite Hraw. cbn.
  destruct range as [start end_]. cbn [fst snd] in *.
  rewrite !(indexOf_locate strictEq) by done. cbn [mbind result_bind].
  pose proof (count_upto strictEq this (start, end_) Hch Hr) as Hcount.
  cbn [fst snd] in Hcount.
  pose proof (filter_covers_meets this (start, end_) start Hr (or_introl eq_refl)) as Hs.
  pose proof (filter_covers_meets this (start, end_) end_ Hr (or_intror eq_refl)) as He.
  pose proof (locate_absent this start) as Habs_s.
  pose proof (locate_absent this end_) as Habs_e.
  destruct (Z.geb_spec (locate this start) 0) as [Hfound | Habsent].
  { rewrite bool_decide_eq_true_2; [done |]. intros Hnil.
    apply Hs, Habs_s in Hnil. lia. }
  assert ((if start =? end_ then Ok (locate this start) else Ok (locate this end_))
          = Ok (locate this end_)) as ->.
  { by destruct (Z.eqb_spec start end_) as [-> | _]. }
  cbn [mbind result_bind].
  destruct (Z.geb_spec (locate this end_) 0) as [Hfound | Habsent'].
  { rewrite bool_decide_eq_true_2; [done |]. intros Hnil.
    apply He, Habs_e in Hnil. lia. }
  f_equal.
  apply Habs_s in Habsent. apply Habs_e in Habsent'.
  unfold locate. rewrite !decide_True by done.
  rewrite Habsent' in Hcount. change (size (@nil entry)) with 0 in Hcount.
  pose proof (size_nonneg (filter (meets (start, end_)) this)).
  unfold bitnot, Z.lnot.
  destruct (decide (filter (meets (start, end_)) this = [])) as [Hnil | Hsome].
  - rewrite Hnil in Hcount. change (size (@nil entry)) with 0 in Hcount.
    rewrite bool_decide_eq_false_2 by auto. compare_cases; [done | lia].
  - rewrite bool_decide_eq_true_2 by done.
    assert (size (filter (meets (start, end_)) this) <> 0) by (by intros ?%size_zero).
    compare_cases; [lia | done].
Qed.

(** The loop of [hasAll] over a run of consecutive entries. *)
Lemma gapless_spec this mid : forall front p back (fuel : nat),
  this = front ++ p :: mid ++ back -> size mid <= Z.of_nat fuel ->
  gapless fuel this (size front + 1) (size front + size mid)
  = Ok (contiguous (p :: mid)).
Proof.
  induction mid as [| x mid IH]; intros front p back fuel Hthis Hfuel.
  - change (size (@nil entry)) with 0.
    destruct fuel; cbn [gapless contiguous]; compare_cases; (done || lia).
  - pose proof (size_nonneg mid). rewrite size_cons in *.
    destruct fuel as [| fuel]; [lia |]. cbn [gapless].
    compare_cases; [| lia].
    replace (size front + 1 - 1) with (size front) by lia.
    rewrite (element_middle' this front p ((x :: mid) ++ back) (size front)) by done.
    rewrite (element_middle' this (front ++ [p]) x (mid ++ back) (size front + 1));
      [| by rewrite Hthis, <- app_assoc | rewrite size_app, size_cons, size_nil; lia].
    destruct p as [[ps pe] pv], x as [[xs xe] xv]. cbn [mbind result_bind].
    cbn [contiguous]. unfold endOf at 1, startOf at 1. cbn [fst snd].
    destruct (Z.eqb_spec (pe + 1) xs) as [Hadj | Hgap]; cbn [negb andb]; [| done].
    replace (size front + 1 + 1) with (size (front ++ [(ps, pe, pv)]) + 1)
      by (rewrite size_app, size_cons, size_nil; lia).
    replace (size front + (size mid + 1)) with (size (front ++ [(ps, pe, pv)]) + size mid)
      by (rewrite size_app, size_cons, size_nil; lia).
    apply (IH _ _ back); [by rewrite Hthis, <- app_assoc | lia].
Qed.

(** Along a sorted run of entries, every key from one inside the first
    entry to one inside the last is covered exactly when no key is missing
    between consecutive entries. *)
Lemma contiguous_covered rest : forall x low high,
  chained strictEq (x :: rest) ->
  startOf x <= low <= endOf x ->
  (forall l, last (x :: rest) = Some l -> startOf l <= high <= endOf l) ->
  contiguous (x :: rest) = true <->
  (forall key, low <= key <= high -> covered (x :: rest) key).
Proof.
  induction rest as [| y rest IH]; intros x low high Hch Hlow Hhigh.
  - specialize (Hhigh x eq_refl). split; [| done].
    intros _ key Hkey. exists x. split; [left |]. entry_arith.
  - pose proof (chained_above _ _ _ Hch) as Habove.
    pose proof Hch as Hc. apply chained_cons in Hc as (Hx & Hhead & Hrest).
    pose proof Hrest as Hc. apply chained_cons in Hc as (Hy & _ & _).
    destruct (Hhead y eq_refl) as [Hlt _].
    assert (startOf y <= high) as Hyhigh.
    { destruct (proj2 (last_is_Some (y :: rest)) ltac:(done)) as [l Hl].
      specialize (Hhigh l). rewrite last_cons_cons in Hhigh.
      specialize (Hhigh Hl).
      apply last_Some_elem_of in Hl. apply elem_of_cons in Hl as [-> | Hl]; [lia |].
      pose proof (chained_above _ _ _ Hrest) as Hy'.
      rewrite Forall_forall in Hy'. specialize (Hy' l Hl). lia. }
    specialize (IH y (startOf y) high Hrest ltac:(lia)).
    rewrite last_cons_cons in Hhigh. specialize (IH Hhigh).
    cbn [contiguous]. rewrite andb_true_iff, Z.eqb_eq, IH. split.
    + intros [Hadj Hall] key Hkey.
      destruct (decide (key <= endOf x)).
      * exists x. split; [left |]. entry_arith.
      * destruct (Hall key ltac:(lia)) as (z & Hz & Hcov).
        exists z. split; [by right | done].
    + intros Hall. split.
      * destruct (decide (endOf x + 1 = startOf y)) as [| Hgap]; [done |].
        destruct (Hall (endOf x + 1) ltac:(lia)) as (z & Hz & Hcov).
        apply elem_of_cons in Hz as [-> | Hz]; [entry_arith |].
        apply elem_of_cons in Hz as [-> | Hz]; [entry_arith |].
        pose proof (chained_above _ _ _ Hrest) as Hy'.
        rewrite Forall_forall in Hy'. specialize (Hy' z Hz). entry_arith.
      * intros key Hkey.
        destruct (Hall key ltac:(lia)) as (z & Hz & Hcov).
        apply elem_of_cons in Hz as [-> | Hz]; [entry_arith |].
        by exists z.
Qed.

End HasFacts.



Section HasAllFacts.
Context {Value : Type}.
Variable strictEq : Value -> Value -> bool.
Local Abbreviation entry := (RangeEntry Value).
Local Abbreviation entries := (list entry).
Implicit Types (this front back rest mid : entries) (a b x y m : entry) (key : Z).
Implicit Types (range : Range) (value : Value).

(** When both ends of a range are covered, the entries that meet the range
    begin with the one that covers its start and end with the one that
    covers its end. *)
Lemma meeting_ends this range :
  chained strictEq this -> range.1 <= range.2 ->
  filter (fun x => covers x range.1) this <> [] ->
  filter (fun x => covers x range.2) this <> [] ->
  exists p mid,
    filter (meets range) this = p :: mid /\
    startOf p <= range.1 <= endOf p /\
    (forall l, last (p :: mid) = Some l -> startOf l <= range.2 <= endOf l) /\
    locate this range.1 = size (filter (endsBefore range.1) this) /\
    locate this range.2 = size (filter (endsBefore range.1) this) + size mid.
Proof.
  intros Hch Hr Hs He.
  pose proof (partition strictEq this range Hch Hr) as Hpart.
  pose proof (count_upto strictEq this range Hch Hr) as Hcount.
  pose proof (covering_unique strictEq this range.2 Hch) as Hone.
  pose proof (size_nonneg (filter (fun x => covers x range.2) this)) as Hc0.
  assert (size (filter (fun x => covers x range.2) this) <> 0) as Hc1
    by (by intros ?%size_zero).
  pose proof (index_locate strictEq this range.1 Hch
                (proj2 (locate_found this range.1) Hs)) as Hfirst.
  pose proof (index_locate strictEq this range.2 Hch
                (proj2 (locate_found this range.2) He)) as Hlast.
  unfold locate in *.
  rewrite decide_False in Hfirst by done. rewrite decide_False in Hlast by done.
  rewrite !decide_False by done. unfold below in *.
  set (A := filter (endsBefore range.1) this) in *.
  set (B := filter (startsAfter range.2) this) in *.
  destruct (filter (meets range) this) as [| p mid] eqn:HM.
  { exfalso. apply Hs. apply (filter_covers_meets this range); auto. }
  exists p, mid. rewrite size_cons in Hcount.
  split; [done |].
  assert (size (filter (endsBefore range.2) this) = size A + size mid) as Hlocate by lia.
  rewrite Hlocate in *.
  rewrite Hpart in Hfirst at 1. rewrite Hpart in Hlast at 1.
  cbn [app] in Hfirst. rewrite index_middle in Hfirst.
  symmetry in Hfirst. apply covering_Some in Hfirst as [_ Hcovp].
  split; [entry_arith |]. split; [| done].
  intros l Hl. apply last_Some in Hl as [pre Hpre].
  rewrite Hpre, <- app_assoc in Hlast. cbn [app] in Hlast.
  assert (size A + size mid = size (A ++ pre)) as Hpos.
  { apply (f_equal size) in Hpre. rewrite size_cons, !size_app, size_cons in *.
    change (size (@nil entry)) with 0 in Hpre. lia. }
  rewrite Hpos, app_assoc, index_middle in Hlast.
  symmetry in Hlast. apply covering_Some in Hlast as [_ Hcovl]. entry_arith.
Qed.

Lemma hasAll_spec this raw range :
  chained strictEq this -> assertRange raw = Ok range -> range.1 <= range.2 ->
  hasAll this raw =
    Ok (bool_decide (filter (fun x => covers x range.1) this <> [])
        && bool_decide (filter (fun x => covers x range.2) this <> [])
        && contiguous (filter (meets range) this)).
Proof.
  intros Hch Hraw Hr. unfold hasAll. rewrite Hraw. cbn [mbind result_bind].
  destruct range as [start end_]. cbn [fst snd] in *.
  rewrite !(indexOf_locate strictEq) by done. cbn [mbind result_bind].
  pose proof (locate_absent this start) as Habs_s.
  pose proof (locate_absent this end_) as Habs_e.
  destruct (Z.ltb_spec (locate this start) 0) as [Habsent | Hfound].
  { apply Habs_s in Habsent. by rewrite (bool_decide_eq_false_2 _) by auto. }
  assert ((if start =? end_ then Ok (locate this start) else Ok (locate this end_))
          = Ok (locate this end_)) as ->.
  { by destruct (Z.eqb_spec start end_) as [-> | _]. }
  cbn [mbind result_bind].
  apply locate_found in Hfound. rewrite (bool_decide_eq_true_2 _ Hfound).
  destruct (Z.ltb_spec (locate this end_) 0) as [Habsent | Hfound'].
  { apply Habs_e in Habsent. by rewrite (bool_decide_eq_false_2 _) by auto. }
  apply locate_found in Hfound'. rewrite (bool_decide_eq_true_2 _ Hfound').
  destruct (meeting_ends this (start, end_) Hch Hr Hfound Hfound')
    as (p & mid & HM & _ & _ & Hfirst & Hlast).
  cbn [fst snd] in Hfirst, Hlast. rewrite Hfirst, Hlast.
  rewrite HM. cbn [andb fst snd].
  pose proof (partition strictEq this (start, end_) Hch Hr) as Hpart.
  rewrite HM in Hpart. cbn [fst snd] in Hpart.
  apply (gapless_spec this mid _ p _ _ Hpart).
  apply (f_equal size) in Hpart. rewrite !size_app, size_cons in Hpart.
  pose proof (size_nonneg (filter (endsBefore start) this)).
  pose proof (size_nonneg (filter (startsAfter end_) this)).
  unfold size in *. lia.
Qed.

(** [hasAll] holds exactly when every key of the range is covered. *)
Lemma hasAll_covered this range :
  chained strictEq this -> range.1 <= range.2 ->
  bool_decide (filter (fun x => covers x range.1) this <> [])
  && bool_decide (filter (fun x => covers x range.2) this <> [])
  && contiguous (filter (meets range) this) = true <->
  (forall key, inRange range key -> covered this key).
Proof.
  intros Hch Hr.
  rewrite !andb_true_iff, !bool_decide_eq_true, <- !covered_filter.
  assert (forall key, inRange range key ->
            covered this key <-> covered (filter (meets range) this) key) as Hsame.
  { intros key Hkey. unfold covered. split; intros (x & Hx & Hcov); exists x.
    - split; [| done]. apply list_elem_of_filter. split; [entry_arith | done].
    - split; [| done]. by apply list_elem_of_filter in Hx as [_ ?]. }
  assert (chained strictEq (filter (meets range) this)) as HchM.
  { rewrite (partition strictEq this range Hch Hr) in Hch.
    by apply chained_app_r, chained_app_l in Hch. }
  split.
  - intros [[Hs He] Hcont] key Hkey.
    rewrite covered_filter in Hs, He.
    destruct (meeting_ends this range Hch Hr Hs He)
      as (p & mid & HM & Hp & Hl & _ & _).
    apply Hsame; [done |]. rewrite HM in *.
    by apply (contiguous_covered strictEq mid p range.1 range.2 HchM Hp Hl).
  - intros Hall.
    assert (covered this range.1 /\ covered this range.2) as [Hs He].
    { split; apply Hall; entry_arith. }
    split; [done |].
    rewrite covered_filter in Hs, He.
    destruct (meeting_ends this range Hch Hr Hs He)
      as (p & mid & HM & Hp & Hl & _ & _).
    rewrite HM in *.
    apply (contiguous_covered strictEq mid p range.1 range.2 HchM Hp Hl).
    intros key Hkey. apply Hsame; [done |]. by apply Hall.
Qed.

End HasAllFacts.



(* ===================================================================== *)
(** ** assertRange *)
(* ===================================================================== *)

Lemma Qred_inject_Z z : Qred (inject_Z z) = inject_Z z.
Proof. apply Qred_identity. simpl. apply Z.gcd_1_r. Qed.

Lemma toZ_ofZ z : toZ (ofZ z) = z.
Proof. unfold toZ, ofZ. by rewrite Qred_inject_Z. Qed.

Lemma isSafeInteger_ofZ z :
  isSafeInteger (ofZ z) = (Z.abs z <=? MAX_SAFE_INTEGER).
Proof.
  unfold isSafeInteger. rewrite toZ_ofZ. unfold isInteger, ofZ.
  by rewrite Qred_inject_Z.
Qed.

Lemma gt_ofZ a b : gt (ofZ a) (ofZ b) = (b <? a).
Proof.
  unfold gt, ofZ, Qle_bool. simpl. rewrite !Z.mul_1_r.
  destruct (Z.leb_spec a b), (Z.ltb_spec b a); done || lia.
Qed.

(** A range [assertRange] accepts is returned as its two integers, in
    order and safe. *)
Lemma assertRange_Ok raw range :
  assertRange raw = Ok range <->
  ~ invalid raw /\ range = (toZ raw.1, toZ raw.2).
Proof.
  unfold assertRange, invalid. destruct raw as [start end_]. cbn [fst snd].
  destruct (isSafeInteger start), (isSafeInteger end_), (gt start end_);
    cbn [negb orb]; split; try done; try (intros [H _]; exfalso; apply H; tauto).
  - intros [= <-]. split; [| done]. intros [| [|]]; done.
  - intros [_ ->]. done.
Qed.

Lemma assertRange_Throw raw e :
  assertRange raw = Throw e <-> invalid raw /\ e = InvalidRange.
Proof.
  unfold assertRange, invalid. destruct raw as [start end_]. cbn [fst snd].
  destruct (isSafeInteger start), (isSafeInteger end_), (gt start end_);
    cbn [negb orb]; split; try done;
    try (intros [= <-]; split; [tauto | done]);
    try (intros [_ ->]; done).
  intros [[| [|]] _]; done.
Qed.

Lemma isSafeInteger_bound n :
  isSafeInteger n = true -> Z.abs (toZ n) <= MAX_SAFE_INTEGER.
Proof. unfold isSafeInteger. intros [_ H]%andb_true_iff. by apply Z.leb_le. Qed.

Lemma assertRange_ordered raw range :
  assertRange raw = Ok range -> range.1 <= range.2.
Proof.
  rewrite assertRange_Ok. unfold invalid. intros [Hvalid ->]. cbn [fst snd].
  destruct raw as [start end_]. cbn [fst snd] in *.
  destruct (isSafeInteger start) eqn:Hs; [| tauto].
  destruct (isSafeInteger end_) eqn:He; [| tauto].
  destruct (gt start end_) eqn:Hgt; [tauto |].
  unfold isSafeInteger in Hs, He.
  apply andb_true_iff in Hs as [Hs _]. apply andb_true_iff in He as [He _].
  destruct start as [p | | |], end_ as [q | | |]; try done.
  unfold isInteger in Hs, He. apply Pos.eqb_eq in Hs, He.
  unfold gt in Hgt. apply negb_false_iff, Qle_bool_iff in Hgt.
  rewrite <- (Qred_correct p), <- (Qred_correct q) in Hgt.
  unfold Qle in Hgt. rewrite Hs, He, !Z.mul_1_r in Hgt. done.
Qed.

(** Every range of safe integers in order is accepted. *)
Lemma assertRange_ofZ (range : Range) :
  Z.abs range.1 <= MAX_SAFE_INTEGER -> Z.abs range.2 <= MAX_SAFE_INTEGER ->
  range.1 <= range.2 ->
  assertRange (toReadonly range) = Ok range.
Proof.
  intros H1 H2 Hr. apply assertRange_Ok. unfold invalid, toReadonly.
  cbn [fst snd]. rewrite !isSafeInteger_ofZ, gt_ofZ, !toZ_ofZ.
  split; [| by destruct range].
  intros [?%Z.leb_nle | [?%Z.leb_nle | ?%Z.ltb_lt]]; lia.
Qed.



(* ===================================================================== *)
(** ** Sequences of operations *)
(* ===================================================================== *)

Section RunFacts.
Context {Value : Type}.
Variable strictEq : Value -> Value -> bool.
Local Abbreviation entry := (RangeEntry Value).
Local Abbreviation entries := (list entry).
Implicit Types (this front back rest mid : entries) (a b x y m : entry) (key : Z).
Implicit Types (range : Range) (value : Value).

Hypothesis strictEq_sym :
  forall u v, strictEq u v = true -> strictEq v u = true.
Hypothesis strictEq_trans :
  forall u v w, strictEq u v = true -> strictEq v w = true -> strictEq u w = true.

(** Clipping the entries that meet a range keeps what is above the key
    before the range and, of that, what is below the key after it. *)
Lemma slice_halves this range :
  range.1 <= range.2 -> Forall (fun x => startOf x <= endOf x) this ->
  clip range <$> filter (meets range) this
  = (this ≫= keepAbove (range.1 - 1)) ≫= keepBelow (range.2 + 1).
Proof.
  intros Hr. induction 1 as [| [[start end_] value] rest Hx _ IH]; [done |].
  rewrite filter_cons, bind_cons, bind_app, <- IH. clear IH.
  unfold keepAbove, keepBelow, clip.
  repeat case_decide; cbn [app fmap list_fmap mbind list_bind]; entry_arith;
    rewrite ?app_nil_r; cbn [app];
    repeat case_decide; entry_arith;
    repeat f_equal; lia.
Qed.

Lemma chained_slice this range :
  chained strictEq this -> range.1 <= range.2 ->
  chained strictEq (clip range <$> filter (meets range) this).
Proof.
  intros Hch Hr. rewrite slice_halves by (done || by eapply chained_ordered).
  by apply chained_keepBelow, chained_keepAbove.
Qed.

(** Every operation keeps the class invariant, also when it throws. *)
Lemma perform_chained this op :
  chained strictEq this -> chained strictEq (perform strictEq this op).
Proof.
  intros Hch. destruct op as [raw value | raw | | raw]; cbn [perform].
  - destruct (assertRange raw) as [range | e] eqn:Hraw.
    + pose proof (assertRange_ordered raw range Hraw) as Hr.
      rewrite (set_spec strictEq this raw range) by done.
      by apply chained_inserted.
    + unfold set. by rewrite Hraw.
  - unfold delete. destruct (assertRange raw) as [range | e] eqn:Hraw; cbn; [| done].
    pose proof (assertRange_ordered raw range Hraw) as Hr.
    rewrite (delete__spec strictEq) by done.
    by apply chained_minus.
  - done.
  - destruct (assertRange raw) as [range | e] eqn:Hraw.
    + pose proof (assertRange_ordered raw range Hraw) as Hr.
      rewrite (slice_spec strictEq this raw range) by done.
      by apply chained_slice.
    + unfold slice. by rewrite Hraw.
Qed.

Lemma states_chained ops : forall this,
  chained strictEq this -> Forall (chained strictEq) (states strictEq this ops).
Proof.
  induction ops as [| op ops IH]; intros this Hch; cbn [states].
  - by repeat constructor.
  - constructor; [done |]. by apply IH, perform_chained.
Qed.

(** The loop of the constructor: it ends with a map of the class when
    every range is valid, and throws at the first invalid one. *)
Lemma setEach_result (entries : list (ReadonlyEntry Value)) : forall this,
  chained strictEq this ->
  match setEach strictEq this entries with
  | Ok this' =>
      chained strictEq this' /\ Forall (fun e => ~ invalid e.1) entries
  | Throw e =>
      e = InvalidRange /\ Exists (fun e => invalid e.1) entries
  end.
Proof.
  induction entries as [| [raw value] entries IH]; intros this Hch; cbn [setEach].
  - by split.
  - destruct (assertRange raw) as [range | e] eqn:Hraw.
    + pose proof (assertRange_ordered raw range Hraw) as Hr.
      rewrite (set_spec strictEq this raw range) by done.
      cbn [mbind result_bind].
      specialize (IH (inserted strictEq this range value)
                    (chained_inserted strictEq strictEq_sym strictEq_trans
                       this range value Hch Hr)).
      apply assertRange_Ok in Hraw as [Hvalid _].
      destruct (setEach strictEq _ entries).
      * destruct IH. split; [done |]. by constructor.
      * destruct IH. split; [done |]. by right.
    + unfold set. rewrite Hraw. cbn [mbind result_bind].
      apply assertRange_Throw in Hraw as [Hinvalid ->]. split; [done |]. by left.
Qed.

End RunFacts.



(* ===================================================================== *)
(** ** The set and its map *)
(* ===================================================================== *)

Lemma zeroEq_sym u v : RangeSet.zeroEq u v = true -> RangeSet.zeroEq v u = true.
Proof. done. Qed.

Lemma zeroEq_trans u v w :
  RangeSet.zeroEq u v = true -> RangeSet.zeroEq v w = true ->
  RangeSet.zeroEq u w = true.
Proof. done. Qed.

Lemma cloneRange_id (range : Range) : cloneRange range = range.
Proof. by destruct range. Qed.

Lemma iterator_map (this : RangeSet.SortedRangeSet) :
  RangeSet.iterator this = fst <$> RangeSet.map this.
Proof.
  unfold RangeSet.iterator, ranges. apply list_fmap_ext.
  intros _ entry _. apply cloneRange_id.
Qed.

(** The invariant of the set is the invariant of its map: with a single
    value, minimal means never adjacent. *)
Lemma set_invariant (this : RangeSet.SortedRangeSet) :
  RangeSet.invariant (RangeSet.iterator this) <->
  invariant RangeSet.zeroEq (RangeSet.map this).
Proof.
  rewrite iterator_map. unfold RangeSet.invariant, invariant.
  set (l := RangeSet.map this). split.
  - intros [Hord Hadj]. split.
    + intros entry Hin. apply (Hord entry.1). by apply list_elem_of_fmap_2.
    + intros i previous next Hp Hn.
      specialize (Hadj i previous.1 next.1).
      rewrite !list_lookup_fmap, Hp, Hn in Hadj. specialize (Hadj eq_refl eq_refl).
      unfold apart. entry_arith.
  - intros [Hord Hadj]. split.
    + intros range [entry [-> Hin]]%list_elem_of_fmap. by apply Hord.
    + intros i previous next. rewrite !list_lookup_fmap.
      intros Hp Hn.
      destruct (l !! i) as [p |] eqn:Hp'; [| done].
      destruct (l !! S i) as [n |] eqn:Hn'; [| done].
      cbn in Hp, Hn. injection Hp as <-. injection Hn as <-.
      destruct (Hadj i p n Hp' Hn') as [Hlt Hmin]. unfold RangeSet.zeroEq in Hmin.
      entry_arith.
Qed.

Lemma set_contains (this : RangeSet.SortedRangeSet) key :
  RangeSet.contains (RangeSet.iterator this) key <->
  covered (RangeSet.map this) key.
Proof.
  rewrite iterator_map. unfold RangeSet.contains, covered. split.
  - intros (range & [entry [-> Hin]]%list_elem_of_fmap & Hkey). by exists entry.
  - intros (entry & Hin & Hcov). exists entry.1.
    split; [by apply list_elem_of_fmap_2 | done].
Qed.

(** Each call on the set is the call on its map, values stripped. *)
Lemma perform_specified this c :
  (RangeSet.perform this c).1 = (RangeSet.specified (RangeSet.map this) c).1 /\
  RangeSet.map (RangeSet.perform this c).2
  = (RangeSet.specified (RangeSet.map this) c).2.
Proof.
  destruct this as [delegate].
  destruct c; cbn [RangeSet.perform RangeSet.specified RangeSet.map].
  - unfold RangeSet.add. cbn [RangeSet.map].
    by destruct (set RangeSet.zeroEq delegate range RangeSet.zero).
  - unfold RangeSet.delete. cbn [RangeSet.map].
    by destruct (delete delegate range) as [[deleted delegate'] | e].
  - done.
  - unfold RangeSet.slice. cbn [RangeSet.map mbind result_bind RangeSet.constructor constructor].
    by destruct (slice delegate range).
  - done.
  - done.
  - done.
  - done.
  - done.
  - done.
  - done.
  - split; [| done]. cbn [fst]. f_equal.
    rewrite iterator_map. cbn [RangeSet.map]. unfold entries.
    rewrite <- list_fmap_compose. apply list_fmap_ext.
    intros _ entry _. cbn. by rewrite cloneEntry_id.
  - done.
Qed.

Lemma trace_specified calls : forall this,
  RangeSet.trace RangeSet.perform this calls
  = RangeSet.trace RangeSet.specified (RangeSet.map this) calls.
Proof.
  induction calls as [| c calls IH]; intros this; [done |].
  cbn [RangeSet.trace].
  destruct (perform_specified this c) as [Hseen Hstate].
  destruct (RangeSet.perform this c) as [seen this'].
  destruct (RangeSet.specified (RangeSet.map this) c) as [seen' delegate'].
  cbn [fst snd] in *. subst. by rewrite IH.
Qed.

(** The constructor of the set is the constructor of the map on the
    ranges paired with the placeholder. *)
Lemma addEach_setEach ranges : forall this,
  match RangeSet.addEach this ranges,
        setEach RangeSet.zeroEq (RangeSet.map this)
          ((fun range => (range, RangeSet.zero)) <$> ranges) with
  | Ok this', Ok delegate => RangeSet.map this' = delegate
  | Throw e, Throw e' => e = e'
  | _, _ => False
  end.
Proof.
  induction ranges as [| range ranges IH]; intros this; [done |].
  cbn [RangeSet.addEach fmap list_fmap setEach]. unfold RangeSet.add.
  destruct (set RangeSet.zeroEq (RangeSet.map this) range RangeSet.zero)
    as [delegate' | e]; [| done].
  cbn [mbind result_bind]. apply (IH {| RangeSet.map := delegate' |}).
Qed.

(** What the map operations do to a set, one call at a time. *)
Lemma set_perform_map this c :
  exists ops,
    RangeSet.map (RangeSet.perform this c).2
    = run RangeSet.zeroEq (RangeSet.map this) ops /\ (length ops <= 1)%nat.
Proof.
  destruct this as [delegate].
  destruct c; cbn [RangeSet.perform];
    try (exists []; split; [done | cbn; lia]).
  - exists [Set_ range RangeSet.zero]. split; [| done]. cbn.
    unfold RangeSet.add. cbn [RangeSet.map].
    by destruct (set RangeSet.zeroEq delegate range RangeSet.zero).
  - exists [Delete range]. split; [| done]. cbn.
    unfold RangeSet.delete. cbn [RangeSet.map].
    by destruct (delete delegate range) as [[deleted delegate'] | e].
  - exists [Clear]. split; [done | cbn; lia].
  - exists [Slice range]. split; [| done]. cbn.
    unfold RangeSet.slice. cbn [RangeSet.map mbind result_bind RangeSet.constructor constructor].
    by destruct (slice delegate range).
Qed.

Lemma set_states_invariant calls : forall this,
  chained RangeSet.zeroEq (RangeSet.map this) ->
  Forall (fun this' => chained RangeSet.zeroEq (RangeSet.map this'))
    (RangeSet.states this calls).
Proof.
  induction calls as [| c calls IH]; intros this Hch; cbn [RangeSet.states].
  - by repeat constructor.
  - constructor; [done |]. apply IH.
    destruct (set_perform_map this c) as (ops & -> & Hlen).
    destruct ops as [| op [| ? ?]]; [done | | cbn in Hlen; lia].
    cbn. by apply (perform_chained _ zeroEq_sym zeroEq_trans).
Qed.



(* ===================================================================== *)
(** ** The methods on a map of the class *)
(* ===================================================================== *)

Section MethodFacts.
Context {Value : Type}.
Variable strictEq : Value -> Value -> bool.
Local Abbreviation entry := (RangeEntry Value).
Local Abbreviation entries := (list entry).
Implicit Types (this front back rest mid : entries) (a b x y m : entry) (key : Z).
Implicit Types (range : Range) (value : Value).

Lemma delete_spec this raw range :
  invariant strictEq this -> assertRange raw = Ok range ->
  delete this raw =
    Ok (bool_decide (filter (meets range) this <> []), this ≫= minus range).
Proof.
  intros Hinv%invariant_chained Hraw. unfold delete. rewrite Hraw.
  cbn [mbind result_bind].
  apply (delete__spec strictEq); [done | by eapply assertRange_ordered].
Qed.

Lemma filter_nonempty (P : entry -> Prop) `{!forall x, Decision (P x)} this :
  filter P this <> [] <-> exists x, x ∈ this /\ P x.
Proof.
  split.
  - intros Hsome. destruct (filter P this) as [| x rest] eqn:Hf; [done |].
    assert (x ∈ filter P this) as Hx by (rewrite Hf; left).
    apply list_elem_of_filter in Hx. exists x. tauto.
  - intros (x & Hin & Hx) Hnil. apply filter_nil_Forall in Hnil.
    rewrite Forall_forall in Hnil. by apply (Hnil x).
Qed.

(** An entry that meets a range covers one of its ends or lies strictly
    inside it. *)
Lemma meets_cases this range :
  chained strictEq this -> range.1 <= range.2 ->
  (exists x, x ∈ this /\ meets range x) <->
  covered this range.1 \/ covered this range.2
  \/ exists x, x ∈ this /\ strictlyInside range x.
Proof.
  intros Hch Hr. pose proof (chained_ordered _ _ Hch) as Hord.
  rewrite Forall_forall in Hord. unfold covered, strictlyInside. split.
  - intros (x & Hin & Hmeet). specialize (Hord x Hin).
    destruct (decide (startOf x <= range.1)).
    { left. exists x. split; [done | entry_arith]. }
    destruct (decide (range.2 <= endOf x)).
    { right; left. exists x. split; [done | entry_arith]. }
    right; right. exists x. split; [done | entry_arith].
  - intros [(x & Hin & H) | [(x & Hin & H) | (x & Hin & H)]];
      exists x; specialize (Hord x Hin); (split; [done | entry_arith]).
Qed.

(** The positions [#indicesOf] returns are those of the entries that meet
    the range. *)
Lemma meeting_positions this range (i : nat) x :
  chained strictEq this -> range.1 <= range.2 ->
  this !! i = Some x ->
  meets range x <->
  below this range.1 <= Z.of_nat i
  <= below this range.1 + size (filter (meets range) this) - 1.
Proof.
  intros Hch Hr Hi.
  pose proof (partition strictEq this range Hch Hr) as Hpart.
  pose proof (filter_Forall (endsBefore range.1) this) as HA.
  pose proof (filter_Forall (meets range) this) as HM.
  pose proof (filter_Forall (startsAfter range.2) this) as HB.
  pose proof (chained_ordered _ _ Hch) as Hord.
  rewrite Forall_forall in Hord.
  specialize (Hord x (list_elem_of_lookup_2 _ _ _ Hi)).
  unfold below, size.
  set (A := filter (endsBefore range.1) this) in *.
  set (M := filter (meets range) this) in *.
  set (B := filter (startsAfter range.2) this) in *.
  rewrite Hpart in Hi. rewrite Forall_forall in HA, HM, HB.
  apply lookup_app_Some in Hi as [Hi | [Hge Hi]].
  - specialize (HA x (list_elem_of_lookup_2 _ _ _ Hi)).
    apply lookup_lt_Some in Hi. split; [entry_arith | lia].
  - apply lookup_app_Some in Hi as [Hi | [Hge' Hi]].
    + specialize (HM x (list_elem_of_lookup_2 _ _ _ Hi)).
      apply lookup_lt_Some in Hi. split; [lia | done].
    + specialize (HB x (list_elem_of_lookup_2 _ _ _ Hi)).
      split; [entry_arith | lia].
Qed.

End MethodFacts.



(* ===================================================================== *)
(** ** slice on the heap *)
(* ===================================================================== *)

Section StoreFacts.
Context {Value : Type}.
Local Abbreviation HeapEntry := (nat * Value)%type.
Implicit Types (h k : list Range) (this copies : list HeapEntry).
Implicit Types (view pure : list (RangeEntry Value)).

Lemma read_Ok h address range :
  Store.read h address = Ok range <-> h !! address = Some range.
Proof. unfold Store.read. destruct (h !! address); split; congruence. Qed.

Lemma resolve_Forall2 h this view :
  Store.resolve h this = Ok view <-> Forall2 (Store.pointsTo h) this view.
Proof.
  revert view. induction this as [| [address value] this IH]; intros view.
  - cbn. split; [intros [= <-]; constructor | by intros ->%Forall2_nil_inv_l].
  - cbn [Store.resolve]. unfold Store.read. split.
    + destruct (h !! address) as [range |] eqn:Hread; [| done].
      cbn [mbind result_bind].
      destruct (Store.resolve h this) as [resolved |] eqn:Hres; [| done].
      cbn [mbind result_bind]. intros [= <-].
      constructor; [done | by apply IH].
    + intros (entry & resolved & [Hread Hvalue] & Hrest & ->)%Forall2_cons_inv_l.
      cbn [fst snd] in *. rewrite Hread. cbn [mbind result_bind].
      apply IH in Hrest. rewrite Hrest. cbn [mbind result_bind].
      destruct entry. cbn in *. by subst.
Qed.

Lemma pointsTo_app h k (entry : HeapEntry) (resolved : RangeEntry Value) :
  Store.pointsTo h entry resolved -> Store.pointsTo (h ++ k) entry resolved.
Proof. intros [Hread ?]. split; [by apply lookup_app_l_Some | done]. Qed.

(** Two arrays related element by element are read alike. *)
Lemma index_Forall2 {A B} (R : A -> B -> Prop) (l : list A) (l' : list B) i :
  Forall2 R l l' -> option_Forall2 R (index l i) (index l' i).
Proof.
  intros H. unfold index. destruct (i <? 0); [constructor |].
  by apply Forall2_lookup.
Qed.

Lemma at_Forall2 {A B} (R : A -> B -> Prop) (l : list A) (l' : list B) i :
  Forall2 R l l' -> option_Forall2 R (Js.at_ l i) (Js.at_ l' i).
Proof.
  intros H. unfold Js.at_, size. rewrite (Forall2_length _ _ _ H).
  by apply index_Forall2.
Qed.

(** Writing the range of one entry changes how that entry reads, and no
    other: no two entries of the copy hold the same range array. *)
Lemma pointsTo_write h copies pure (i : nat) address value range :
  Forall2 (Store.pointsTo h) copies pure -> NoDup (fst <$> copies) ->
  copies !! i = Some (address, value) ->
  Forall2 (Store.pointsTo (Store.write h address range)) copies
    (<[i := (range, value)]> pure).
Proof.
  intros Hall Hdup Hi. apply Forall2_same_length_lookup_2.
  { rewrite length_insert. by eapply Forall2_length. }
  intros j entry resolved Hj Hres. unfold Store.write.
  destruct (Forall2_lookup_l _ _ _ _ _ Hall Hi) as (old & Hold & [Hread _]).
  cbn [fst] in Hread. pose proof (lookup_lt_Some _ _ _ Hread) as Hlt.
  destruct (decide (j = i)) as [-> | Hne].
  - assert (entry = (address, value)) as -> by congruence.
    rewrite list_lookup_insert_eq in Hres by (by eapply lookup_lt_Some).
    assert (resolved = (range, value)) as -> by congruence.
    split; [| done]. cbn. by apply list_lookup_insert_eq.
  - rewrite list_lookup_insert_ne in Hres by done.
    destruct (Forall2_lookup_lr _ _ _ _ _ _ Hall Hj Hres) as [Hread' Hvalue].
    split; [| done]. rewrite list_lookup_insert_ne; [done |].
    intros Heq. apply Hne.
    apply (NoDup_lookup _ j i address Hdup); rewrite list_lookup_fmap.
    + rewrite Hj. cbn. by rewrite Heq.
    + by rewrite Hi.
Qed.

(** Copying entries allocates a new range array for each; the copy reads
    as what [Array.from] returns on the entries the map reads as. *)
Lemma copyEntries_spec indices : forall h this view firstIndex,
  Forall2 (Store.pointsTo h) this view ->
  match fromIndices (fun index => entry ← element view (firstIndex + index);
                                  Ok (cloneEntry entry)) indices with
  | Ok pure =>
      exists copies k,
        Store.copyEntries h this firstIndex indices = Ok (copies, h ++ k) /\
        Forall2 (Store.pointsTo (h ++ k)) copies pure /\
        Forall (fun copy => (length h <= copy.1)%nat) copies /\
        NoDup (fst <$> copies)
  | Throw e => Store.copyEntries h this firstIndex indices = Throw e
  end.
Proof.
  induction indices as [| index indices IH]; intros h this view firstIndex Hall.
  - cbn. exists [], []. rewrite app_nil_r. repeat split; constructor.
  - cbn [fromIndices Store.copyEntries]. unfold element.
    pose proof (index_Forall2 _ _ _ (firstIndex + index) Hall) as Hindex.
    destruct Hindex as [[address value] [range value'] [Hread Hvalue] |]; [| done].
    cbn [fst snd] in Hread, Hvalue. subst value'.
    cbn [mbind result_bind]. rewrite cloneEntry_id.
    unfold Store.cloneEntry, Store.cloneRange, Store.read. rewrite Hread.
    destruct range as [start end_]. cbn [mbind result_bind Store.allocate].
    specialize (IH (h ++ [(start, end_)]) this view firstIndex).
    destruct (fromIndices _ indices) as [pure | e].
    + destruct IH as (copies & k & -> & Hcopies & Hfresh & Hdup).
      { eapply Forall2_impl; [exact Hall |]. intros ? ?. apply pointsTo_app. }
      cbn [mbind result_bind].
      exists ((length h, value) :: copies), ([(start, end_)] ++ k).
      rewrite length_app in Hfresh. cbn [length] in Hfresh.
      rewrite <- !app_assoc in *. split_and!.
      * done.
      * constructor; [| done]. split; [| done]. cbn.
        by rewrite lookup_app_r, Nat.sub_diag by lia.
      * constructor; [cbn; lia |].
        eapply Forall_impl; [exact Hfresh |]. cbn. intros; lia.
      * cbn [fmap list_fmap fst]. constructor; [| done].
        intros [copy [Heq Hin]]%list_elem_of_fmap.
        rewrite Forall_forall in Hfresh. specialize (Hfresh copy Hin). lia.
    + rewrite IH; [done |].
      eapply Forall2_impl; [exact Hall |]. intros ? ?. apply pointsTo_app.
Qed.

(** [slice] on the heap computes what [slice] computes on the entries the
    maps read as, and writes to no range array that existed before. *)
Lemma slice_heap h this view raw :
  Store.resolve h this = Ok view ->
  match slice view raw with
  | Ok out =>
      exists copy h',
        Store.slice h this raw = Ok (copy, h') /\
        Store.resolve h' copy = Ok out /\
        (forall address, (address < length h)%nat -> h' !! address = h !! address)
  | Throw e => Store.slice h this raw = Throw e
  end.
Proof.
  intros Hview. unfold slice, Store.slice. rewrite Hview.
  apply resolve_Forall2 in Hview.
  destruct (assertRange raw) as [[start end_] | e]; [| done].
  cbn [mbind result_bind].
  destruct (indicesOf view (start, end_)) as [[[firstIndex lastIndex] |] | e];
    [| | done]; cbn [mbind result_bind].
  2:{ exists [], h. by repeat split. }
  unfold arrayFrom.
  pose proof (copyEntries_spec (seqZ 0 (lastIndex - firstIndex + 1))
                h this view firstIndex Hview) as Hcopy.
  destruct (fromIndices _ _) as [pure | e]; [| by rewrite Hcopy].
  destruct Hcopy as (copies & k & -> & Hcopies & Hfresh & Hdup).
  cbn [mbind result_bind].
  unfold element.
  pose proof (index_Forall2 _ _ _ 0 Hcopies) as Hfirst.
  destruct (index copies 0) as [[firstRange firstValue] |] eqn:Hcopy0;
    destruct (index pure 0) as [[[firstStart firstEnd] v] |] eqn:Hpure0;
    inversion Hfirst as [? ? [Hread Hvalue] |]; [| done].
  cbn [fst snd] in Hread, Hvalue. subst v.
  cbn [mbind result_bind]. unfold Store.read. rewrite Hread.
  cbn [mbind result_bind].
  apply index_Some in Hcopy0 as [_ Hcopy0]. change (Z.to_nat 0) with 0%nat in Hcopy0.
  pose proof (pointsTo_write _ _ _ 0 firstRange firstValue
                (Z.max start firstStart, firstEnd) Hcopies Hdup Hcopy0) as Hcopies'.
  change (store pure 0 (Z.max start firstStart, firstEnd, firstValue))
    with (<[0%nat := (Z.max start firstStart, firstEnd, firstValue)]> pure).
  set (pure' := <[0%nat := _]> pure) in *.
  set (h1 := Store.write (h ++ k) firstRange _) in *.
  pose proof (at_Forall2 _ _ _ (-1) Hcopies') as Hlast.
  destruct (Js.at_ copies (-1)) as [[lastRange lastValue] |] eqn:HcopyL;
    destruct (Js.at_ pure' (-1)) as [[[lastStart lastEnd] v] |] eqn:HpureL;
    inversion Hlast as [? ? [Hread' Hvalue'] |]; [| done].
  cbn [fst snd] in Hread', Hvalue'. subst v.
  cbn [mbind result_bind]. rewrite Hread'.
  cbn [mbind result_bind].
  assert (size pure' = size copies) as Hsize.
  { unfold size. by rewrite (Forall2_length _ _ _ Hcopies'). }
  unfold Js.at_ in HcopyL. cbn [Z.ltb Z.compare] in HcopyL.
  apply index_Some in HcopyL as [Hpos HcopyL].
  replace (size copies + -1) with (size pure' - 1) in * by lia.
  pose proof (pointsTo_write _ _ _ _ lastRange lastValue
                (lastStart, Z.min end_ lastEnd) Hcopies' Hdup HcopyL) as Hcopies''.
  exists copies, (Store.write h1 lastRange (lastStart, Z.min end_ lastEnd)).
  split; [done |]. split.
  - apply resolve_Forall2. unfold store.
    destruct (Z.ltb_spec (size pure' - 1) 0); [lia | done].
  - intros address Hlt. unfold Store.write, h1, Store.write.
    rewrite Forall_forall in Hfresh.
    pose proof (Hfresh _ (list_elem_of_lookup_2 _ _ _ Hcopy0)) as Hf0.
    pose proof (Hfresh _ (list_elem_of_lookup_2 _ _ _ HcopyL)) as HfL.
    cbn [fst] in Hf0, HfL.
    rewrite !list_lookup_insert_ne by lia. by apply lookup_app_l.
Qed.

End StoreFacts.



(* ===================================================================== *)
(** ** What indexOf returns *)
(* ===================================================================== *)

Section LocatedFacts.
Context {Value : Type}.
Variable strictEq : Value -> Value -> bool.
Local Abbreviation entry := (RangeEntry Value).
Local Abbreviation entries := (list entry).
Implicit Types (this : entries) (x : entry) (key : Z).

Lemma below_bounds this key : 0 <= below this key <= size this.
Proof.
  unfold below, size. pose proof (length_filter (endsBefore key) this). lia.
Qed.

(** When no entry covers the key, the entries before the insertion index
    end below the key and the others start above it. *)
Lemma located_absent this key i x :
  chained strictEq this -> ~ covered this key -> index this i = Some x ->
  (i < below this key -> endOf x < key) /\
  (below this key <= i -> key < startOf x).
Proof.
  intros Hch Hnone Hi.
  pose proof (partition strictEq this (key, key) Hch ltac:(simpl; lia)) as Hpart.
  rewrite filter_meets_point in Hpart. cbn [fst snd] in Hpart.
  rewrite covered_filter in Hnone.
  destruct (decide (filter (fun x => covers x key) this = [])) as [Hnil | ?];
    [| done].
  rewrite Hnil in Hpart. cbn [app] in Hpart.
  pose proof (filter_Forall (endsBefore key) this) as HA.
  pose proof (filter_Forall (startsAfter key) this) as HB.
  unfold below, size.
  set (A := filter (endsBefore key) this) in *.
  set (B := filter (startsAfter key) this) in *.
  apply index_Some in Hi as [Hi0 Hi]. rewrite Hpart in Hi.
  rewrite Forall_forall in HA, HB.
  apply lookup_app_Some in Hi as [Hi | [Hge Hi]].
  - specialize (HA x (list_elem_of_lookup_2 _ _ _ Hi)).
    apply lookup_lt_Some in Hi. split; [done | lia].
  - specialize (HB x (list_elem_of_lookup_2 _ _ _ Hi)). split; [lia | done].
Qed.

(** [indexOf], from the class invariant. *)
Lemma indexOf_spec this key :
  invariant strictEq this ->
  exists found,
    indexOf this key = Ok found /\
    ((0 <= found /\ exists x, index this found = Some x /\ covers x key)
     \/ (~ covered this key /\
         exists insertIndex,
           found = bitnot insertIndex /\ found = - (insertIndex + 1) /\
           0 <= insertIndex <= size this /\
           (forall i x, index this i = Some x -> i < insertIndex ->
                        endOf x < key) /\
           (forall i x, index this i = Some x -> insertIndex <= i ->
                        key < startOf x))) /\
    (this = [] -> found = -1).
Proof.
  intros Hch%invariant_chained. exists (locate this key).
  split; [by apply (indexOf_locate strictEq) |]. split.
  - destruct (decide (filter (fun x => covers x key) this = [])) as [Hnil | Hsome].
    + right. assert (~ covered this key) as Hnone.
      { rewrite covered_filter. by intros Hsome. }
      split; [done |]. exists (below this key). unfold locate.
      rewrite decide_True by done.
      pose proof (below_bounds this key).
      split_and!; [done | apply bitnot_spec | lia | lia | |].
      * intros i x Hi. by apply (located_absent this key i x Hch Hnone Hi).
      * intros i x Hi. by apply (located_absent this key i x Hch Hnone Hi).
    + left. apply locate_found in Hsome. split; [done |].
      rewrite (index_locate strictEq) by done.
      destruct (covering this key) as [x |] eqn:Hx.
      * exists x. split; [done |]. by apply covering_Some in Hx as [_ ?].
      * apply locate_found in Hsome. unfold covering in Hx.
        by apply head_None in Hx.
  - by intros ->.
Qed.

End LocatedFacts.

Lemma index_fmap {A B} (f : A -> B) (l : list A) i :
  index (f <$> l) i = f <$> index l i.
Proof. unfold index. destruct (i <? 0); [done |]. apply list_lookup_fmap. Qed.

Lemma size_fmap {A B} (f : A -> B) (l : list A) : size (f <$> l) = size l.
Proof. unfold size. by rewrite length_fmap. Qed.

(** Proves the invariant of a map written out in full. *)
Ltac prove_invariant :=
  apply invariant_chained; cbn; unfold apart; cbn;
  repeat split; try lia; try (intros [_ ?]; discriminate).

Ltac prove_set_invariant :=
  apply set_invariant; prove_invariant.

(* ===================================================================== *)
(** ** The specification, claim by claim *)
(* ===================================================================== *)

(** C5.  On a map or a set that satisfies the class invariant, [indexOf]
    returns the index (not negative) of the entry whose range covers the
    key when there is one; otherwise it returns [~insertIndex], that is
    [-(insertIndex + 1)], where every entry before [insertIndex] ends below
    the key and every entry from [insertIndex] on starts above it, so that
    an entry starting at the key inserted there keeps the order.  On an
    empty map or set it returns [-1]. *)
Theorem indexOf_returns_index_or_complement
  (Value : Type) (strictEq : Value -> Value -> bool)
  (this : SortedRangeMap Value) (set : RangeSet.SortedRangeSet) (key : Z) :
  invariant strictEq this ->
  RangeSet.invariant (RangeSet.iterator set) ->
  (exists found,
     indexOf this key = Ok found /\
     ((0 <= found /\
       exists entry, index this found = Some entry /\ covers entry key)
      \/ (~ covered this key /\
          exists insertIndex,
            found = bitnot insertIndex /\ found = - (insertIndex + 1) /\
            0 <= insertIndex <= size this /\
            (forall i entry, index this i = Some entry -> i < insertIndex ->
                             endOf entry < key) /\
            (forall i entry, index this i = Some entry -> insertIndex <= i ->
                             key < startOf entry))) /\
     (this = [] -> found = -1)) /\
  (exists found,
     RangeSet.indexOf set key = Ok found /\
     ((0 <= found /\
       exists range, index (RangeSet.iterator set) found = Some range
                     /\ inRange range key)
      \/ (~ RangeSet.contains (RangeSet.iterator set) key /\
          exists insertIndex,
            found = bitnot insertIndex /\ found = - (insertIndex + 1) /\
            0 <= insertIndex <= RangeSet.size set /\
            (forall i range, index (RangeSet.iterator set) i = Some range ->
                             i < insertIndex -> range.2 < key) /\
            (forall i range, index (RangeSet.iterator set) i = Some range ->
                             insertIndex <= i -> key < range.1))) /\
     (RangeSet.iterator set = [] -> found = -1)).
Proof.
  intros Hmap Hset%set_invariant. split; [by apply (indexOf_spec strictEq) |].
  destruct (indexOf_spec _ (RangeSet.map set) key Hset)
    as (found & Hfound & Hcases & Hempty).
  exists found. split; [done |]. rewrite iterator_map. split.
  - destruct Hcases as [(Hpos & entry & Hentry & Hcov)
                       | (Hnone & insertIndex & H1 & H2 & H3 & Hlow & Hhigh)].
    + left. split; [done |]. exists entry.1.
      rewrite index_fmap, Hentry. by split.
    + right. split.
      { rewrite <- iterator_map. by rewrite set_contains. }
      exists insertIndex. unfold RangeSet.size. split_and!; try done; try lia.
      * intros i range. rewrite index_fmap.
        destruct (index (RangeSet.map set) i) as [entry |] eqn:Hi; [| done].
        intros [= <-] Hlt. by apply (Hlow i entry).
      * intros i range. rewrite index_fmap.
        destruct (index (RangeSet.map set) i) as [entry |] eqn:Hi; [| done].
        intros [= <-] Hlt. by apply (Hhigh i entry).
  - intros Hnil. apply Hempty. by apply fmap_nil_inv in Hnil.
Qed.

Lemma indexOf_returns_index_or_complement_witness :
  indexOf Readme.rangeMap 0 = Ok (-2) /\
  RangeSet.indexOf Readme.rangeSet 8 = Ok (-3) /\
  exists found, indexOf Readme.rangeMap 2 = Ok found /\ 0 <= found.
Proof.
  destruct (indexOf_returns_index_or_complement Z Z.eqb
              Readme.rangeMap Readme.rangeSet 2) as [(found & Hfound & _) _].
  - prove_invariant.
  - prove_set_invariant.
  - split; [reflexivity |]. split; [reflexivity |].
    exists found. split; [exact Hfound |].
    vm_compute in Hfound. injection Hfound as <-. lia.
Defined.



(** C10.  On a map that satisfies the class invariant and for a valid
    range, [#indicesOf] returns nothing when no entry meets the range, and
    otherwise a pair [(firstIndex, lastIndex)] with
    [0 <= firstIndex <= lastIndex < size], the positions of the entries
    that meet the range.  So [#delete], [#deleteFromSingleRange] at each of
    these positions and [slice] read inside the array: none of them throws
    on an [undefined] entry. *)
Theorem indicesOf_in_bounds
  (Value : Type) (strictEq : Value -> Value -> bool)
  (this : SortedRangeMap Value) (raw : ReadonlyRange) (range : Range) :
  invariant strictEq this ->
  assertRange raw = Ok range ->
  ((indicesOf this range = Ok None /\
    forall entry, entry ∈ this -> ~ meets range entry)
   \/ (exists firstIndex lastIndex,
         indicesOf this range = Ok (Some (firstIndex, lastIndex)) /\
         0 <= firstIndex <= lastIndex /\ lastIndex < size this /\
         (forall (i : nat) entry, this !! i = Some entry ->
            meets range entry <-> firstIndex <= Z.of_nat i <= lastIndex) /\
         (forall i, firstIndex <= i <= lastIndex ->
            is_ok (element this i) = true /\
            is_ok (deleteFromSingleRange this i range) = true))) /\
  is_ok (delete_ this range) = true /\
  is_ok (delete this raw) = true /\
  is_ok (slice this raw) = true.
Proof.
  intros Hch%invariant_chained Hraw.
  pose proof (assertRange_ordered raw range Hraw) as Hr.
  split; [| split_and!].
  - rewrite (indicesOf_spec strictEq) by done.
    destruct (decide (filter (meets range) this = [])) as [Hnil | Hsome].
    + left. split; [done |]. apply filter_nil_Forall in Hnil.
      by rewrite Forall_forall in Hnil.
    + right. eexists _, _. split; [done |].
      pose proof (below_bounds this range.1) as Hbelow.
      pose proof (size_nonneg (filter (meets range) this)) as Hm0.
      assert (size (filter (meets range) this) <> 0) as Hm1
        by (by intros ?%size_zero).
      pose proof (partition strictEq this range Hch Hr) as Hpart.
      apply (f_equal size) in Hpart. rewrite !size_app in Hpart.
      pose proof (size_nonneg (filter (startsAfter range.2) this)) as Hb0.
      unfold below in *. split_and!; try lia.
      * intros i entry Hi. by apply (meeting_positions strictEq).
      * intros i Hi.
        destruct (index_in_bounds this i ltac:(lia)) as [entry Hentry].
        unfold element. rewrite Hentry. split; [done |].
        destruct (index_split _ _ _ Hentry) as (front & back & Hthis & Hsize).
        rewrite (deleteFromSingleRange_spec this front entry back range i);
          [done | done | done |].
        apply index_Some in Hentry as [_ Hentry].
        apply (meeting_positions strictEq this range _ entry Hch Hr Hentry).
        unfold below. lia.
  - by rewrite (delete__spec strictEq).
  - unfold delete. rewrite Hraw. cbn [mbind result_bind].
    by rewrite (delete__spec strictEq).
  - by rewrite (slice_spec strictEq this raw range) by done.
Qed.

Lemma indicesOf_in_bounds_witness :
  indicesOf Readme.rangeMap (2, 5) = Ok (Some (1, 2)) /\
  is_ok (delete Readme.rangeMap (Readme.range 2 5)) = true.
Proof.
  destruct (indicesOf_in_bounds Z Z.eqb Readme.rangeMap
              (Readme.range 2 5) (2, 5)) as (_ & _ & Hdelete & _).
  - prove_invariant.
  - reflexivity.
  - split; [reflexivity | exact Hdelete].
Defined.

(** C3.  On a map that satisfies the class invariant and for a valid
    range, [delete] removes exactly the keys of the range: what it leaves
    is each entry less the range (trimmed, split in two, or gone), a key of
    the range is associated with nothing and any other key keeps its
    association.  It returns true exactly when an entry met the range, that
    is when a key of the range was covered; when it returns false the map
    is as it was.  [hasAny] of the same range is false afterwards, and the
    invariant still holds. *)
Theorem delete_removes_range
  (Value : Type) (strictEq : Value -> Value -> bool)
  (this : SortedRangeMap Value) (raw : ReadonlyRange) (range : Range) :
  invariant strictEq this ->
  assertRange raw = Ok range ->
  exists deleted this',
    delete this raw = Ok (deleted, this') /\
    this' = this ≫= minus range /\
    (forall key, valueAt this' key =
                 if decide (inRange range key) then None else valueAt this key) /\
    (deleted = true <-> exists entry, entry ∈ this /\ meets range entry) /\
    (deleted = true <-> exists key, inRange range key /\ covered this key) /\
    (deleted = false -> this' = this) /\
    hasAny this' raw = Ok false /\
    invariant strictEq this'.
Proof.
  intros Hinv Hraw. pose proof Hinv as Hch. apply invariant_chained in Hch.
  pose proof (assertRange_ordered raw range Hraw) as Hr.
  exists (bool_decide (filter (meets range) this <> [])), (this ≫= minus range).
  pose proof (chained_minus strictEq this range Hch Hr) as Hch'.
  split_and!.
  - by apply (delete_spec strictEq).
  - done.
  - intros key. by apply valueAt_minus.
  - rewrite bool_decide_eq_true. apply (filter_nonempty (meets range)).
  - rewrite bool_decide_eq_true. by apply (meets_covered strictEq).
  - rewrite bool_decide_eq_false. intros Hnil.
    apply bind_minus_apart. apply (filter_nil_Forall (meets range)).
    by destruct (decide (filter (meets range) this = [])).
  - rewrite (hasAny_spec strictEq _ raw range) by done. f_equal.
    apply bool_decide_eq_false. intros Hsome. apply Hsome.
    apply filter_none. rewrite (minus_halves strictEq this range Hch Hr).
    pose proof (chained_ordered _ _ Hch') as Hord.
    rewrite (minus_halves strictEq this range Hch Hr) in Hord.
    pose proof (keepBelow_endsBefore range.1 this) as Hlow.
    pose proof (keepAbove_startsAfter range.2 this) as Hhigh.
    apply Forall_app in Hord as [Hord1 Hord2].
    apply Forall_app. split.
    + rewrite Forall_forall in Hlow, Hord1 |- *. intros x Hx.
      specialize (Hlow x Hx). specialize (Hord1 x Hx). entry_arith.
    + rewrite Forall_forall in Hhigh, Hord2 |- *. intros x Hx.
      specialize (Hhigh x Hx). specialize (Hord2 x Hx). entry_arith.
  - by apply invariant_chained.
Qed.

Lemma delete_removes_range_witness :
  delete Readme.rangeMap (Readme.range 4 5)
  = Ok (true, [((-4, -2), 8); ((1, 2), 42); ((3, 3), 3); ((6, 7), 3)]) /\
  exists deleted this',
    delete Readme.rangeMap (Readme.range 4 5) = Ok (deleted, this') /\
    hasAny this' (Readme.range 4 5) = Ok false.
Proof.
  destruct (delete_removes_range Z Z.eqb Readme.rangeMap
              (Readme.range 4 5) (4, 5))
    as (deleted & this' & Hdelete & _ & _ & _ & _ & _ & HhasAny & _).
  - prove_invariant.
  - reflexivity.
  - split; [reflexivity |]. by exists deleted, this'.
Defined.

(** C6.  On a map or a set that satisfies the class invariant and for a
    valid range, [hasAll] returns true exactly when every key of the range
    is covered; and that is when both ends of the range are covered and no
    key is missing between consecutive entries among those that meet the
    range. *)
Theorem hasAll_iff_every_key_covered
  (Value : Type) (strictEq : Value -> Value -> bool)
  (this : SortedRangeMap Value) (set : RangeSet.SortedRangeSet)
  (raw : ReadonlyRange) (range : Range) :
  invariant strictEq this ->
  RangeSet.invariant (RangeSet.iterator set) ->
  assertRange raw = Ok range ->
  (exists all,
     hasAll this raw = Ok all /\
     (all = true <-> forall key, inRange range key -> covered this key) /\
     (all = true <->
      covered this range.1 /\ covered this range.2 /\
      contiguous (filter (meets range) this) = true)) /\
  (exists all,
     RangeSet.hasAll set raw = Ok all /\
     (all = true <->
      forall key, inRange range key ->
                  RangeSet.contains (RangeSet.iterator set) key)).
Proof.
  intros Hmap%invariant_chained Hset%set_invariant%invariant_chained Hraw.
  pose proof (assertRange_ordered raw range Hraw) as Hr.
  split.
  - eexists. split; [by apply (hasAll_spec strictEq) |]. split.
    + by apply (hasAll_covered strictEq).
    + rewrite !andb_true_iff, !bool_decide_eq_true, <- !covered_filter. tauto.
  - eexists. split; [by apply (hasAll_spec RangeSet.zeroEq) |].
    rewrite (hasAll_covered RangeSet.zeroEq) by done.
    split; intros Hall key Hkey; apply set_contains || apply <- set_contains; auto.
Qed.

Lemma hasAll_iff_every_key_covered_witness :
  hasAll Readme.rangeMap (Readme.range 1 7) = Ok true /\
  RangeSet.hasAll Readme.rangeSet (Readme.range (-2) 3) = Ok false /\
  forall key, inRange (1, 7) key -> covered Readme.rangeMap key.
Proof.
  destruct (hasAll_iff_every_key_covered Z Z.eqb Readme.rangeMap Readme.rangeSet
              (Readme.range 1 7) (1, 7)) as [(all & Hall & Hiff & _) _].
  - prove_invariant.
  - prove_set_invariant.
  - reflexivity.
  - split; [reflexivity |]. split; [reflexivity |].
    apply Hiff. vm_compute in Hall. by injection Hall as <-.
Defined.

(** C7.  On a map or a set that satisfies the class invariant and for a
    valid range, [hasAny] returns true exactly when a key of the range is
    covered; and that is when the start of the range is covered, or its end
    is, or an entry lies strictly between them. *)
Theorem hasAny_iff_some_key_covered
  (Value : Type) (strictEq : Value -> Value -> bool)
  (this : SortedRangeMap Value) (set : RangeSet.SortedRangeSet)
  (raw : ReadonlyRange) (range : Range) :
  invariant strictEq this ->
  RangeSet.invariant (RangeSet.iterator set) ->
  assertRange raw = Ok range ->
  (exists any,
     hasAny this raw = Ok any /\
     (any = true <-> exists key, inRange range key /\ covered this key) /\
     (any = true <->
      covered this range.1 \/ covered this range.2
      \/ exists entry, entry ∈ this /\ strictlyInside range entry)) /\
  (exists any,
     RangeSet.hasAny set raw = Ok any /\
     (any = true <->
      exists key, inRange range key
                  /\ RangeSet.contains (RangeSet.iterator set) key)).
Proof.
  intros Hmap%invariant_chained Hset%set_invariant%invariant_chained Hraw.
  pose proof (assertRange_ordered raw range Hraw) as Hr.
  split.
  - eexists. split; [by apply (hasAny_spec strictEq) |].
    rewrite bool_decide_eq_true. split.
    + by apply (meets_covered strictEq).
    + etrans; [apply (filter_nonempty (meets range)) |]. by apply (meets_cases strictEq).
  - eexists. split; [by apply (hasAny_spec RangeSet.zeroEq) |].
    rewrite bool_decide_eq_true, (meets_covered RangeSet.zeroEq) by done.
    split; intros (key & Hkey & Hcov); exists key; (split; [done |]);
      by apply set_contains.
Qed.

Lemma hasAny_iff_some_key_covered_witness :
  hasAny Readme.rangeMap (Readme.range (-1) 0) = Ok false /\
  RangeSet.hasAny Readme.rangeSet (Readme.range (-10) 10) = Ok true /\
  ~ exists key, inRange (-1, 0) key /\ covered Readme.rangeMap key.
Proof.
  destruct (hasAny_iff_some_key_covered Z Z.eqb Readme.rangeMap Readme.rangeSet
              (Readme.range (-1) 0) (-1, 0)) as [(any & Hany & Hiff & _) _].
  - prove_invariant.
  - prove_set_invariant.
  - reflexivity.
  - split; [reflexivity |]. split; [reflexivity |].
    intros Hsome. apply Hiff in Hsome. vm_compute in Hany. congruence.
Defined.



Lemma eqb_symmetric (u v : Z) : (u =? v) = true -> (v =? u) = true.
Proof. rewrite !Z.eqb_eq. lia. Qed.

Lemma eqb_transitive (u v w : Z) :
  (u =? v) = true -> (v =? w) = true -> (u =? w) = true.
Proof. rewrite !Z.eqb_eq. lia. Qed.


Section SliceFacts.
Context {Value : Type}.
Variable strictEq : Value -> Value -> bool.
Local Abbreviation entry := (RangeEntry Value).
Local Abbreviation entries := (list entry).

Lemma chained_meeting (this : entries) (range : Range) :
  chained strictEq this -> range.1 <= range.2 ->
  chained strictEq (filter (meets range) this).
Proof.
  intros Hch Hr. pose proof (partition strictEq this range Hch Hr) as Hpart.
  rewrite Hpart in Hch.
  by apply chained_app_r, chained_app_l in Hch.
Qed.

(* Among consecutive entries that all meet the range, only the first can
   start before the range and only the last can end after it. *)
Lemma clip_positions (mid : entries) (range : Range) (i : nat) (x : entry) :
  chained strictEq mid -> Forall (meets range) mid ->
  mid !! i = Some x ->
  clip range x
  = ((if decide (i = 0%nat) then Z.max range.1 (startOf x) else startOf x,
      if decide (S i = length mid) then Z.min range.2 (endOf x) else endOf x),
     valueOf x).
Proof.
  intros Hch Hmeets Hi. destruct x as [[start end_] value]. cbn.
  assert (i <> 0%nat -> range.1 <= start) as Hstart.
  { intros Hpos. destruct mid as [| first rest]; [done |].
    destruct i as [| i]; [done |]. cbn in Hi.
    apply chained_above in Hch. apply Forall_cons in Hmeets as [Hfirst _].
    rewrite Forall_forall in Hch.
    specialize (Hch _ (list_elem_of_lookup_2 _ _ _ Hi)). entry_arith. }
  assert (S i <> length mid -> end_ <= range.2) as Hend.
  { intros Hlast. pose proof (lookup_lt_Some _ _ _ Hi) as Hlt.
    rewrite <- (take_drop_middle _ _ _ Hi) in Hch.
    apply chained_after in Hch.
    destruct (drop (S i) mid) as [| next rest] eqn:Hdrop.
    { apply (f_equal length) in Hdrop. rewrite length_drop in Hdrop.
      cbn in Hdrop. lia. }
    apply Forall_cons in Hch as [Hnext _].
    assert (next ∈ mid) as Hin.
    { rewrite <- (take_drop (S i) mid), Hdrop.
      apply elem_of_app. right. apply list_elem_of_here. }
    rewrite Forall_forall in Hmeets. specialize (Hmeets _ Hin). entry_arith. }
  do 2 case_decide; repeat f_equal; lia.
Qed.

Lemma resolve_preserved (h h' : list Range) (this : list (nat * Value))
    (view : entries) :
  Store.resolve h this = Ok view ->
  (forall address : nat,
     (address < length h)%nat -> h' !! address = h !! address) ->
  Store.resolve h' this = Ok view.
Proof.
  rewrite !resolve_Forall2. intros Hview Hsame.
  eapply Forall2_impl; [exact Hview |].
  intros reference resolved [Hlookup Hvalue]. split; [| done].
  rewrite Hsame; [done |]. by eapply lookup_lt_Some.
Qed.

End SliceFacts.

(** C8.  On a map that satisfies the class invariant and for a valid
    range, [slice] returns the entries that meet the range, in order and
    with their values, the start of the first raised to the start of the
    range and the end of the last lowered to the end of the range.  In the
    result a key of the range has the value it has in the map and no other
    key has one; the result is empty when no entry meets the range, and it
    satisfies the invariant.  The result is a new instance made of new
    range arrays: no range array that existed before the call is written,
    so the map reads as before. *)
Theorem slice_returns_portions_within_range
  (Value : Type) (strictEq : Value -> Value -> bool)
  (this : SortedRangeMap Value) (raw : ReadonlyRange) (range : Range) :
  invariant strictEq this ->
  assertRange raw = Ok range ->
  exists copy,
    slice this raw = Ok copy /\
    copy = clip range <$> filter (meets range) this /\
    (forall key,
       valueAt copy key
       = if decide (inRange range key) then valueAt this key else None) /\
    length copy = length (filter (meets range) this) /\
    (forall (i : nat) entry,
       filter (meets range) this !! i = Some entry ->
       copy !! i
       = Some ((if decide (i = 0%nat) then Z.max range.1 (startOf entry)
                else startOf entry,
                if decide (S i = length copy) then Z.min range.2 (endOf entry)
                else endOf entry),
               valueOf entry)) /\
    ((forall entry, entry ∈ this -> ~ meets range entry) -> copy = []) /\
    invariant strictEq copy /\
    (forall (h : list Range) (references : list (nat * Value)),
       Store.resolve h references = Ok this ->
       exists copied h',
         Store.slice h references raw = Ok (copied, h') /\
         Store.resolve h' copied = Ok copy /\
         Store.resolve h' references = Ok this /\
         forall address : nat,
           (address < length h)%nat -> h' !! address = h !! address) /\
    (forall store (reference : nat),
       store !! reference = Some this ->
       Store.sliceInstance store reference raw
       = Ok (length store, store ++ [copy])).
Proof.
  intros Hch%invariant_chained Hraw.
  pose proof (assertRange_ordered raw range Hraw) as Hr.
  pose proof (slice_spec strictEq this raw range Hch Hraw Hr) as Hslice.
  exists (clip range <$> filter (meets range) this). split_and!.
  - done.
  - done.
  - intros key. rewrite valueAt_clip. case_decide; [| done].
    by apply valueAt_filter_meets.
  - by rewrite length_fmap.
  - intros i entry Hi. rewrite list_lookup_fmap, Hi, length_fmap. cbn. f_equal.
    apply (clip_positions strictEq); [| | done].
    + by apply chained_meeting.
    + apply Forall_forall. by intros x [? _]%list_elem_of_filter.
  - intros Hnone. rewrite (filter_none (meets range)); [done |].
    by apply Forall_forall.
  - apply invariant_chained. by apply chained_slice.
  - intros h references Hview.
    pose proof (slice_heap h references this raw Hview) as Hheap.
    rewrite Hslice in Hheap. destruct Hheap as (copied & h' & ? & ? & Hsame).
    exists copied, h'. split_and!; try done.
    by apply (resolve_preserved h).
  - intros store reference Hthis. unfold Store.sliceInstance.
    by rewrite Hthis, Hslice.
Qed.

Lemma slice_returns_portions_within_range_witness :
  slice Readme.rangeMap (Readme.range 2 5) = Ok [((2, 2), 42); ((3, 5), 3)] /\
  exists copy,
    slice Readme.rangeMap (Readme.range 2 5) = Ok copy /\
    valueAt copy 6 = None.
Proof.
  destruct (slice_returns_portions_within_range Z Z.eqb Readme.rangeMap
              (Readme.range 2 5) (2, 5))
    as (copy & Hslice & _ & Hvalue & _).
  - prove_invariant.
  - reflexivity.
  - split; [reflexivity |]. exists copy. split; [exact Hslice |].
    by rewrite Hvalue.
Defined.



Lemma invalid_dec (raw : ReadonlyRange) : invalid raw \/ ~ invalid raw.
Proof.
  unfold invalid.
  destruct (isSafeInteger raw.1), (isSafeInteger raw.2), (gt raw.1 raw.2);
    intuition congruence.
Qed.

Lemma assertRange_valid (raw : ReadonlyRange) :
  ~ invalid raw -> exists range, assertRange raw = Ok range.
Proof. intros Hvalid. eexists. by apply assertRange_Ok. Qed.

Lemma assertRange_invalid (raw : ReadonlyRange) :
  invalid raw -> assertRange raw = Throw InvalidRange.
Proof. intros Hinvalid. by apply assertRange_Throw. Qed.

Lemma Exists_Forall_not {A : Type} (P : A -> Prop) (l : list A) :
  Exists P l -> Forall (fun x => ~ P x) l -> False.
Proof.
  rewrite Exists_exists, Forall_forall. intros (x & Hx & HP) Hall.
  by apply (Hall x).
Qed.

Section ConstructorFacts.
Context {Value : Type}.
Variable strictEq : Value -> Value -> bool.
Hypothesis strictEq_sym : forall u v, strictEq u v = true -> strictEq v u = true.
Hypothesis strictEq_trans : forall u v w,
  strictEq u v = true -> strictEq v w = true -> strictEq u w = true.

Lemma constructor_result (entries : option (list (ReadonlyEntry Value))) :
  match constructor strictEq entries with
  | Ok this =>
      chained strictEq this /\
      forall given, entries = Some given ->
                    Forall (fun e : ReadonlyEntry Value => ~ invalid e.1) given
  | Throw e =>
      e = InvalidRange /\
      exists given, entries = Some given /\
                    Exists (fun e : ReadonlyEntry Value => invalid e.1) given
  end.
Proof.
  destruct entries as [given |]; cbn.
  - pose proof (setEach_result strictEq strictEq_sym strictEq_trans given [] I)
      as Hresult.
    destruct (setEach strictEq [] given) as [this | e].
    + destruct Hresult. split; [done |]. by intros ? [= <-].
    + destruct Hresult. split; [done |]. by exists given.
  - split; [done |]. by intros ? [=].
Qed.

End ConstructorFacts.

Lemma set_constructor_result (ranges : option (list ReadonlyRange)) :
  match RangeSet.constructor ranges with
  | Ok set =>
      chained RangeSet.zeroEq (RangeSet.map set) /\
      forall given, ranges = Some given ->
                    Forall (fun range => ~ invalid range) given
  | Throw e =>
      e = InvalidRange /\
      exists given, ranges = Some given /\ Exists invalid given
  end.
Proof.
  destruct ranges as [given |]; cbn.
  - pose proof (addEach_setEach given {| RangeSet.map := [] |}) as Hadd.
    pose proof (setEach_result RangeSet.zeroEq zeroEq_sym zeroEq_trans
                  ((fun range : ReadonlyRange => (range, RangeSet.zero)) <$> given)
                  [] I) as Hresult.
    cbn in Hadd.
    destruct (RangeSet.addEach _ given) as [set | e],
      (setEach RangeSet.zeroEq [] _) as [delegate | e']; try done.
    + destruct Hresult as [Hch Hvalid]. subst delegate. split; [done |].
      intros ? [= <-]. by rewrite Forall_fmap in Hvalid.
    + destruct Hresult as [-> Hinvalid]. subst e. split; [done |].
      exists given. split; [done |]. by rewrite Exists_fmap in Hinvalid.
  - split; [done |]. by intros ? [=].
Qed.

(** C1.  The class invariant holds after every operation.  A map built by
    the constructor from any entries, and then taken through any sequence
    of [set], [delete], [clear] and [slice] (each state being the instance
    the operation leaves or, for [slice], the instance it returns),
    satisfies at every step: each range has start <= end, each entry ends
    before the next one starts, and no two consecutive entries are adjacent
    with equal values.  A set built by its constructor and taken through
    any sequence of calls keeps at every step: each range has start <= end,
    and consecutive ranges are apart by at least one missing key.  Equality
    of values is the [===] of the code, of which only symmetry and
    transitivity are used. *)
Theorem invariant_holds_after_every_operation
  (Value : Type) (strictEq : Value -> Value -> bool)
  (entries : option (list (ReadonlyEntry Value)))
  (this : SortedRangeMap Value) (ops : list operation)
  (ranges : option (list ReadonlyRange))
  (set : RangeSet.SortedRangeSet) (calls : list RangeSet.call) :
  (forall u v, strictEq u v = true -> strictEq v u = true) ->
  (forall u v w,
     strictEq u v = true -> strictEq v w = true -> strictEq u w = true) ->
  constructor strictEq entries = Ok this ->
  RangeSet.constructor ranges = Ok set ->
  Forall (invariant strictEq) (states strictEq this ops) /\
  Forall (fun set' => RangeSet.invariant (RangeSet.iterator set'))
         (RangeSet.states set calls).
Proof.
  intros Hsym Htrans Hthis Hset. split.
  - pose proof (constructor_result strictEq Hsym Htrans entries) as Hresult.
    rewrite Hthis in Hresult. destruct Hresult as [Hch _].
    eapply Forall_impl; [by apply (states_chained strictEq Hsym Htrans) |].
    intros this'. apply invariant_chained.
  - pose proof (set_constructor_result ranges) as Hresult.
    rewrite Hset in Hresult. destruct Hresult as [Hch _].
    eapply Forall_impl; [by apply set_states_invariant |].
    intros set' Hset'. cbn in Hset'. by apply set_invariant, invariant_chained.
Qed.

Lemma invariant_holds_after_every_operation_witness :
  Forall (invariant Z.eqb)
    (states Z.eqb Readme.rangeMap
       [Set_ (Readme.range 0 0) 42; Delete (Readme.range (-3) 5);
        Slice (Readme.range 6 6); Clear]) /\
  Forall (fun set' => RangeSet.invariant (RangeSet.iterator set'))
    (RangeSet.states Readme.rangeSet
       [RangeSet.Add (Readme.range (-1) 0); RangeSet.Delete (Readme.range 2 2);
        RangeSet.Slice (Readme.range 0 1); RangeSet.Clear]).
Proof.
  apply (invariant_holds_after_every_operation Z Z.eqb
           (Some [(Readme.range (-4) (-2), 8); (Readme.range 1 2, 42);
                  (Readme.range 3 7, 3)])
           Readme.rangeMap _
           (Some [Readme.range (-4) (-2); Readme.range 1 2; Readme.range 3 7])
           Readme.rangeSet).
  - exact eqb_symmetric.
  - exact eqb_transitive.
  - reflexivity.
  - reflexivity.
Defined.

(** C9.  The set is its map with the placeholder value.  Its constructor
    gives the map that the map's constructor gives from the same ranges,
    each paired with the placeholder, or throws the same error.  For every
    sequence of calls, the set observed through its own methods and the
    map driven as the specification says -- [add] as [set] with the
    placeholder, [slice] as the map's [slice] wrapped in a new set, and
    [delete], [clear], [has], [hasAll], [hasAny], [at], [get], [indexOf],
    [size], [keys] and iteration forwarded with values stripped -- give the
    same observations, and after each call the set's map is the map the
    specification has. *)
Theorem set_is_map_with_placeholder
  (ranges : option (list ReadonlyRange)) (this : RangeSet.SortedRangeSet)
  (calls : list RangeSet.call) (c : RangeSet.call) :
  match RangeSet.constructor ranges,
        constructor RangeSet.zeroEq
          ((fun given : list ReadonlyRange =>
              (fun range : ReadonlyRange => (range, RangeSet.zero)) <$> given)
           <$> ranges)
  with
  | Ok set, Ok delegate => RangeSet.map set = delegate
  | Throw e, Throw e' => e = e'
  | _, _ => False
  end /\
  RangeSet.trace RangeSet.perform this calls
  = RangeSet.trace RangeSet.specified (RangeSet.map this) calls /\
  (RangeSet.perform this c).1 = (RangeSet.specified (RangeSet.map this) c).1 /\
  RangeSet.map (RangeSet.perform this c).2
  = (RangeSet.specified (RangeSet.map this) c).2 /\
  RangeSet.map (RangeSet.run this calls)
  = foldl (fun delegate c' => (RangeSet.specified delegate c').2)
      (RangeSet.map this) calls.
Proof.
  split_and!.
  - destruct ranges as [given |]; cbn; [| done].
    pose proof (addEach_setEach given {| RangeSet.map := [] |}) as Hadd.
    cbn in Hadd.
    by destruct (RangeSet.addEach _ given), (setEach RangeSet.zeroEq [] _).
  - apply trace_specified.
  - apply perform_specified.
  - apply perform_specified.
  - revert this. induction calls as [| c' calls IH]; intros this; [done |].
    cbn. unfold RangeSet.run in IH. rewrite IH. f_equal.
    apply perform_specified.
Qed.



(* ===================================================================== *)
(** ** Runs of the methods on the receiver *)
(* ===================================================================== *)

(** Unfolds a run of a method down to the functions on entries. *)
Ltac run_method :=
  unfold Stateful.entryAt, Stateful.indexOf, Stateful.indicesOf, Stateful.size;
  unfold mbind, mret, Stateful.method_bind, Stateful.method_ret,
    Stateful.read, Stateful.write, Stateful.modify, Stateful.lift,
    result_bind;
  cbn.

Section RunFacts.
Context {Value : Type}.
Variable strictEq : Value -> Value -> bool.
Local Abbreviation entry := (RangeEntry Value).
Local Abbreviation entries := (list entry).

Lemma run_deleteFromSingleRange (this : entries) (i : Z) (range : Range) :
  Stateful.deleteFromSingleRange i range this
  = match deleteFromSingleRange this i range with
    | Ok this' => (Ok tt, this')
    | Throw e => (Throw e, this)
    end.
Proof.
  destruct range as [deleteStart deleteEnd].
  unfold Stateful.deleteFromSingleRange, deleteFromSingleRange. run_method.
  destruct (element this i) as [[[targetStart targetEnd] value] | e]; [| done].
  by destruct (deleteStart <=? targetStart), (deleteEnd >=? targetEnd).
Qed.

Lemma run_maybeMerge (this : entries) (i : Z) :
  Stateful.maybeMergeWithPreviousEntry strictEq i this
  = match maybeMergeWithPreviousEntry strictEq this i with
    | Ok this' => (Ok tt, this')
    | Throw e => (Throw e, this)
    end.
Proof.
  unfold Stateful.maybeMergeWithPreviousEntry, maybeMergeWithPreviousEntry.
  destruct (i =? 0); [done |]. run_method.
  destruct (element this i) as [[[start end_] value] | e]; [| done].
  destruct (element this (i - 1))
    as [[[previousStart previousEnd] previousValue] | e]; [| done].
  by destruct (negb _).
Qed.

(* A run that returns leaves what the function on entries returns; a run
   that throws, throws what the function throws. *)
Lemma run_delete_ (this : entries) (range : Range) :
  match delete_ this range with
  | Ok (deleted, this') => Stateful.delete_ range this = (Ok deleted, this')
  | Throw e => Stateful.outcome (Stateful.delete_ range this) = Throw e
  end.
Proof.
  unfold Stateful.delete_, delete_. run_method.
  destruct (indicesOf this range) as [[[firstIndex lastIndex] |] | e];
    [| done | done].
  cbn. rewrite run_deleteFromSingleRange.
  destruct (deleteFromSingleRange this lastIndex range) as [this1 | e];
    [| done].
  cbn. destruct (negb (firstIndex =? lastIndex)); [| done].
  rewrite run_deleteFromSingleRange.
  by destruct (deleteFromSingleRange _ firstIndex range).
Qed.

Lemma run_delete (this : entries) (raw : ReadonlyRange) :
  match delete this raw with
  | Ok (deleted, this') => Stateful.delete raw this = (Ok deleted, this')
  | Throw e => Stateful.outcome (Stateful.delete raw this) = Throw e
  end.
Proof.
  unfold Stateful.delete, delete. run_method.
  destruct (assertRange raw) as [range | e]; [| done].
  apply run_delete_.
Qed.

Lemma run_set (this : entries) (raw : ReadonlyRange) (value : Value) :
  match set strictEq this raw value with
  | Ok this' => Stateful.set strictEq raw value this = (Ok tt, this')
  | Throw e => Stateful.outcome (Stateful.set strictEq raw value this) = Throw e
  end.
Proof.
  unfold Stateful.set, set. run_method.
  destruct (assertRange raw) as [range | e]; [| done].
  pose proof (run_delete_ this range) as Hdelete. cbn.
  destruct (delete_ this range) as [[deleted this1] | e].
  - rewrite Hdelete. cbn.
    destruct (indexOf this1 range.1) as [found | e]; [| done]. cbn.
    destruct (_ <? _).
    + rewrite run_maybeMerge.
      destruct (maybeMergeWithPreviousEntry strictEq _ (bitnot found + 1))
        as [this2 | e]; [| done].
      cbn. rewrite run_maybeMerge.
      by destruct (maybeMergeWithPreviousEntry strictEq this2 _).
    + rewrite run_maybeMerge.
      by destruct (maybeMergeWithPreviousEntry strictEq _ _).
  - unfold Stateful.outcome in *.
    by destruct (Stateful.delete_ range this) as [[] ?]; simplify_eq/=.
Qed.

Lemma slice_copyWithin (this : entries) (raw : ReadonlyRange) :
  slice this raw = assertRange raw ≫= Stateful.copyWithin this.
Proof. done. Qed.

Lemma run_slice (this : entries) (raw : ReadonlyRange) :
  Stateful.slice raw this = (slice this raw, this).
Proof.
  rewrite slice_copyWithin. unfold Stateful.slice. run_method.
  by destruct (assertRange raw).
Qed.

Lemma run_setEach (given : list (ReadonlyEntry Value)) (this : entries) :
  match setEach strictEq this given with
  | Ok this' => Stateful.setEach strictEq given this = (Ok tt, this')
  | Throw e => Stateful.outcome (Stateful.setEach strictEq given this) = Throw e
  end.
Proof.
  revert this. induction given as [| [raw value] rest IH]; intros this; [done |].
  cbn. pose proof (run_set this raw value) as Hset. run_method.
  destruct (set strictEq this raw value) as [this1 | e].
  - rewrite Hset. apply IH.
  - unfold Stateful.outcome in *.
    by destruct (Stateful.set strictEq raw value this) as [[] ?]; simplify_eq/=.
Qed.

(* With a range [assertRange] refuses, a run ends at once, the state
   untouched. *)
Lemma run_set_invalid (this : entries) (raw : ReadonlyRange) (value : Value) :
  invalid raw ->
  Stateful.set strictEq raw value this = (Throw InvalidRange, this).
Proof.
  intros Hraw%assertRange_invalid. unfold Stateful.set. run_method.
  by rewrite Hraw.
Qed.

Lemma run_delete_invalid (this : entries) (raw : ReadonlyRange) :
  invalid raw -> Stateful.delete raw this = (Throw InvalidRange, this).
Proof.
  intros Hraw%assertRange_invalid. unfold Stateful.delete. run_method.
  by rewrite Hraw.
Qed.

End RunFacts.



Section InstanceFacts.
Context {S : Type}.

Lemma on_run {A} (this : nat) (m : Stateful.method S A) (objects : list S)
    (state : S) :
  objects !! this = Some state ->
  Stateful.on this m objects = ((m state).1, <[this := (m state).2]> objects).
Proof. intros Hthis. unfold Stateful.on. rewrite Hthis. by destruct (m state). Qed.

(* A run that leaves the state of the receiver as it was leaves every
   object as it was. *)
Lemma on_unchanged {A} (this : nat) (m : Stateful.method S A)
    (objects : list S) (state : S) (result : Js.result A) :
  objects !! this = Some state ->
  m state = (result, state) ->
  Stateful.on this m objects = (result, objects).
Proof.
  intros Hthis Hrun. rewrite (on_run this m objects state Hthis), Hrun. cbn.
  by rewrite list_insert_id.
Qed.

(* A run on the newest object leaves the others as they were. *)
Lemma on_newest {A} (m : Stateful.method S A) (objects : list S) (state : S) :
  Stateful.on (length objects) m (objects ++ [state])
  = ((m state).1, objects ++ [(m state).2]).
Proof.
  rewrite (on_run _ m _ state) by apply list_lookup_middle, eq_refl.
  f_equal. rewrite insert_app_r_alt by lia.
  by rewrite Nat.sub_diag.
Qed.

End InstanceFacts.

Section ConstructorRuns.
Context {Value : Type}.
Variable strictEq : Value -> Value -> bool.

(* [new SortedRangeMap(given)] returns the reference to a new instance
   holding what the constructor builds, or throws what it throws; either
   way the instances that existed are as they were. *)
Lemma run_newMap (given : option (list (ReadonlyEntry Value)))
    (maps : list (SortedRangeMap Value)) :
  exists built,
    Stateful.stateAfter (Stateful.newMap strictEq given maps) = maps ++ [built] /\
    match constructor strictEq given with
    | Ok this =>
        Stateful.outcome (Stateful.newMap strictEq given maps)
        = Ok (length maps) /\ built = this
    | Throw e =>
        Stateful.outcome (Stateful.newMap strictEq given maps) = Throw e
    end.
Proof.
  unfold Stateful.newMap, Stateful.allocate. destruct given as [given |].
  - run_method. rewrite on_newest.
    pose proof (run_setEach strictEq given []) as Hrun.
    destruct (setEach strictEq [] given) as [this | e].
    + rewrite Hrun. cbn. exists this. split_and!; reflexivity.
    + unfold Stateful.outcome in Hrun.
      destruct (Stateful.setEach strictEq given []) as [[] built]; [done |].
      simplify_eq/=. exists built. split_and!; reflexivity.
  - exists []. cbn. split_and!; reflexivity.
Qed.

End ConstructorRuns.

Lemma run_add (set : RangeSet.SortedRangeSet) (raw : ReadonlyRange) :
  match RangeSet.add set raw with
  | Ok set' => Stateful.add raw set = (Ok tt, set')
  | Throw e => Stateful.outcome (Stateful.add raw set) = Throw e
  end.
Proof.
  unfold Stateful.add, Stateful.onMap, RangeSet.add.
  pose proof (run_set RangeSet.zeroEq (RangeSet.map set) raw RangeSet.zero)
    as Hrun.
  destruct (RangeMap.set RangeSet.zeroEq _ raw RangeSet.zero) as [map' | e].
  - by rewrite Hrun.
  - unfold Stateful.outcome in *.
    by destruct (Stateful.set RangeSet.zeroEq raw RangeSet.zero _) as [[] ?].
Qed.

Lemma run_addEach (given : list ReadonlyRange) (set : RangeSet.SortedRangeSet) :
  match RangeSet.addEach set given with
  | Ok set' => Stateful.addEach given set = (Ok tt, set')
  | Throw e => Stateful.outcome (Stateful.addEach given set) = Throw e
  end.
Proof.
  revert set. induction given as [| raw rest IH]; intros set; [done |].
  cbn. pose proof (run_add set raw) as Hadd. run_method.
  destruct (RangeSet.add set raw) as [set1 | e].
  - rewrite Hadd. apply IH.
  - unfold Stateful.outcome in *.
    by destruct (Stateful.add raw set) as [[] ?]; simplify_eq/=.
Qed.

Lemma run_newSet (given : option (list ReadonlyRange))
    (sets : list RangeSet.SortedRangeSet) :
  exists built,
    Stateful.stateAfter (Stateful.newSet given sets) = sets ++ [built] /\
    match RangeSet.constructor given with
    | Ok set =>
        Stateful.outcome (Stateful.newSet given sets) = Ok (length sets)
        /\ built = set
    | Throw e => Stateful.outcome (Stateful.newSet given sets) = Throw e
    end.
Proof.
  unfold Stateful.newSet, Stateful.allocate, RangeSet.constructor.
  destruct given as [given |]; cbn.
  - run_method. rewrite on_newest.
    pose proof (run_addEach given {| RangeSet.map := [] |}) as Hrun.
    destruct (RangeSet.addEach _ given) as [set | e].
    + rewrite Hrun. cbn. exists set. split_and!; reflexivity.
    + unfold Stateful.outcome in Hrun.
      destruct (Stateful.addEach given _) as [[] built]; [done |].
      simplify_eq/=. exists built. split_and!; reflexivity.
  - eexists. cbn. split_and!; reflexivity.
Qed.

Lemma set_eta (set : RangeSet.SortedRangeSet) :
  {| RangeSet.map := RangeSet.map set |} = set.
Proof. by destruct set. Qed.

(* A run on the map of a set that leaves the map as it was leaves the set
   as it was. *)
Lemma onMap_unchanged {A} (m : Stateful.method (SortedRangeMap RangeSet.Zero) A)
    (set : RangeSet.SortedRangeSet) (result : Js.result A) :
  m (RangeSet.map set) = (result, RangeSet.map set) ->
  Stateful.onMap m set = (result, set).
Proof. intros Hrun. unfold Stateful.onMap. by rewrite Hrun, set_eta. Qed.



(** C4.  [assertRange] throws one error only, and throws it exactly when
    an end of the range is not a safe integer or the start is greater than
    the end.  With such a range every method that takes a range throws that
    error before it has written anything: run statement by statement on its
    receiver, [set], [delete], [slice], [hasAll] and [hasAny] of the map
    and [add], [delete], [slice], [hasAll] and [hasAny] of the set end with
    that error and with the receiver in the state it was in, and among the
    instances of the class every instance is as it was ([slice] of the set
    has by then created the empty set it meant to return, which nothing
    refers to).  With any other range, on a receiver that satisfies the
    invariant, none of them throws.  The constructors throw that error
    exactly when one of the given ranges is such a range, and otherwise
    return the new instance; either way the instances that existed are as
    they were. *)
Theorem invalid_range_is_the_only_error
  (Value : Type) (strictEq : Value -> Value -> bool)
  (this : SortedRangeMap Value) (set : RangeSet.SortedRangeSet)
  (raw : ReadonlyRange) (value : Value)
  (entries : list (ReadonlyEntry Value)) (ranges : list ReadonlyRange)
  (maps : list (SortedRangeMap Value)) (sets : list RangeSet.SortedRangeSet)
  (thisMap thisSet : nat) :
  (forall u v, strictEq u v = true -> strictEq v u = true) ->
  (forall u v w,
     strictEq u v = true -> strictEq v w = true -> strictEq u w = true) ->
  invariant strictEq this ->
  RangeSet.invariant (RangeSet.iterator set) ->
  maps !! thisMap = Some this ->
  sets !! thisSet = Some set ->
  (forall e, assertRange raw = Throw e -> e = InvalidRange) /\
  (assertRange raw = Throw InvalidRange <-> invalid raw) /\
  (is_ok (assertRange raw) = true <-> ~ invalid raw) /\
  (invalid raw ->
   (Stateful.set strictEq raw value this = (Throw InvalidRange, this) /\
    Stateful.delete raw this = (Throw InvalidRange, this) /\
    Stateful.slice raw this = (Throw InvalidRange, this) /\
    Stateful.hasAll raw this = (Throw InvalidRange, this) /\
    Stateful.hasAny raw this = (Throw InvalidRange, this)) /\
   (Stateful.add raw set = (Throw InvalidRange, set) /\
    Stateful.deleteRange raw set = (Throw InvalidRange, set) /\
    Stateful.sliceRange raw set = (Throw InvalidRange, set) /\
    Stateful.hasAllRange raw set = (Throw InvalidRange, set) /\
    Stateful.hasAnyRange raw set = (Throw InvalidRange, set)) /\
   (Stateful.setOn strictEq thisMap raw value maps = (Throw InvalidRange, maps) /\
    Stateful.deleteOn thisMap raw maps = (Throw InvalidRange, maps) /\
    Stateful.sliceOn strictEq thisMap raw maps = (Throw InvalidRange, maps) /\
    Stateful.hasAllOn thisMap raw maps = (Throw InvalidRange, maps) /\
    Stateful.hasAnyOn thisMap raw maps = (Throw InvalidRange, maps)) /\
   (Stateful.addOn thisSet raw sets = (Throw InvalidRange, sets) /\
    Stateful.deleteRangeOn thisSet raw sets = (Throw InvalidRange, sets) /\
    Stateful.sliceRangeOn thisSet raw sets
    = (Throw InvalidRange, sets ++ [{| RangeSet.map := [] |}]) /\
    Stateful.hasAllRangeOn thisSet raw sets = (Throw InvalidRange, sets) /\
    Stateful.hasAnyRangeOn thisSet raw sets = (Throw InvalidRange, sets)) /\
   (RangeMap.set strictEq this raw value = Throw InvalidRange /\
    delete this raw = Throw InvalidRange /\
    slice this raw = Throw InvalidRange /\
    hasAll this raw = Throw InvalidRange /\
    hasAny this raw = Throw InvalidRange) /\
   (RangeSet.add set raw = Throw InvalidRange /\
    RangeSet.delete set raw = Throw InvalidRange /\
    RangeSet.slice set raw = Throw InvalidRange /\
    RangeSet.hasAll set raw = Throw InvalidRange /\
    RangeSet.hasAny set raw = Throw InvalidRange)) /\
  (~ invalid raw ->
   (is_ok (Stateful.outcome (Stateful.set strictEq raw value this)) = true /\
    is_ok (Stateful.outcome (Stateful.delete raw this)) = true /\
    is_ok (Stateful.outcome (Stateful.slice raw this)) = true /\
    is_ok (Stateful.outcome (Stateful.hasAll raw this)) = true /\
    is_ok (Stateful.outcome (Stateful.hasAny raw this)) = true) /\
   (is_ok (Stateful.outcome (Stateful.add raw set)) = true /\
    is_ok (Stateful.outcome (Stateful.deleteRange raw set)) = true /\
    is_ok (Stateful.outcome (Stateful.sliceRange raw set)) = true /\
    is_ok (Stateful.outcome (Stateful.hasAllRange raw set)) = true /\
    is_ok (Stateful.outcome (Stateful.hasAnyRange raw set)) = true) /\
   (is_ok (RangeMap.set strictEq this raw value) = true /\
    is_ok (delete this raw) = true /\
    is_ok (slice this raw) = true /\
    is_ok (hasAll this raw) = true /\
    is_ok (hasAny this raw) = true) /\
   (is_ok (RangeSet.add set raw) = true /\
    is_ok (RangeSet.delete set raw) = true /\
    is_ok (RangeSet.slice set raw) = true /\
    is_ok (RangeSet.hasAll set raw) = true /\
    is_ok (RangeSet.hasAny set raw) = true)) /\
  ((Stateful.outcome (Stateful.newMap strictEq (Some entries) maps)
    = Throw InvalidRange
    <-> Exists (fun e : ReadonlyEntry Value => invalid e.1) entries) /\
   (Stateful.outcome (Stateful.newMap strictEq (Some entries) maps)
    = Ok (length maps)
    <-> Forall (fun e : ReadonlyEntry Value => ~ invalid e.1) entries) /\
   (forall reference : nat,
      (reference < length maps)%nat ->
      Stateful.stateAfter (Stateful.newMap strictEq (Some entries) maps)
        !! reference
      = maps !! reference) /\
   Stateful.newMap strictEq None maps = (Ok (length maps), maps ++ [[]])) /\
  ((Stateful.outcome (Stateful.newSet (Some ranges) sets) = Throw InvalidRange
    <-> Exists invalid ranges) /\
   (Stateful.outcome (Stateful.newSet (Some ranges) sets) = Ok (length sets)
    <-> Forall (fun range => ~ invalid range) ranges) /\
   (forall reference : nat,
      (reference < length sets)%nat ->
      Stateful.stateAfter (Stateful.newSet (Some ranges) sets) !! reference
      = sets !! reference) /\
   Stateful.newSet None sets
   = (Ok (length sets), sets ++ [{| RangeSet.map := [] |}])) /\
  ((constructor strictEq (Some entries) = Throw InvalidRange
    <-> Exists (fun e : ReadonlyEntry Value => invalid e.1) entries) /\
   (is_ok (constructor strictEq (Some entries)) = true
    <-> Forall (fun e : ReadonlyEntry Value => ~ invalid e.1) entries) /\
   (RangeSet.constructor (Some ranges) = Throw InvalidRange
    <-> Exists invalid ranges) /\
   (is_ok (RangeSet.constructor (Some ranges)) = true
    <-> Forall (fun range => ~ invalid range) ranges) /\
   is_ok (constructor strictEq None) = true /\
   is_ok (RangeSet.constructor None) = true).
Proof.
  intros Hsym Htrans Hmap%invariant_chained Hset%set_invariant%invariant_chained
    HthisMap HthisSet.
  assert (invalid raw ->
          RangeMap.set strictEq this raw value = Throw InvalidRange /\
          delete this raw = Throw InvalidRange /\
          slice this raw = Throw InvalidRange /\
          hasAll this raw = Throw InvalidRange /\
          hasAny this raw = Throw InvalidRange) as Hthrows.
  { intros Hraw%assertRange_invalid.
    unfold RangeMap.set, delete, slice, hasAll, hasAny. by rewrite Hraw. }
  assert (invalid raw ->
          Stateful.set RangeSet.zeroEq raw RangeSet.zero (RangeSet.map set)
          = (Throw InvalidRange, RangeSet.map set) /\
          Stateful.delete raw (RangeSet.map set)
          = (Throw InvalidRange, RangeSet.map set) /\
          Stateful.slice raw (RangeSet.map set)
          = (Throw InvalidRange, RangeSet.map set) /\
          Stateful.hasAll raw (RangeSet.map set)
          = (Throw InvalidRange, RangeSet.map set) /\
          Stateful.hasAny raw (RangeSet.map set)
          = (Throw InvalidRange, RangeSet.map set)) as HthrowsSet.
  { intros Hraw. pose proof (assertRange_invalid raw Hraw) as Hassert.
    split_and!.
    - by apply run_set_invalid.
    - by apply run_delete_invalid.
    - rewrite run_slice. unfold slice. by rewrite Hassert.
    - unfold Stateful.hasAll, hasAll. run_method. by rewrite Hassert.
    - unfold Stateful.hasAny, hasAny. run_method. by rewrite Hassert. }
  assert (invalid raw ->
          Stateful.set strictEq raw value this = (Throw InvalidRange, this) /\
          Stateful.delete raw this = (Throw InvalidRange, this) /\
          Stateful.slice raw this = (Throw InvalidRange, this) /\
          Stateful.hasAll raw this = (Throw InvalidRange, this) /\
          Stateful.hasAny raw this = (Throw InvalidRange, this)) as Hruns.
  { intros Hraw. pose proof (assertRange_invalid raw Hraw) as Hassert.
    split_and!.
    - by apply run_set_invalid.
    - by apply run_delete_invalid.
    - rewrite run_slice. unfold slice. by rewrite Hassert.
    - unfold Stateful.hasAll, hasAll. run_method. by rewrite Hassert.
    - unfold Stateful.hasAny, hasAny. run_method. by rewrite Hassert. }
  assert (invalid raw ->
          Stateful.add raw set = (Throw InvalidRange, set) /\
          Stateful.deleteRange raw set = (Throw InvalidRange, set) /\
          Stateful.sliceRange raw set = (Throw InvalidRange, set) /\
          Stateful.hasAllRange raw set = (Throw InvalidRange, set) /\
          Stateful.hasAnyRange raw set = (Throw InvalidRange, set)) as HrunsSet.
  { intros Hraw. destruct (HthrowsSet Hraw) as (? & ? & ? & ? & ?).
    split_and!; by apply onMap_unchanged. }
  split_and!.
  - intros e He. by apply assertRange_Throw in He as [_ ->].
  - rewrite assertRange_Throw. tauto.
  - split.
    + intros Hok Hinvalid. apply assertRange_invalid in Hinvalid.
      by rewrite Hinvalid in Hok.
    + intros (range & ->)%assertRange_valid. done.
  - intros Hraw. pose proof (assertRange_invalid raw Hraw) as Hassert.
    destruct (Hruns Hraw) as (Hr1 & Hr2 & Hr3 & Hr4 & Hr5).
    destruct (HrunsSet Hraw) as (Hs1 & Hs2 & Hs3 & Hs4 & Hs5).
    split_and!; try done; try (by apply Hthrows).
    + unfold Stateful.setOn. run_method.
      by rewrite (on_unchanged _ _ _ _ _ HthisMap Hr1).
    + by apply (on_unchanged _ _ _ this).
    + unfold Stateful.sliceOn. run_method. by rewrite Hassert.
    + by apply (on_unchanged _ _ _ this).
    + by apply (on_unchanged _ _ _ this).
    + unfold Stateful.addOn. run_method.
      by rewrite (on_unchanged _ _ _ _ _ HthisSet Hs1).
    + by apply (on_unchanged _ _ _ set).
    + unfold Stateful.sliceRangeOn, Stateful.newSet, Stateful.allocate.
      run_method.
      by rewrite (on_unchanged thisSet _ _ set (Throw InvalidRange))
        by (done || by apply lookup_app_l_Some).
    + by apply (on_unchanged _ _ _ set).
    + by apply (on_unchanged _ _ _ set).
    + unfold RangeSet.add, RangeMap.set. by rewrite Hassert.
    + unfold RangeSet.delete, delete. by rewrite Hassert.
    + unfold RangeSet.slice, slice. by rewrite Hassert.
    + unfold RangeSet.hasAll, hasAll. by rewrite Hassert.
    + unfold RangeSet.hasAny, hasAny. by rewrite Hassert.
  - intros (range & Hraw)%assertRange_valid.
    pose proof (assertRange_ordered raw range Hraw) as Hr.
    pose proof (run_set strictEq this raw value) as Hrun1.
    pose proof (run_delete this raw) as Hrun2.
    pose proof (run_set RangeSet.zeroEq (RangeSet.map set) raw RangeSet.zero)
      as Hrun3.
    pose proof (run_delete (RangeSet.map set) raw) as Hrun4.
    unfold Stateful.add, Stateful.deleteRange, Stateful.sliceRange,
      Stateful.hasAllRange, Stateful.hasAnyRange, Stateful.onMap.
    rewrite !run_slice.
    unfold Stateful.hasAll, Stateful.hasAny. run_method.
    unfold RangeSet.add, RangeSet.delete, RangeSet.slice, RangeSet.hasAll,
      RangeSet.hasAny.
    rewrite (set_spec strictEq this raw range value Hmap Hraw Hr),
      (set_spec RangeSet.zeroEq _ raw range RangeSet.zero Hset Hraw Hr),
      (delete_spec strictEq this raw range),
      (delete_spec RangeSet.zeroEq _ raw range),
      (slice_spec strictEq this raw range Hmap Hraw Hr),
      (slice_spec RangeSet.zeroEq _ raw range Hset Hraw Hr),
      (hasAll_spec strictEq this raw range Hmap Hraw Hr),
      (hasAll_spec RangeSet.zeroEq _ raw range Hset Hraw Hr),
      (hasAny_spec strictEq this raw range Hmap Hraw Hr),
      (hasAny_spec RangeSet.zeroEq _ raw range Hset Hraw Hr) in *;
      try (done || by apply invariant_chained).
    by rewrite Hrun1, Hrun2, Hrun3, Hrun4.
  - destruct (run_newMap strictEq (Some entries) maps) as (built & _ & Hrun).
    pose proof (constructor_result strictEq Hsym Htrans (Some entries))
      as Hresult.
    destruct (constructor strictEq (Some entries)) as [this' | e].
    + destruct Hrun as [-> _], Hresult as [_ Hvalid]. split; [done |].
      intros Hinvalid.
      destruct (Exists_Forall_not _ _ Hinvalid (Hvalid _ eq_refl)).
    + rewrite Hrun. by destruct Hresult as [-> (given & [= <-] & Hinvalid)].
  - destruct (run_newMap strictEq (Some entries) maps) as (built & _ & Hrun).
    pose proof (constructor_result strictEq Hsym Htrans (Some entries))
      as Hresult.
    destruct (constructor strictEq (Some entries)) as [this' | e].
    + destruct Hrun as [-> _], Hresult as [_ Hvalid]. split; [| done].
      intros _. by apply Hvalid.
    + rewrite Hrun. destruct Hresult as [-> (given & [= <-] & Hinvalid)].
      split; [done |].
      intros Hvalid. destruct (Exists_Forall_not _ _ Hinvalid Hvalid).
  - intros reference Hreference.
    destruct (run_newMap strictEq (Some entries) maps) as (built & -> & _).
    by apply lookup_app_l.
  - done.
  - destruct (run_newSet (Some ranges) sets) as (built & _ & Hrun).
    pose proof (set_constructor_result (Some ranges)) as Hresult.
    destruct (RangeSet.constructor (Some ranges)) as [set' | e].
    + destruct Hrun as [-> _], Hresult as [_ Hvalid]. split; [done |].
      intros Hinvalid.
      destruct (Exists_Forall_not _ _ Hinvalid (Hvalid _ eq_refl)).
    + rewrite Hrun. by destruct Hresult as [-> (given & [= <-] & Hinvalid)].
  - destruct (run_newSet (Some ranges) sets) as (built & _ & Hrun).
    pose proof (set_constructor_result (Some ranges)) as Hresult.
    destruct (RangeSet.constructor (Some ranges)) as [set' | e].
    + destruct Hrun as [-> _], Hresult as [_ Hvalid]. split; [| done].
      intros _. by apply Hvalid.
    + rewrite Hrun. destruct Hresult as [-> (given & [= <-] & Hinvalid)].
      split; [done |].
      intros Hvalid. destruct (Exists_Forall_not _ _ Hinvalid Hvalid).
  - intros reference Hreference.
    destruct (run_newSet (Some ranges) sets) as (built & -> & _).
    by apply lookup_app_l.
  - done.
  - pose proof (constructor_result strictEq Hsym Htrans (Some entries))
      as Hresult.
    destruct (constructor strictEq (Some entries)) as [this' | e].
    + destruct Hresult as [_ Hvalid]. split; [done |].
      intros Hinvalid. destruct (Exists_Forall_not _ _ Hinvalid (Hvalid _ eq_refl)).
    + destruct Hresult as [-> (given & [= <-] & Hinvalid)]. done.
  - pose proof (constructor_result strictEq Hsym Htrans (Some entries))
      as Hresult.
    destruct (constructor strictEq (Some entries)) as [this' | e].
    + destruct Hresult as [_ Hvalid]. split; [| done].
      intros _. by apply Hvalid.
    + destruct Hresult as [-> (given & [= <-] & Hinvalid)]. split; [done |].
      intros Hvalid. destruct (Exists_Forall_not _ _ Hinvalid Hvalid).
  - pose proof (set_constructor_result (Some ranges)) as Hresult.
    destruct (RangeSet.constructor (Some ranges)) as [set' | e].
    + destruct Hresult as [_ Hvalid]. split; [done |].
      intros Hinvalid. destruct (Exists_Forall_not _ _ Hinvalid (Hvalid _ eq_refl)).
    + destruct Hresult as [-> (given & [= <-] & Hinvalid)]. done.
  - pose proof (set_constructor_result (Some ranges)) as Hresult.
    destruct (RangeSet.constructor (Some ranges)) as [set' | e].
    + destruct Hresult as [_ Hvalid]. split; [| done].
      intros _. by apply Hvalid.
    + destruct Hresult as [-> (given & [= <-] & Hinvalid)]. split; [done |].
      intros Hvalid. destruct (Exists_Forall_not _ _ Hinvalid Hvalid).
  - done.
  - done.
Qed.

Lemma invalid_range_is_the_only_error_witness :
  invalid (Readme.range 5 2) /\
  Stateful.set Z.eqb (Readme.range 5 2) 1 Readme.rangeMap
  = (Throw InvalidRange, Readme.rangeMap) /\
  Stateful.deleteRangeOn 0 (Readme.range 5 2) [Readme.rangeSet]
  = (Throw InvalidRange, [Readme.rangeSet]) /\
  Stateful.outcome
    (Stateful.newMap Z.eqb
       (Some [(Readme.range 1 2, 42); ((NaN, ofZ 3), 7)]) [Readme.rangeMap])
  = Throw InvalidRange.
Proof.
  destruct (invalid_range_is_the_only_error Z Z.eqb Readme.rangeMap
              Readme.rangeSet (Readme.range 5 2) 1
              [(Readme.range 1 2, 42); ((NaN, ofZ 3), 7)] []
              [Readme.rangeMap] [Readme.rangeSet] 0 0)
    as (_ & Hassert & _ & Hinvalid & _ & (Hconstructor & _) & _).
  - exact eqb_symmetric.
  - exact eqb_transitive.
  - prove_invariant.
  - prove_set_invariant.
  - reflexivity.
  - reflexivity.
  - assert (invalid (Readme.range 5 2)) as Hraw
      by (apply Hassert; reflexivity).
    destruct (Hinvalid Hraw) as ((Hset & _) & _ & _ & (_ & Hdelete & _) & _).
    split; [exact Hraw |]. split; [exact Hset |]. split; [exact Hdelete |].
    apply Hconstructor. apply Exists_cons_tl, Exists_cons_hd.
    left. reflexivity.
Defined.







(* ===================================================================== *)
(** ** Lookups: [has], [get], [at], [indexOf], [keys] *)
(* ===================================================================== *)

Section LookupFacts.
Context {Value : Type}.
Variable strictEq : Value -> Value -> bool.
Local Abbreviation entry := (RangeEntry Value).
Local Abbreviation entries := (list entry).

Lemma has_spec (this : entries) (key : Z) :
  chained strictEq this ->
  has this key = Ok (bool_decide (is_Some (covering this key))).
Proof.
  intros Hch. unfold has. rewrite (indexOf_locate strictEq) by done.
  cbn. f_equal. rewrite Z.geb_leb.
  destruct (Z.leb_spec 0 (locate this key)) as [Hfound | Habsent].
  - symmetry. apply bool_decide_eq_true.
    by apply covering_is_Some, covered_filter, locate_found.
  - symmetry. apply bool_decide_eq_false.
    intros Hcov%covering_is_Some%covered_filter.
    apply locate_found in Hcov. lia.
Qed.

(* Under the invariant an entry that covers a key is the one found. *)
Lemma covering_the_entry (this : entries) (key : Z) (x : entry) :
  chained strictEq this -> x ∈ this -> covers x key ->
  covering this key = Some x.
Proof.
  intros Hch Hin Hcov. pose proof (covering_unique strictEq this key Hch) as Hone.
  unfold covering.
  assert (x ∈ filter (fun y : entry => covers y key) this) as Hx
    by by apply list_elem_of_filter.
  destruct (filter (fun y : entry => covers y key) this) as [| y [| z rest]].
  - by apply elem_of_nil in Hx.
  - apply list_elem_of_singleton in Hx. by subst.
  - unfold size in Hone. cbn in Hone. lia.
Qed.

(* Two positions of a map under the invariant hold different entries. *)
Lemma chained_index_inj (this : entries) (i j : Z) (x : entry) :
  chained strictEq this ->
  index this i = Some x -> index this j = Some x -> i = j.
Proof.
  intros Hch Hi Hj.
  pose proof (chained_index_ordered strictEq this i x Hch Hi) as Hord.
  destruct (Z.lt_trichotomy i j) as [Hlt | [Heq | Hgt]]; [| done |].
  - pose proof (chained_index_lt strictEq this i j x x Hch Hi Hj Hlt). lia.
  - pose proof (chained_index_lt strictEq this j i x x Hch Hj Hi Hgt). lia.
Qed.

Lemma keys_cons (x : entry) (rest : entries) :
  keys (x :: rest) = seqZ (startOf x) (endOf x - startOf x + 1) ++ keys rest.
Proof. by destruct x as [[start end_] value]. Qed.

Lemma elem_of_keys (this : entries) (key : Z) :
  key ∈ keys this <-> covered this key.
Proof.
  unfold keys, covered. rewrite list_elem_of_bind. split.
  - intros ([[start end_] value] & Hkey & Hin). eexists. split; [done |].
    apply elem_of_seqZ in Hkey. entry_arith.
  - intros ([[start end_] value] & Hin & Hcov). eexists. split; [| done].
    apply elem_of_seqZ. entry_arith.
Qed.

Lemma seqZ_ascending (start len : Z) : StronglySorted Z.lt (seqZ start len).
Proof.
  destruct (Z.le_gt_cases len 0) as [Hneg | Hpos].
  { rewrite seqZ_nil by done. constructor. }
  rewrite <- (Z2Nat.id len) by lia. generalize (Z.to_nat len) as n.
  clear. intros n. revert start. induction n as [| n IH]; intros start.
  { constructor. }
  rewrite seqZ_cons by lia. constructor.
  - replace (Z.pred (Z.of_nat (S n))) with (Z.of_nat n) by lia. apply IH.
  - apply Forall_forall. intros k Hk%elem_of_seqZ. lia.
Qed.

Lemma keys_ascending (this : entries) :
  chained strictEq this -> StronglySorted Z.lt (keys this).
Proof.
  induction this as [| x rest IH]; intros Hch; [constructor |].
  rewrite keys_cons. apply StronglySorted_app. split_and!.
  - intros k l Hk%elem_of_seqZ (y & Hy & Hcov)%elem_of_keys.
    apply chained_above in Hch. rewrite Forall_forall in Hch.
    specialize (Hch y Hy). entry_arith.
  - apply seqZ_ascending.
  - apply IH. by apply chained_tail in Hch.
Qed.

End LookupFacts.






(** X4.  On a map or a set that satisfies the class invariant, [keys]
    yields each covered key once, in increasing order: a key is yielded
    exactly when an entry covers it, and the keys yielded are strictly
    increasing. *)
Theorem keys_are_the_covered_keys_ascending
  (Value : Type) (strictEq : Value -> Value -> bool)
  (this : SortedRangeMap Value) (set : RangeSet.SortedRangeSet) :
  invariant strictEq this ->
  RangeSet.invariant (RangeSet.iterator set) ->
  ((forall key, key ∈ keys this <-> covered this key) /\
   StronglySorted Z.lt (keys this) /\ NoDup (keys this)) /\
  ((forall key,
      key ∈ RangeSet.keys set <-> RangeSet.contains (RangeSet.iterator set) key) /\
   StronglySorted Z.lt (RangeSet.keys set) /\ NoDup (RangeSet.keys set)).
Proof.
  assert (forall l : list Z, StronglySorted Z.lt l -> NoDup l) as Hnodup.
  { intros l. induction 1 as [| k l Hl IH Hall]; constructor; [| done].
    intros Hin. rewrite Forall_forall in Hall. specialize (Hall k Hin). lia. }
  intros Hmap%invariant_chained Hset%set_invariant%invariant_chained. split.
  - pose proof (keys_ascending strictEq this Hmap). split_and!; [| done | auto].
    apply elem_of_keys.
  - pose proof (keys_ascending RangeSet.zeroEq _ Hset).
    split_and!; [| done | auto].
    intros key. unfold RangeSet.keys. rewrite elem_of_keys. symmetry.
    apply set_contains.
Qed.

Lemma keys_are_the_covered_keys_ascending_witness :
  keys Readme.rangeMap = [-4; -3; -2; 1; 2; 3; 4; 5; 6; 7] /\
  StronglySorted Z.lt (keys Readme.rangeMap) /\
  NoDup (RangeSet.keys Readme.rangeSet).
Proof.
  destruct (keys_are_the_covered_keys_ascending Z Z.eqb Readme.rangeMap
              Readme.rangeSet) as [(_ & Hsorted & _) (_ & _ & Hnodup)].
  - prove_invariant.
  - prove_set_invariant.
  - split; [reflexivity |]. split; [exact Hsorted | exact Hnodup].
Defined.

(** X5.  On a map that satisfies the class invariant, [indexOf] undoes
    [at]: for the entry [at] returns at an index, counted from either end,
    [indexOf] of every key of its range is the position of that entry. *)
Theorem indexOf_of_a_key_of_the_entry_at
  (Value : Type) (strictEq : Value -> Value -> bool)
  (this : SortedRangeMap Value) (index key : Z) (entry : RangeEntry Value) :
  invariant strictEq this ->
  at_ this index = Some entry ->
  covers entry key ->
  indexOf this key = Ok (if index <? 0 then size this + index else index) /\
  0 <= (if index <? 0 then size this + index else index) < size this /\
  get this key = Ok (Some entry).
Proof.
  intros Hch%invariant_chained Hat Hcov.
  unfold at_, Js.at_ in Hat. set (position := if index <? 0 then _ else _) in *.
  destruct (Js.index this position) as [x |] eqn:Hposition; [| done].
  cbn in Hat. rewrite cloneEntry_id in Hat. injection Hat as ->.
  pose proof (index_bounds _ _ _ Hposition) as Hbounds.
  pose proof (index_elem_of _ _ _ Hposition) as Hin.
  pose proof (covering_the_entry strictEq this key entry Hch Hin Hcov) as Hfound.
  rewrite (indexOf_locate strictEq), (get_spec strictEq) by done.
  split_and!; try lia; [| by rewrite Hfound]. f_equal.
  assert (0 <= locate this key) as Hlocated.
  { apply locate_found. intros Hnil. unfold covering in Hfound.
    by rewrite Hnil in Hfound. }
  apply (chained_index_inj strictEq this _ _ entry Hch); [| done].
  by rewrite (index_locate strictEq).
Qed.

Lemma indexOf_of_a_key_of_the_entry_at_witness :
  at_ Readme.rangeMap (-1) = Some ((3, 7), 3) /\
  indexOf Readme.rangeMap 5 = Ok 2.
Proof.
  destruct (indexOf_of_a_key_of_the_entry_at Z Z.eqb Readme.rangeMap (-1) 5
              ((3, 7), 3)) as (HindexOf & _).
  - prove_invariant.
  - reflexivity.
  - unfold covers, inRange. cbn. lia.
  - split; [reflexivity | exact HindexOf].
Defined.



(* ===================================================================== *)
(** ** The entries are determined by the associations *)
(* ===================================================================== *)

Section Canonical.
Context {Value : Type}.
Variable strictEq : Value -> Value -> bool.
Hypothesis strictEq_refl : forall v, strictEq v v = true.
Local Abbreviation entry := (RangeEntry Value).
Local Abbreviation entries := (list entry).

(* No key below the start of the first entry has a value. *)
Lemma valueAt_first (a : entry) (rest : entries) (key : Z) :
  chained strictEq (a :: rest) ->
  is_Some (valueAt (a :: rest) key) -> startOf a <= key.
Proof.
  intros Hch Hsome. pose proof Hch as [Ha _].
  rewrite valueAt_cons in Hsome. case_decide as Hcov; [entry_arith |].
  apply fmap_is_Some, covering_is_Some in Hsome as (c & Hc & Hkey).
  apply chained_above in Hch. rewrite Forall_forall in Hch.
  specialize (Hch c Hc). entry_arith.
Qed.

Lemma valueAt_start (a : entry) (rest : entries) :
  chained strictEq (a :: rest) ->
  valueAt (a :: rest) (startOf a) = Some (valueOf a).
Proof.
  intros [Ha _]. rewrite valueAt_cons. case_decide as Hcov; [done |].
  exfalso. apply Hcov. entry_arith.
Qed.

(* Past the first entry the values are those of the entries after it. *)
Lemma valueAt_rest (a : entry) (rest : entries) (key : Z) :
  chained strictEq (a :: rest) ->
  valueAt rest key
  = if decide (key <= endOf a) then None else valueAt (a :: rest) key.
Proof.
  intros Hch. rewrite valueAt_cons. case_decide as Hkey.
  - apply valueAt_none. apply chained_above in Hch.
    eapply Forall_impl; [exact Hch |]. intros c Hc. entry_arith.
  - case_decide as Hcov; [| done]. entry_arith.
Qed.

(* The first entry of one map does not end before that of another map
   with the same values: the next key would have the same value, in an
   entry that touches the first. *)
Lemma first_end_le (a b : entry) (l m : entries) :
  chained strictEq (a :: l) -> chained strictEq (b :: m) ->
  (forall key, valueAt (a :: l) key = valueAt (b :: m) key) ->
  startOf a = startOf b -> valueOf a = valueOf b ->
  endOf b <= endOf a.
Proof.
  intros Hal Hbm Hsame Hstart Hvalue.
  destruct (Z.le_gt_cases (endOf b) (endOf a)) as [| Hlt]; [done |].
  exfalso. specialize (Hsame (endOf a + 1)).
  pose proof Hal as [Ha _]. pose proof Hbm as [Hb _].
  rewrite (valueAt_cons b) in Hsame.
  case_decide as Hcov; [| apply Hcov; entry_arith].
  rewrite (valueAt_cons a) in Hsame.
  case_decide as Hcov'; [entry_arith |].
  destruct l as [| h l']; [done |].
  destruct Hal as (_ & [Hapart Hmerge] & Hl).
  assert (startOf h <= endOf a + 1) as Hh.
  { apply (valueAt_first h l'); [done |]. by rewrite Hsame. }
  pose proof Hl as [Hh' _].
  rewrite valueAt_cons in Hsame.
  case_decide as Hcov''; [| apply Hcov''; entry_arith].
  apply Hmerge. split; [lia |].
  injection Hsame as ->. rewrite Hvalue. apply strictEq_refl.
Qed.

Lemma canonical (this that : entries) :
  chained strictEq this -> chained strictEq that ->
  (forall key, valueAt this key = valueAt that key) ->
  this = that.
Proof.
  revert that. induction this as [| a l IH]; intros [| b m] Hthis Hthat Hsame.
  - done.
  - specialize (Hsame (startOf b)). by rewrite valueAt_start in Hsame.
  - specialize (Hsame (startOf a)). by rewrite valueAt_start in Hsame.
  - assert (startOf a = startOf b) as Hstart.
    { apply Z.le_antisymm.
      - apply (valueAt_first a l); [done |]. rewrite Hsame.
        by rewrite valueAt_start.
      - apply (valueAt_first b m); [done |]. rewrite <- Hsame.
        by rewrite valueAt_start. }
    assert (valueOf a = valueOf b) as Hvalue.
    { pose proof (Hsame (startOf a)) as Hkey.
      rewrite valueAt_start in Hkey by done.
      rewrite Hstart, valueAt_start in Hkey by done. by injection Hkey. }
    assert (endOf a = endOf b) as Hend.
    { apply Z.le_antisymm.
      - by apply (first_end_le b a m l).
      - by apply (first_end_le a b l m). }
    assert (a = b) as <-.
    { destruct a as [[? ?] ?], b as [[? ?] ?]. entry_arith. by subst. }
    f_equal. apply IH; [by apply chained_tail in Hthis
                       | by apply chained_tail in Hthat |].
    intros key. rewrite (valueAt_rest a l), (valueAt_rest a m) by done.
    by rewrite Hsame.
Qed.

End Canonical.



Section Reflecting.
Context {Value : Type}.
Variable strictEq : Value -> Value -> bool.
Hypothesis strictEq_reflects : forall u v, strictEq u v = true <-> u = v.
Local Abbreviation entry := (RangeEntry Value).
Local Abbreviation entries := (list entry).

Lemma reflects_refl (v : Value) : strictEq v v = true.
Proof. by apply strictEq_reflects. Qed.

Lemma reflects_sym (u v : Value) : strictEq u v = true -> strictEq v u = true.
Proof. rewrite !strictEq_reflects. congruence. Qed.

Lemma reflects_trans (u v w : Value) :
  strictEq u v = true -> strictEq v w = true -> strictEq u w = true.
Proof. rewrite !strictEq_reflects. congruence. Qed.

Lemma chained_inserted_reflects (this : entries) (range : Range) (value : Value) :
  chained strictEq this -> range.1 <= range.2 ->
  chained strictEq (inserted strictEq this range value).
Proof. apply chained_inserted; [apply reflects_sym | apply reflects_trans]. Qed.

Lemma valueAt_inserted_exact (this : entries) (range : Range) (value : Value)
    (key : Z) :
  chained strictEq this -> range.1 <= range.2 ->
  valueAt (inserted strictEq this range value) key
  = if decide (inRange range key) then Some value else valueAt this key.
Proof.
  intros Hch Hr. case_decide as Hkey.
  - destruct (covering_inserted strictEq this range value key Hch Hr Hkey)
      as (m & Hm & _ & Hvalue).
    unfold valueAt. rewrite Hm. cbn. f_equal.
    destruct Hvalue as [| Hvalue]; [done |]. by apply strictEq_reflects.
  - destruct (valueAt_inserted strictEq reflects_trans this range value key
                Hch Hr Hkey) as [| (v & w & -> & -> & Hvw)]; [done |].
    f_equal. by apply strictEq_reflects.
Qed.

Lemma same_entries (this that : entries) :
  chained strictEq this -> chained strictEq that ->
  (forall key, valueAt this key = valueAt that key) -> this = that.
Proof. apply canonical, reflects_refl. Qed.

End Reflecting.

(* What is left of an entry after two ranges are removed does not depend
   on which is removed first. *)
Lemma minus_minus_comm {Value : Type} (r1 r2 : Range) (x : RangeEntry Value) :
  startOf x <= endOf x -> r1.1 <= r1.2 -> r2.1 <= r2.2 ->
  minus r1 x ≫= minus r2 = minus r2 x ≫= minus r1.
Proof.
  destruct x as [[start end_] value], r1 as [s1 e1], r2 as [s2 e2].
  unfold minus, meets, startOf, endOf. cbn. intros Hx H1 H2.
  repeat (case_decide; cbn; try lia);
    unfold minus, meets, startOf, endOf; cbn;
    repeat (case_decide; cbn; try lia); try done;
    repeat f_equal; lia.
Qed.



Lemma bind_minus_comm {Value : Type} (r1 r2 : Range)
    (this : SortedRangeMap Value) :
  Forall (fun x : RangeEntry Value => startOf x <= endOf x) this ->
  r1.1 <= r1.2 -> r2.1 <= r2.2 ->
  (this ≫= minus r1) ≫= minus r2 = (this ≫= minus r2) ≫= minus r1.
Proof.
  intros Hord H1 H2. induction Hord as [| x rest Hx Hrest IH]; [done |].
  rewrite !bind_cons, !bind_app, IH. f_equal. by apply minus_minus_comm.
Qed.

(* Once a range is deleted no entry meets it. *)
Lemma minus_leaves_none {Value : Type} (strictEq : Value -> Value -> bool)
    (this : SortedRangeMap Value) (range : Range) :
  chained strictEq this -> range.1 <= range.2 ->
  filter (meets range) (this ≫= minus range) = [].
Proof.
  intros Hch Hr. pose proof (chained_minus strictEq this range Hch Hr) as Hch'.
  apply filter_none. rewrite (minus_halves strictEq this range Hch Hr).
  pose proof (chained_ordered _ _ Hch') as Hord.
  rewrite (minus_halves strictEq this range Hch Hr) in Hord.
  pose proof (keepBelow_endsBefore range.1 this) as Hlow.
  pose proof (keepAbove_startsAfter range.2 this) as Hhigh.
  apply Forall_app in Hord as [Hord1 Hord2].
  apply Forall_app. split.
  - rewrite Forall_forall in Hlow, Hord1 |- *. intros x Hx.
    specialize (Hlow x Hx). specialize (Hord1 x Hx). entry_arith.
  - rewrite Forall_forall in Hhigh, Hord2 |- *. intros x Hx.
    specialize (Hhigh x Hx). specialize (Hord2 x Hx). entry_arith.
Qed.

(** X6.  The entries of a map are determined by what its keys are
    associated with.  Two maps that satisfy the class invariant and give
    every key the same value (or none) hold the same entries, and so
    iterate alike, provided [===] holds between each value and itself
    (which excludes [NaN]). *)
Theorem entries_determined_by_associations
  (Value : Type) (strictEq : Value -> Value -> bool)
  (this that : SortedRangeMap Value) :
  (forall v, strictEq v v = true) ->
  invariant strictEq this ->
  invariant strictEq that ->
  (forall key, valueAt this key = valueAt that key) ->
  this = that /\
  entries this = entries that /\
  ranges this = ranges that /\
  values this = values that /\
  keys this = keys that /\
  size this = size that.
Proof.
  intros Hrefl Hthis%invariant_chained Hthat%invariant_chained Hsame.
  by rewrite (canonical strictEq Hrefl this that).
Qed.

Lemma entries_determined_by_associations_witness :
  entries Readme.rangeMap = entries [((-4, -2), 8); ((1, 2), 42); ((3, 7), 3)].
Proof.
  apply (entries_determined_by_associations Z Z.eqb).
  - exact Z.eqb_refl.
  - prove_invariant.
  - prove_invariant.
  - intros key. reflexivity.
Defined.







(** X10.  Two [delete]s can be made in either order, and a [delete]
    repeated does nothing: on a map that satisfies the class invariant,
    deleting one range and then another leaves the same entries as
    deleting them the other way round, and deleting a range a second time
    returns false and leaves the entries as they are. *)
Theorem deletes_commute_and_repeat_is_no_op
  (Value : Type) (strictEq : Value -> Value -> bool)
  (this : SortedRangeMap Value) (raw1 raw2 : ReadonlyRange)
  (range1 range2 : Range) :
  invariant strictEq this ->
  assertRange raw1 = Ok range1 ->
  assertRange raw2 = Ok range2 ->
  (exists deleted12 deleted21 after,
     (delete this raw1 ≫= fun '(_, this') => delete this' raw2)
     = Ok (deleted12, after) /\
     (delete this raw2 ≫= fun '(_, this') => delete this' raw1)
     = Ok (deleted21, after)) /\
  (exists deleted after,
     delete this raw1 = Ok (deleted, after) /\
     delete after raw1 = Ok (false, after)).
Proof.
  intros Hinv Hraw1 Hraw2. pose proof Hinv as Hch%invariant_chained.
  pose proof (assertRange_ordered raw1 range1 Hraw1) as Hr1.
  pose proof (assertRange_ordered raw2 range2 Hraw2) as Hr2.
  pose proof (chained_minus strictEq this range1 Hch Hr1) as Hch1.
  pose proof (chained_minus strictEq this range2 Hch Hr2) as Hch2.
  split.
  - eexists _, _, _.
    rewrite (delete_spec strictEq this raw1 range1),
      (delete_spec strictEq this raw2 range2) by done. cbn.
    rewrite (delete_spec strictEq _ raw2 range2),
      (delete_spec strictEq _ raw1 range1) by (done || by apply invariant_chained).
    split; [done |]. f_equal. f_equal.
    symmetry. apply bind_minus_comm; [| done..].
    by apply (chained_ordered strictEq).
  - eexists _, _. split; [by apply (delete_spec strictEq) |].
    rewrite (delete_spec strictEq _ raw1 range1)
      by (done || by apply invariant_chained).
    pose proof (minus_leaves_none strictEq this range1 Hch Hr1) as Hnone.
    f_equal. f_equal.
    + apply bool_decide_eq_false. by intros Hsome.
    + apply bind_minus_apart. by apply (filter_nil_Forall (meets range1)).
Qed.

Lemma deletes_commute_and_repeat_is_no_op_witness :
  (delete Readme.rangeMap (Readme.range 2 4)
     ≫= fun '(_, this') => delete this' (Readme.range (-3) 1))
  = Ok (true, [((-4, -4), 8); ((5, 7), 3)]) /\
  exists deleted12 deleted21 after,
    (delete Readme.rangeMap (Readme.range 2 4)
       ≫= fun '(_, this') => delete this' (Readme.range (-3) 1))
    = Ok (deleted12, after) /\
    (delete Readme.rangeMap (Readme.range (-3) 1)
       ≫= fun '(_, this') => delete this' (Readme.range 2 4))
    = Ok (deleted21, after).
Proof.
  destruct (deletes_commute_and_repeat_is_no_op Z Z.eqb Readme.rangeMap
              (Readme.range 2 4) (Readme.range (-3) 1) (2, 4) (-3, 1))
    as [Hcommute _].
  - prove_invariant.
  - reflexivity.
  - reflexivity.
  - split; [reflexivity | exact Hcommute].
Defined.



Lemma assertRange_bounded (raw : ReadonlyRange) (range : Range) :
  assertRange raw = Ok range ->
  Z.abs range.1 <= MAX_SAFE_INTEGER /\ Z.abs range.2 <= MAX_SAFE_INTEGER.
Proof.
  intros [Hvalid ->]%assertRange_Ok. unfold invalid in Hvalid. cbn.
  split; apply isSafeInteger_bound.
  - destruct (isSafeInteger raw.1); [done | tauto].
  - destruct (isSafeInteger raw.2); [done | tauto].
Qed.

(* The part of an entry inside two ranges is its part inside what they
   have in common. *)
Lemma clip_twice {Value : Type} (r1 r2 : Range)
    (this : SortedRangeMap Value) :
  r1.1 <= r1.2 -> r2.1 <= r2.2 ->
  Forall (fun x : RangeEntry Value => startOf x <= endOf x) this ->
  clip r2 <$> filter (meets r2) (clip r1 <$> filter (meets r1) this)
  = if decide (Z.max r1.1 r2.1 <= Z.min r1.2 r2.2)
    then clip (Z.max r1.1 r2.1, Z.min r1.2 r2.2)
           <$> filter (meets (Z.max r1.1 r2.1, Z.min r1.2 r2.2)) this
    else [].
Proof.
  destruct r1 as [s1 e1], r2 as [s2 e2]. cbn. intros Hr1 Hr2.
  induction 1 as [| [[start end_] value] rest Hx Hrest IH].
  { by case_decide. }
  rewrite (filter_cons (meets (s1, e1))).
  destruct (decide (meets (s1, e1) (start, end_, value))) as [H1 | H1].
  - rewrite fmap_cons, (filter_cons (meets (s2, e2))).
    destruct (decide (meets (s2, e2) (clip (s1, e1) (start, end_, value))))
      as [H2 | H2].
    + rewrite fmap_cons, IH.
      destruct (decide (Z.max s1 s2 <= Z.min e1 e2)) as [Hoverlap | Hoverlap].
      * rewrite (filter_cons (meets (Z.max s1 s2, Z.min e1 e2))).
        destruct (decide (meets (Z.max s1 s2, Z.min e1 e2) (start, end_, value)))
          as [H12 | H12]; [| exfalso; apply H12; entry_arith].
        rewrite fmap_cons. f_equal. unfold clip. cbn. f_equal. f_equal; lia.
      * exfalso. entry_arith.
    + rewrite IH.
      destruct (decide (Z.max s1 s2 <= Z.min e1 e2)) as [Hoverlap | Hoverlap];
        [| done].
      rewrite (filter_cons (meets (Z.max s1 s2, Z.min e1 e2))).
      destruct (decide (meets (Z.max s1 s2, Z.min e1 e2) (start, end_, value)))
        as [H12 | H12]; [| done].
      exfalso. apply H2. entry_arith.
  - rewrite IH.
    destruct (decide (Z.max s1 s2 <= Z.min e1 e2)) as [Hoverlap | Hoverlap];
      [| done].
    rewrite (filter_cons (meets (Z.max s1 s2, Z.min e1 e2))).
    destruct (decide (meets (Z.max s1 s2, Z.min e1 e2) (start, end_, value)))
      as [H12 | H12]; [| done].
    exfalso. apply H1. entry_arith.
Qed.

(** X11.  A slice of a slice is the slice of what the two ranges have in
    common.  On a map that satisfies the class invariant, [slice] by one
    valid range and then by another returns the same entries whichever
    comes first: those of the single [slice] by the range from the greater
    start to the lesser end when the two ranges share a key, and none when
    they do not. *)
Theorem slice_of_slice_is_slice_of_overlap
  (Value : Type) (strictEq : Value -> Value -> bool)
  (this : SortedRangeMap Value) (raw1 raw2 : ReadonlyRange)
  (range1 range2 : Range) :
  invariant strictEq this ->
  assertRange raw1 = Ok range1 ->
  assertRange raw2 = Ok range2 ->
  exists inner,
    (slice this raw1 ≫= fun copy => slice copy raw2) = Ok inner /\
    (slice this raw2 ≫= fun copy => slice copy raw1) = Ok inner /\
    (Z.max range1.1 range2.1 <= Z.min range1.2 range2.2 ->
     slice this (toReadonly (Z.max range1.1 range2.1, Z.min range1.2 range2.2))
     = Ok inner) /\
    (Z.min range1.2 range2.2 < Z.max range1.1 range2.1 -> inner = []).
Proof.
  intros Hch%invariant_chained Hraw1 Hraw2.
  pose proof (assertRange_ordered raw1 range1 Hraw1) as Hr1.
  pose proof (assertRange_ordered raw2 range2 Hraw2) as Hr2.
  pose proof (assertRange_bounded raw1 range1 Hraw1) as [? ?].
  pose proof (assertRange_bounded raw2 range2 Hraw2) as [? ?].
  pose proof (chained_ordered strictEq this Hch) as Hord.
  eexists. split_and!.
  - rewrite (slice_spec strictEq this raw1 range1) by done. cbn.
    rewrite (slice_spec strictEq _ raw2 range2) by (done || by apply chained_slice).
    by rewrite clip_twice by done.
  - rewrite (slice_spec strictEq this raw2 range2) by done. cbn.
    rewrite (slice_spec strictEq _ raw1 range1) by (done || by apply chained_slice).
    rewrite clip_twice by done.
    by rewrite (Z.max_comm range2.1), (Z.min_comm range2.2).
  - intros Hoverlap. case_decide; [| done].
    apply (slice_spec strictEq); [done | | done].
    apply assertRange_ofZ; cbn; lia.
  - intros Hapart. case_decide; [lia | done].
Qed.

Lemma slice_of_slice_is_slice_of_overlap_witness :
  (slice Readme.rangeMap (Readme.range (-3) 4)
     ≫= fun copy => slice copy (Readme.range 2 9))
  = slice Readme.rangeMap (Readme.range 2 4).
Proof.
  destruct (slice_of_slice_is_slice_of_overlap Z Z.eqb Readme.rangeMap
              (Readme.range (-3) 4) (Readme.range 2 9) (-3, 4) (2, 9))
    as (inner & Hinner & _ & Hoverlap & _).
  - prove_invariant.
  - reflexivity.
  - reflexivity.
  - rewrite Hinner. symmetry. apply Hoverlap. cbn. lia.
Defined.

Lemma zeroEq_reflects (u v : RangeSet.Zero) :
  RangeSet.zeroEq u v = true <-> u = v.
Proof. by destruct u, v. Qed.

(* A key of a set is one its map gives the placeholder to. *)
Lemma set_contains_value (set : RangeSet.SortedRangeSet) (key : Z) :
  RangeSet.contains (RangeSet.iterator set) key
  <-> valueAt (RangeSet.map set) key = Some RangeSet.zero.
Proof.
  rewrite set_contains, <- covering_is_Some. unfold valueAt.
  destruct (covering (RangeSet.map set) key) as [[range []] |]; cbn.
  - split; [done | by eexists].
  - split; [by intros [] | done].
Qed.

(** X12.  On the keys a set holds, [add] is the union with a range,
    [delete] the difference and [slice] the intersection.  On a set that
    satisfies the class invariant and for a valid range: after [add] a key
    is in the set exactly when it was or lies in the range; after [delete]
    exactly when it was and does not lie in the range; in what [slice]
    returns exactly when it was and lies in the range. *)
Theorem set_add_delete_slice_on_keys
  (set : RangeSet.SortedRangeSet) (raw : ReadonlyRange) (range : Range) :
  RangeSet.invariant (RangeSet.iterator set) ->
  assertRange raw = Ok range ->
  exists added deleted removed sliced,
    RangeSet.add set raw = Ok added /\
    RangeSet.delete set raw = Ok (removed, deleted) /\
    RangeSet.slice set raw = Ok sliced /\
    (forall key,
       RangeSet.contains (RangeSet.iterator added) key
       <-> RangeSet.contains (RangeSet.iterator set) key \/ inRange range key) /\
    (forall key,
       RangeSet.contains (RangeSet.iterator deleted) key
       <-> RangeSet.contains (RangeSet.iterator set) key /\ ~ inRange range key) /\
    (forall key,
       RangeSet.contains (RangeSet.iterator sliced) key
       <-> RangeSet.contains (RangeSet.iterator set) key /\ inRange range key).
Proof.
  intros Hinv Hraw. pose proof Hinv as Hch%set_invariant%invariant_chained.
  pose proof (assertRange_ordered raw range Hraw) as Hr.
  unfold RangeSet.add, RangeSet.delete, RangeSet.slice, RangeSet.constructor,
    constructor.
  rewrite (set_spec RangeSet.zeroEq _ raw range RangeSet.zero Hch Hraw Hr),
    (delete_spec RangeSet.zeroEq _ raw range)
      by (done || by apply invariant_chained).
  rewrite (slice_spec RangeSet.zeroEq _ raw range Hch Hraw Hr).
  cbn [mbind result_bind].
  eexists _, _, _, _. split_and!; try done.
  - intros key. rewrite !set_contains_value. cbn [RangeSet.map].
    rewrite (valueAt_inserted_exact RangeSet.zeroEq zeroEq_reflects) by done.
    case_decide.
    + split; [by right | done].
    + split; [by left | by intros [? | ?]].
  - intros key. rewrite !set_contains_value. cbn [RangeSet.map].
    rewrite valueAt_minus by done.
    case_decide.
    + split; [done | by intros [_ ?]].
    + split; [done | by intros [? _]].
  - intros key. rewrite !set_contains_value. cbn [RangeSet.map].
    rewrite valueAt_clip.
    case_decide.
    + rewrite valueAt_filter_meets by done. split; [done | by intros [? _]].
    + split; [done | by intros [_ ?]].
Qed.

Lemma set_add_delete_slice_on_keys_witness :
  RangeSet.add Readme.rangeSet (Readme.range (-1) 0)
  = Ok {| RangeSet.map := [((-4, 7), RangeSet.zero)] |} /\
  exists added,
    RangeSet.add Readme.rangeSet (Readme.range (-1) 0) = Ok added /\
    RangeSet.contains (RangeSet.iterator added) 0.
Proof.
  destruct (set_add_delete_slice_on_keys Readme.rangeSet (Readme.range (-1) 0)
              (-1, 0)) as (added & _ & _ & _ & Hadd & _ & _ & Hkeys & _).
  - prove_set_invariant.
  - reflexivity.
  - split; [reflexivity |]. exists added. split; [exact Hadd |].
    apply Hkeys. right. unfold inRange. cbn. lia.
Defined.

(** X13.  [add] can be repeated and reordered.  On a set that satisfies
    the class invariant, adding two valid ranges leaves the same ranges
    whichever is added first, whether or not they overlap, and adding a
    range a second time changes nothing. *)
Theorem adds_commute_and_repeat_is_no_op
  (set : RangeSet.SortedRangeSet) (raw1 raw2 : ReadonlyRange)
  (range1 range2 : Range) :
  RangeSet.invariant (RangeSet.iterator set) ->
  assertRange raw1 = Ok range1 ->
  assertRange raw2 = Ok range2 ->
  (exists both,
     (RangeSet.add set raw1 ≫= fun set' => RangeSet.add set' raw2) = Ok both /\
     (RangeSet.add set raw2 ≫= fun set' => RangeSet.add set' raw1) = Ok both) /\
  (exists once,
     RangeSet.add set raw1 = Ok once /\ RangeSet.add once raw1 = Ok once).
Proof.
  intros Hch%set_invariant%invariant_chained Hraw1 Hraw2.
  pose proof (assertRange_ordered raw1 range1 Hraw1) as Hr1.
  pose proof (assertRange_ordered raw2 range2 Hraw2) as Hr2.
  destruct set as [map]. cbn in Hch. unfold RangeSet.add. cbn.
  pose proof (chained_inserted_reflects RangeSet.zeroEq zeroEq_reflects map
                range1 RangeSet.zero Hch Hr1) as Hch1.
  pose proof (chained_inserted_reflects RangeSet.zeroEq zeroEq_reflects map
                range2 RangeSet.zero Hch Hr2) as Hch2.
  rewrite (set_spec RangeSet.zeroEq map raw1 range1 RangeSet.zero Hch Hraw1 Hr1),
    (set_spec RangeSet.zeroEq map raw2 range2 RangeSet.zero Hch Hraw2 Hr2).
  cbn.
  rewrite (set_spec RangeSet.zeroEq _ raw2 range2 RangeSet.zero Hch1 Hraw2 Hr2),
    (set_spec RangeSet.zeroEq _ raw1 range1 RangeSet.zero Hch2 Hraw1 Hr1).
  cbn. split.
  - eexists. split; [done |]. do 2 f_equal.
    apply (same_entries RangeSet.zeroEq zeroEq_reflects);
      [by apply (chained_inserted_reflects RangeSet.zeroEq zeroEq_reflects)..|].
    intros key.
    rewrite !(valueAt_inserted_exact RangeSet.zeroEq zeroEq_reflects) by done.
    by repeat case_decide.
  - eexists. split; [done |]. cbn.
    rewrite (set_spec RangeSet.zeroEq _ raw1 range1 RangeSet.zero Hch1 Hraw1 Hr1).
    cbn. do 2 f_equal.
    apply (same_entries RangeSet.zeroEq zeroEq_reflects);
      [by apply (chained_inserted_reflects RangeSet.zeroEq zeroEq_reflects) | done |].
    intros key.
    rewrite !(valueAt_inserted_exact RangeSet.zeroEq zeroEq_reflects) by done.
    by repeat case_decide.
Qed.

Lemma adds_commute_and_repeat_is_no_op_witness :
  (RangeSet.add Readme.rangeSet (Readme.range (-3) 0)
     ≫= fun set' => RangeSet.add set' (Readme.range (-1) 9))
  = (RangeSet.add Readme.rangeSet (Readme.range (-1) 9)
       ≫= fun set' => RangeSet.add set' (Readme.range (-3) 0)).
Proof.
  destruct (adds_commute_and_repeat_is_no_op Readme.rangeSet
              (Readme.range (-3) 0) (Readme.range (-1) 9) (-3, 0) (-1, 9))
    as [(both & H12 & H21) _].
  - prove_set_invariant.
  - reflexivity.
  - reflexivity.
  - by rewrite H12, H21.
Defined.



Section SizeFacts.
Context {Value : Type}.
Variable strictEq : Value -> Value -> bool.
Local Abbreviation entry := (RangeEntry Value).
Local Abbreviation entries := (list entry).

(* Deleting a range adds at most one entry: only an entry that goes
   beyond the range at both ends is split, and there is at most one. *)
Lemma length_minus (this : entries) (range : Range) :
  chained strictEq this -> range.1 <= range.2 ->
  (length (this ≫= minus range) <= length this + 1)%nat.
Proof.
  intros Hch Hr. induction this as [| a rest IH]; [cbn; lia |].
  rewrite bind_cons, length_app.
  pose proof (chained_above strictEq a rest Hch) as Habove.
  pose proof Hch as [Ha _]. apply chained_tail in Hch. specialize (IH Hch).
  destruct a as [[start end_] value].
  destruct (decide (start < range.1 /\ range.2 < end_)) as [[Hlow Hhigh] | Hone].
  - rewrite (bind_minus_apart range rest).
    + unfold minus. repeat case_decide; cbn; lia.
    + eapply Forall_impl; [exact Habove |]. intros b Hb. entry_arith.
  - assert (length (minus range (start, end_, value)) <= 1)%nat.
    { unfold minus. repeat case_decide; cbn; lia. }
    cbn [length]. lia.
Qed.

Lemma length_mergeNext (x : entry) (after : entries) :
  (1 <= length (mergeNext strictEq x after) <= S (length after))%nat.
Proof.
  unfold mergeNext. destruct after as [| next rest]; [cbn; lia |].
  destruct (mergeable strictEq x next); cbn; lia.
Qed.

Lemma length_mergePrevious (before from : entries) :
  (length from <= S (length (mergePrevious strictEq before from)))%nat /\
  (length (mergePrevious strictEq before from)
   <= length before + length from)%nat /\
  (from <> [] -> 1 <= length (mergePrevious strictEq before from))%nat.
Proof.
  unfold mergePrevious.
  destruct (last before) as [previous |] eqn:Hlast, from as [| x rest];
    rewrite ?length_app; cbn; try (split_and!; (done || lia)).
  destruct (mergeable strictEq previous x);
    rewrite ?length_app, ?length_take; cbn; split_and!; lia.
Qed.

End SizeFacts.

(** X14.  How far the number of entries can move.  On a map that
    satisfies the class invariant and for a valid range, [set] leaves at
    least one entry and at most two more than there were, [delete] leaves
    at most one more than there were, and [slice] returns at most as many
    as there are. *)
Theorem size_after_set_delete_slice
  (Value : Type) (strictEq : Value -> Value -> bool)
  (this : SortedRangeMap Value) (raw : ReadonlyRange) (range : Range)
  (value : Value) :
  invariant strictEq this ->
  assertRange raw = Ok range ->
  exists after removed deleted copy,
    set strictEq this raw value = Ok after /\
    delete this raw = Ok (removed, deleted) /\
    slice this raw = Ok copy /\
    1 <= size after <= size this + 2 /\
    size deleted <= size this + 1 /\
    size copy <= size this.
Proof.
  intros Hinv Hraw. pose proof Hinv as Hch%invariant_chained.
  pose proof (assertRange_ordered raw range Hraw) as Hr.
  eexists _, _, _, _. split_and!.
  - by apply set_spec.
  - by apply (delete_spec strictEq).
  - by apply (slice_spec strictEq).
  - unfold inserted, size.
    pose proof (length_mergeNext strictEq (range, value)
                  (this ≫= keepAbove range.2)) as [Hmin _].
    destruct (length_mergePrevious strictEq (this ≫= keepBelow range.1)
                (mergeNext strictEq (range, value) (this ≫= keepAbove range.2)))
      as (_ & _ & Hnonempty).
    assert (mergeNext strictEq (range, value) (this ≫= keepAbove range.2) <> [])
      as Hsome by (intros Hnil; rewrite Hnil in Hmin; cbn in Hmin; lia).
    specialize (Hnonempty Hsome). lia.
  - unfold inserted, size.
    pose proof (length_mergeNext strictEq (range, value)
                  (this ≫= keepAbove range.2)) as [_ Hmax].
    destruct (length_mergePrevious strictEq (this ≫= keepBelow range.1)
                (mergeNext strictEq (range, value) (this ≫= keepAbove range.2)))
      as (_ & Hsum & _).
    pose proof (length_minus strictEq this range Hch Hr) as Hminus.
    rewrite (minus_halves strictEq this range Hch Hr), length_app in Hminus.
    lia.
  - unfold size. pose proof (length_minus strictEq this range Hch Hr). lia.
  - unfold size. rewrite length_fmap.
    pose proof (length_filter (meets range) this). lia.
Qed.

Lemma size_after_set_delete_slice_witness :
  set Z.eqb Readme.rangeMap (Readme.range 4 5) 8
  = Ok [((-4, -2), 8); ((1, 2), 42); ((3, 3), 3); ((4, 5), 8); ((6, 7), 3)] /\
  exists after,
    set Z.eqb Readme.rangeMap (Readme.range 4 5) 8 = Ok after /\
    size after <= size Readme.rangeMap + 2.
Proof.
  destruct (size_after_set_delete_slice Z Z.eqb Readme.rangeMap
              (Readme.range 4 5) (4, 5) 8)
    as (after & _ & _ & _ & Hset & _ & _ & [_ Hsize] & _).
  - prove_invariant.
  - reflexivity.
  - split; [reflexivity |]. exists after. split; [exact Hset | exact Hsize].
Defined.

Section LastWins.
Context {Value : Type}.
Variable strictEq : Value -> Value -> bool.
Hypothesis strictEq_reflects : forall u v, strictEq u v = true <-> u = v.


End LastWins.



(** X16.  [has] of a key is [hasAll] and [hasAny] of the range that
    holds that key only, as long as the key is a safe integer.  On a map
    that satisfies the class invariant the three return the same for such
    a key; for an integer beyond the safe integers [hasAll] and [hasAny]
    throw and [has] still answers. *)
Theorem has_is_hasAll_and_hasAny_of_one_key
  (Value : Type) (strictEq : Value -> Value -> bool)
  (this : SortedRangeMap Value) (key : Z) :
  invariant strictEq this ->
  (Z.abs key <= MAX_SAFE_INTEGER ->
   hasAll this (ofZ key, ofZ key) = has this key /\
   hasAny this (ofZ key, ofZ key) = has this key) /\
  (MAX_SAFE_INTEGER < Z.abs key ->
   hasAll this (ofZ key, ofZ key) = Throw InvalidRange /\
   hasAny this (ofZ key, ofZ key) = Throw InvalidRange) /\
  is_ok (has this key) = true.
Proof.
  intros Hch%invariant_chained.
  assert (bool_decide (filter (fun x : RangeEntry Value => covers x key) this
                       <> [])
          = bool_decide (is_Some (covering this key))) as Hsame.
  { apply bool_decide_ext. unfold covering.
    destruct (filter (fun x : RangeEntry Value => covers x key) this);
      cbn; split; (done || by intros []). }
  split_and!.
  - intros Hsafe.
    assert (assertRange (ofZ key, ofZ key) = Ok (key, key)) as Hraw
      by (apply (assertRange_ofZ (key, key)); cbn; lia).
    rewrite (hasAll_spec strictEq this _ (key, key)),
      (hasAny_spec strictEq this _ (key, key)), (has_spec strictEq)
      by (done || cbn; lia).
    cbn [fst snd]. rewrite filter_meets_point, Hsame. split; [| done].
    f_equal.
    pose proof (covering_unique strictEq this key Hch) as Hone.
    destruct (filter (fun x : RangeEntry Value => covers x key) this)
      as [| x [| y rest]]; cbn in *.
    + by rewrite andb_true_r, andb_diag.
    + by rewrite andb_true_r, andb_diag.
    + unfold size in Hone. cbn in Hone. lia.
  - intros Hunsafe.
    assert (assertRange (ofZ key, ofZ key) = Throw InvalidRange) as Hraw.
    { unfold assertRange. rewrite isSafeInteger_ofZ.
      by destruct (Z.leb_spec (Z.abs key) MAX_SAFE_INTEGER); [lia |]. }
    unfold hasAll, hasAny. by rewrite Hraw.
  - by rewrite (has_spec strictEq).
Qed.

Lemma has_is_hasAll_and_hasAny_of_one_key_witness :
  hasAll Readme.rangeMap (Readme.range 5 5) = Ok true /\
  hasAll Readme.rangeMap (Readme.range 5 5) = has Readme.rangeMap 5.
Proof.
  destruct (has_is_hasAll_and_hasAny_of_one_key Z Z.eqb Readme.rangeMap 5)
    as (Hsafe & _).
  - prove_invariant.
  - split; [reflexivity |]. apply Hsafe. vm_compute. discriminate.
Defined.

(** X17.  [assertRange] on integers: it accepts a pair of integers exactly
    when both are safe integers and the first is at most the second, it
    returns a range with the same two ends, and it accepts again what it
    has returned.  It refuses every pair one of whose ends is not an
    integer ([NaN], an infinity, a fraction). *)
Theorem assertRange_accepts_safe_ordered_integers
  (start end_ : Z) (raw : ReadonlyRange) (range : Range) :
  (assertRange (ofZ start, ofZ end_) = Ok (start, end_)
   <-> Z.abs start <= MAX_SAFE_INTEGER /\ Z.abs end_ <= MAX_SAFE_INTEGER
       /\ start <= end_) /\
  (assertRange (ofZ start, ofZ end_) = Throw InvalidRange
   <-> MAX_SAFE_INTEGER < Z.abs start \/ MAX_SAFE_INTEGER < Z.abs end_
       \/ end_ < start) /\
  (assertRange raw = Ok range ->
   assertRange (toReadonly range) = Ok range /\
   isInteger raw.1 = true /\ isInteger raw.2 = true /\
   range = (toZ raw.1, toZ raw.2) /\ range.1 <= range.2) /\
  (isInteger raw.1 = false \/ isInteger raw.2 = false ->
   assertRange raw = Throw InvalidRange).
Proof.
  assert (assertRange (ofZ start, ofZ end_)
          = if (Z.abs start <=? MAX_SAFE_INTEGER)
               && (Z.abs end_ <=? MAX_SAFE_INTEGER) && (start <=? end_)
            then Ok (start, end_) else Throw InvalidRange) as Hcases.
  { unfold assertRange. rewrite !isSafeInteger_ofZ, gt_ofZ, !toZ_ofZ.
    destruct (Z.abs start <=? _), (Z.abs end_ <=? _),
      (Z.ltb_spec end_ start), (Z.leb_spec start end_); (done || lia). }
  split_and!.
  - rewrite Hcases.
    destruct (Z.leb_spec (Z.abs start) MAX_SAFE_INTEGER),
      (Z.leb_spec (Z.abs end_) MAX_SAFE_INTEGER), (Z.leb_spec start end_);
      cbn; split; (done || lia).
  - rewrite Hcases.
    destruct (Z.leb_spec (Z.abs start) MAX_SAFE_INTEGER),
      (Z.leb_spec (Z.abs end_) MAX_SAFE_INTEGER), (Z.leb_spec start end_);
      cbn; split; (done || lia).
  - intros Hraw.
    pose proof (assertRange_ordered raw range Hraw) as Hr.
    pose proof (assertRange_bounded raw range Hraw) as [? ?].
    pose proof Hraw as [Hvalid ->]%assertRange_Ok.
    split_and!; try done.
    + by apply assertRange_ofZ.
    + unfold invalid, isSafeInteger in Hvalid.
      destruct (isInteger raw.1); [done |]. cbn in Hvalid. tauto.
    + unfold invalid, isSafeInteger in Hvalid.
      destruct (isInteger raw.2); [done |]. cbn in Hvalid. tauto.
  - intros Hfraction. apply assertRange_invalid. unfold invalid, isSafeInteger.
    destruct Hfraction as [-> | ->]; [by left | by right; left].
Qed.



Section CloneFacts.
Context {Value : Type}.
Local Abbreviation entry := (RangeEntry Value).
Local Abbreviation entries := (list entry).

Lemma cloneEntry_fresh (h : list Range) (address : nat) (value : Value)
    (range : Range) :
  h !! address = Some range ->
  Store.cloneEntry h (address, value)
  = Ok ((length h, value), h ++ [range]).
Proof.
  intros Hrange. unfold Store.cloneEntry, Store.cloneRange, Store.read.
  rewrite Hrange. by destruct range.
Qed.

(* A write to an array made after the map was read does not reach the
   map. *)
Lemma write_fresh_preserved (h k : list Range) (this : list (nat * Value))
    (view : entries) (address : nat) (written : Range) :
  Store.resolve h this = Ok view ->
  (length h <= address)%nat ->
  Store.resolve (Store.write (h ++ k) address written) this = Ok view.
Proof.
  intros Hview Hfresh. apply (resolve_preserved h); [done |].
  intros a Ha. unfold Store.write.
  rewrite list_lookup_insert_ne by lia. by apply lookup_app_l.
Qed.

Lemma handOut_clone (h : list Range) (this : list (nat * Value))
    (view : entries) (found : option (nat * Value)) (pure : option entry) :
  option_Forall2 (Store.pointsTo h) found pure ->
  match found, pure with
  | Some (address, value), Some (range, value') =>
      value = value' /\
      Store.cloneEntry h (address, value)
      = Ok ((length h, value), h ++ [range])
  | None, None => True
  | _, _ => False
  end.
Proof.
  intros [[address value] [range value'] [Hrange Hvalue] |]; [| done].
  cbn in *. subst. split; [done |]. by apply cloneEntry_fresh.
Qed.

Lemma entries_clones (this : list (nat * Value)) (view : entries)
    (h k : list Range) :
  Forall2 (Store.pointsTo h) this view ->
  exists clones k',
    Store.entries (h ++ k) this = Ok (clones, h ++ k ++ k') /\
    Forall2 (Store.pointsTo (h ++ k ++ k')) clones view /\
    Forall (fun clone : nat * Value => (length h <= clone.1)%nat) clones.
Proof.
  intros Hview. revert k.
  induction Hview as [| [address value] [range value'] this view
                        [Hrange Hvalue] Hrest IH]; intros k.
  { exists [], []. by rewrite app_nil_r. }
  cbn in Hrange, Hvalue. subst value'. cbn [Store.entries].
  rewrite (cloneEntry_fresh _ _ _ range) by by apply lookup_app_l_Some.
  cbn. destruct (IH (k ++ [range])) as (clones & k' & Hclones & Hpoints & Hfresh).
  rewrite <- !(assoc_L (++)) in *. rewrite Hclones. cbn.
  exists ((length (h ++ k), value) :: clones), ([range] ++ k').
  split_and!; [done | |].
  - constructor; [| done]. split; [| done]. cbn.
    rewrite (assoc_L (++) h k). by apply list_lookup_middle.
  - constructor; [| done]. cbn. rewrite length_app. lia.
Qed.

Lemma entries_id (this : entries) : RangeMap.entries this = this.
Proof.
  unfold RangeMap.entries. induction this as [| x rest IH]; [done |].
  rewrite fmap_cons. f_equal; [apply cloneEntry_id | apply IH].
Qed.

End CloneFacts.

(** X18.  What [at], [get] and [entries] hand out are copies.  On a map
    whose entries read as some list satisfying the class invariant, each of
    them returns the entries the model returns, held in range arrays
    created by the call: no array that existed is written, and whatever a
    client then writes into an array it was handed, the map reads as
    before. *)
Theorem entries_handed_out_are_copies
  (Value : Type) (strictEq : Value -> Value -> bool)
  (h : list Range) (this : list (nat * Value)) (view : SortedRangeMap Value)
  (key position : Z) :
  Store.resolve h this = Ok view ->
  invariant strictEq view ->
  (exists handed h',
     Store.get h this key = Ok (handed, h') /\
     (forall address : nat,
        (address < length h)%nat -> h' !! address = h !! address) /\
     match handed with
     | None => get view key = Ok None
     | Some (address, value) =>
         exists range,
           get view key = Ok (Some (range, value)) /\
           h' !! address = Some range /\ address = length h /\
           forall written,
             Store.resolve (Store.write h' address written) this = Ok view
     end) /\
  (exists handed h',
     Store.at_ h this position = Ok (handed, h') /\
     (forall address : nat,
        (address < length h)%nat -> h' !! address = h !! address) /\
     match handed with
     | None => at_ view position = None
     | Some (address, value) =>
         exists range,
           at_ view position = Some (range, value) /\
           h' !! address = Some range /\ address = length h /\
           forall written,
             Store.resolve (Store.write h' address written) this = Ok view
     end) /\
  (exists clones h',
     Store.entries h this = Ok (clones, h') /\
     Store.resolve h' clones = Ok (entries view) /\
     (forall address : nat,
        (address < length h)%nat -> h' !! address = h !! address) /\
     forall clone written,
       clone ∈ clones ->
       Store.resolve (Store.write h' clone.1 written) this = Ok view).
Proof.
  intros Hview Hch%invariant_chained.
  pose proof Hview as Hpoints%resolve_Forall2.
  assert (forall (found : option (nat * Value)) (pure : option (RangeEntry Value)),
            option_Forall2 (Store.pointsTo h) found pure ->
            exists handed h',
              match found with
              | None => Ok (None, h)
              | Some entry =>
                  Store.cloneEntry h entry
                    ≫= fun '(clone, h) => Ok (Some clone, h)
              end = Ok (handed, h') /\
              (forall address : nat,
                 (address < length h)%nat -> h' !! address = h !! address) /\
              match handed with
              | None => pure = None
              | Some (address, value) =>
                  exists range,
                    pure = Some (range, value) /\
                    h' !! address = Some range /\ address = length h /\
                    forall written,
                      Store.resolve (Store.write h' address written) this
                      = Ok view
              end) as Hhand.
  { intros found pure Hfound.
    pose proof (handOut_clone h this view found pure Hfound) as Hclone.
    destruct found as [[address value] |], pure as [[range value'] |];
      try done.
    - destruct Hclone as [<- Hclone]. rewrite Hclone. cbn.
      eexists _, _. split; [done |]. split.
      + intros a Ha. by apply lookup_app_l.
      + exists range. split_and!; [done | | done |].
        * by apply list_lookup_middle.
        * intros written. by apply write_fresh_preserved.
    - by eexists _, _. }
  split_and!.
  - unfold Store.get. rewrite Hview. cbn.
    rewrite (get_spec strictEq view key Hch).
    rewrite (indexOf_locate strictEq view key Hch). cbn.
    destruct (Z.geb_spec (locate view key) 0) as [Hfound | Habsent].
    + pose proof (index_Forall2 _ _ _ (locate view key) Hpoints) as Hentry.
      rewrite (index_locate strictEq) in Hentry by (done || lia).
      unfold element.
      destruct (Hhand _ _ Hentry) as (handed & h' & Hrun & Hsame & Hcopy).
      destruct (index this (locate view key)) as [found |].
      * cbn in *. exists handed, h'. split_and!; [done | done |].
        destruct handed as [[address value] |].
        -- destruct Hcopy as (range & -> & ?). by exists range.
        -- by rewrite Hcopy.
      * exfalso. assert (covering view key = None) as Hnone
          by by inversion Hentry.
        apply covering_None in Hnone. apply Hnone.
        by apply covered_filter, locate_found.
    + exists None, h. split_and!; [done | done |].
      f_equal. apply covering_None. intros Hcov%covered_filter.
      apply locate_found in Hcov. lia.
  - unfold Store.at_.
    pose proof (at_Forall2 _ _ _ position Hpoints) as Hentry.
    destruct (Hhand _ _ Hentry) as (handed & h' & Hrun & Hsame & Hcopy).
    exists handed, h'. split_and!; [done | done |].
    unfold at_. destruct handed as [[address value] |].
    + destruct Hcopy as (range & Hat & ?). exists range. rewrite Hat.
      split; [by destruct range | done].
    + by rewrite Hcopy.
  - destruct (entries_clones this view h [] Hpoints)
      as (clones & k' & Hrun & Hclones & Hfresh).
    rewrite app_nil_r in Hrun. cbn in Hrun, Hclones.
    exists clones, (h ++ k'). split_and!; [done | | |].
    + apply resolve_Forall2. by rewrite entries_id.
    + intros a Ha. by apply lookup_app_l.
    + intros clone written Hclone. apply write_fresh_preserved; [done |].
      rewrite Forall_forall in Hfresh. by apply Hfresh.
Qed.

Lemma entries_handed_out_are_copies_witness :
  Store.get [(1, 2); (3, 7)] [(0%nat, 42); (1%nat, 3)] 5
  = Ok (Some (2%nat, 3), [(1, 2); (3, 7); (3, 7)]) /\
  Store.resolve (Store.write [(1, 2); (3, 7); (3, 7)] 2 (0, 99))
    [(0%nat, 42); (1%nat, 3)]
  = Ok [((1, 2), 42); ((3, 7), 3)].
Proof.
  destruct (entries_handed_out_are_copies Z Z.eqb [(1, 2); (3, 7)]
              [(0%nat, 42); (1%nat, 3)] [((1, 2), 42); ((3, 7), 3)] 5 0)
    as [(handed & h' & Hget & _ & Hcopy) _].
  - reflexivity.
  - prove_invariant.
  - split; [reflexivity |].
    vm_compute in Hget. injection Hget as <- <-.
    destruct Hcopy as (range & _ & _ & _ & Hwrite). apply Hwrite.
Defined.
